(* ===================================================================== *)
(* pyords: the fitness evaluator of the genetic-algorithm VRP use case   *)
(* (tests/simulate/test_genetic_algorithm_vrp.py) and the evolution      *)
(* engine that drives it.                                                *)
(*                                                                       *)
(* Weights, pallet counts, route ids and zip codes are the integers the  *)
(* source draws; distances are whole numbers of one fixed unit, the unit *)
(* of the score.  A column without a missing value is an int64 column:   *)
(* its arithmetic wraps around at 64 bits.  A column that holds a        *)
(* missing value (NaN, written [None]) is a float64 column, and so is    *)
(* every shifted column and every row that df.apply hands out: an        *)
(* integer that enters one is rounded to the nearest float64.  Sums and  *)
(* differences of float64 numbers are taken without rounding.            *)
(* ===================================================================== *)

From Stdlib Require Import ZArith List Lia Permutation Sorted Orders Mergesort.
From stdpp Require Import gmap strings list fin_maps.

Local Open Scope Z_scope.

(* --------------------------------------------------------------------- *)
(* Values, frames, objects, the heap                                     *)
(* --------------------------------------------------------------------- *)

(** One cell of a pandas column: a number, or NaN. *)
Abbreviation cell := (option Z).

(** pd.isnull on a scalar. *)
Definition isnull (c : cell) : bool :=
  match c with None => true | Some _ => false end.

(* --------------------------------------------------------------------- *)
(* Numbers: int64 and float64                                            *)
(* --------------------------------------------------------------------- *)

(** What an int64 holds after an operation whose exact result is [z]:
    numpy's integer arithmetic wraps around. *)
Definition wrap64 (z : Z) : Z := (z + 2 ^ 63) mod 2 ^ 64 - 2 ^ 63.

(** abs() on an int64: the least int64 has no absolute value and stays
    as it is. *)
Definition abs64 (z : Z) : Z := wrap64 (Z.abs z).

(** The whole number nearest to a / b, for 0 <= a and 0 < b; half-way
    between two, the even one. *)
Definition round_half_even (a b : Z) : Z :=
  let q := a / b in
  let r := a mod b in
  if 2 * r <? b then q
  else if b <? 2 * r then q + 1
  else if Z.even q then q else q + 1.

(** The float64 nearest to the integer [z], which is what an int64
    becomes in a float64 column: itself up to 2^53, beyond that the
    nearest number of 53 significant bits. *)
Definition f64 (z : Z) : Z :=
  let a := Z.abs z in
  if a <=? 2 ^ 53 then z
  else
    let u := 2 ^ (Z.log2 a - 52) in
    Z.sgn z * (u * round_half_even a u).

(** A number as Python holds it after it left a table. *)
Inductive scalar : Type :=
  | Int64 (z : Z)
  | Float64 (z : Z).

Definition scalar_value (a : scalar) : Z :=
  match a with Int64 z | Float64 z => z end.

Definition as_float64 (a : scalar) : Z :=
  match a with Int64 z => f64 z | Float64 z => z end.

(** a + b: two int64 give an int64; with a float64 among them the other
    is converted and the sum is a float64. *)
Definition scalar_add (a b : scalar) : scalar :=
  match a, b with
  | Int64 x, Int64 y => Int64 (wrap64 (x + y))
  | _, _ => Float64 (as_float64 a + as_float64 b)
  end.

(** The dtype of a column of numbers: float64 when it holds a NaN, int64
    when it holds none. *)
Definition is_float (c : list cell) : bool := existsb isnull c.

(** Series.astype('float64') *)
Definition to_float (c : list cell) : list cell :=
  (λ x : cell, f64 <$> x) <$> c.

(** A DataFrame: the index labels (row names) and the columns by name.
    Every column of a well-formed frame is as long as the index. *)
Record frame : Type := Frame {
  index : list nat;
  columns : gmap string (list cell)
}.

Definition frame_wf (f : frame) : Prop :=
  ∀ name c, columns f !! name = Some c → length c = length (index f).

(** Python objects that live behind a reference. *)
Inductive obj : Type :=
  | ODataFrame (f : frame)
  | OList (m : list (list Z)).

Abbreviation loc := positive.
Abbreviation heap := (gmap positive obj).

(** envs.BasicEnvironment(df=..., _dict=...): two attributes, a frame
    reference and a dict from names to references. *)
Record Environment : Type := {
  df : loc;
  _dict : gmap string loc
}.

(** The exceptions the evaluator can raise.  [DataError] is the class the
    design document names for lookup failures; no statement of the source
    raises it. *)
Inductive exn : Type :=
  | KeyError | ValueError | IndexError | TypeError | DataError.

Global Instance exn_eq_dec : EqDecision exn.
Proof. solve_decision. Defined.

(* --------------------------------------------------------------------- *)
(* The interpreter monad: a heap threaded through, exceptions abort      *)
(* --------------------------------------------------------------------- *)

Definition M (A : Type) : Type := heap → (exn + A) * heap.

Definition ret {A} (a : A) : M A := λ h, (inr a, h).
Definition raise {A} (e : exn) : M A := λ h, (inl e, h).
Definition bind {A B} (c : M A) (k : A → M B) : M B :=
  λ h, match c h with
       | (inr a, h') => k a h'
       | (inl e, h') => (inl e, h')
       end.
Definition lift {A} (r : exn + A) : M A := λ h, (r, h).

Notation "'do' x <- c ; k" := (bind c (λ x, k))
  (at level 10, x name, c at level 100, k at level 200).
Notation "c ;; k" := (bind c (λ _, k))
  (at level 100, k at level 200, right associativity).

Fixpoint mapM {A B} (f : A → M B) (l : list A) : M (list B) :=
  match l with
  | [] => ret []
  | a :: l' => do b <- f a; do bs <- mapM f l'; ret (b :: bs)
  end.

Definition get_frame (l : loc) : M frame :=
  λ h, match h !! l with
       | Some (ODataFrame f) => (inr f, h)
       | Some (OList _) => (inl TypeError, h)
       | None => (inl KeyError, h)
       end.

Definition get_list (l : loc) : M (list (list Z)) :=
  λ h, match h !! l with
       | Some (OList m) => (inr m, h)
       | Some (ODataFrame _) => (inl TypeError, h)
       | None => (inl KeyError, h)
       end.

Definition set_frame (l : loc) (f : frame) : M unit :=
  λ h, (inr tt, <[l := ODataFrame f]> h).

Definition alloc (o : obj) : M loc :=
  λ h, let l := fresh (dom h) in (inr l, <[l := o]> h).

(* --------------------------------------------------------------------- *)
(* Sorting                                                               *)
(* --------------------------------------------------------------------- *)

(** ndarray.take: the elements at the given positions, in that order. *)
Definition ndtake {A} (p : list nat) (l : list A) : list A :=
  omap (λ i, l !! i) p.

(** numpy's argsort, as DataFrame.sort_values calls it with its default
    kind='quicksort'.  The routine is a library function; what its
    documentation promises for that kind is that the result is a
    permutation of the positions along which the keys are non-decreasing.
    Stability is promised for kind='stable' and 'mergesort' only. *)
Class ArgSort : Type := {
  argsort : list Z → list nat;
  argsort_perm : ∀ l, argsort l ≡ₚ seq 0 (length l);
  argsort_sorted : ∀ l, StronglySorted Z.le (ndtake (argsort l) l)
}.

(** The positions of the cells that satisfy [p], counted from [i]. *)
Fixpoint positions (p : cell → bool) (keys : list cell) (i : nat) : list nat :=
  match keys with
  | [] => []
  | c :: ks => if p c then i :: positions p ks (S i) else positions p ks (S i)
  end.

(** pandas.core.sorting.nargsort, ascending, na_position='last'. *)
Definition nargsort `{ArgSort} (keys : list cell) : list nat :=
  let non_nans := omap id keys in
  let non_nan_idx := positions (λ c, negb (isnull c)) keys 0 in
  let nan_idx := positions isnull keys 0 in
  ndtake (argsort non_nans) non_nan_idx ++ nan_idx.

(* --------------------------------------------------------------------- *)
(* Series and DataFrame operations used by the evaluator                 *)
(* --------------------------------------------------------------------- *)

(** Series.sum() of a float64 column: NaN is skipped, the empty sum is
    0. *)
Definition series_sum (s : list cell) : Z :=
  foldr (λ c acc, default 0 c + acc) 0 s.

Definition sum_Z (l : list Z) : Z := foldr Z.add 0 l.

(** Series.shift(): every value moves one row down and the first is NaN,
    so that the result is a float64 column. *)
Definition shift (s : list cell) : list cell :=
  match s with
  | [] => []
  | _ :: _ => None :: removelast (to_float s)
  end.

Definition Z_leb_total (a b : Z) : Z.leb a b = true ∨ Z.leb b a = true.
Proof. rewrite !Z.leb_le. lia. Qed.

Module ZOrder <: TotalLeBool.
Definition t := Z.
Definition leb := Z.leb.
Definition leb_total := Z_leb_total.
End ZOrder.
Module ZSort := Sort ZOrder.

(** The group labels of df.groupby(key): the distinct non-NaN keys,
    ascending. *)
Definition group_keys (k : list cell) : list Z :=
  ZSort.sort (remove_dups (omap id k)).

(** The values of the rows whose key is [g]. *)
Fixpoint group_rows (g : Z) (k v : list cell) : list cell :=
  match k, v with
  | kc :: k', vc :: v' =>
      if bool_decide (kc = Some g) then vc :: group_rows g k' v'
      else group_rows g k' v'
  | _, _ => []
  end.

(** df.groupby(key)[col].sum(): one sum per group label, in the dtype of
    the column. *)
Definition groupby_sum (k v : list cell) : list (Z * Z) :=
  map (λ g, (g, (if is_float v then id else wrap64)
                  (series_sum (group_rows g k v)))) (group_keys k).

(** The Series of group sums: whether it is float64, and its values. *)
Abbreviation sums := (bool * list (Z * Z))%type.

(** (bound - series).abs().sum() *)
Definition abs_deviation_sum (bound : Z) (s : sums) : scalar :=
  if s.1
  then Float64 (sum_Z (map (λ gs, Z.abs (bound - gs.2)) s.2))
  else Int64 (wrap64 (sum_Z (map (λ gs, abs64 (wrap64 (bound - gs.2))) s.2))).

Definition column (f : frame) (name : string) : exn + list cell :=
  match columns f !! name with
  | Some c => inr c
  | None => inl KeyError
  end.

(** df.copy() *)
Definition df_copy (l : loc) : M loc :=
  do f <- get_frame l; alloc (ODataFrame f).

(** df[name] *)
Definition df_getitem (l : loc) (name : string) : M (list cell) :=
  do f <- get_frame l; lift (column f name).

(** DataFrame._ensure_valid_index: a frame without rows takes over the
    index of the first list-like value assigned to it; its existing
    columns are reindexed, so they hold NaN on every new row. *)
Definition ensure_valid_index (f : frame) (n : nat) : frame :=
  if bool_decide (length (index f) = 0%nat ∧ (0 < n)%nat)
  then Frame (seq 0 n) ((λ _, replicate n None) <$> columns f)
  else f.

(** df[name] = value, for a list-like value: the index is made valid,
    then the lengths must match (ValueError otherwise). *)
Definition df_setitem (l : loc) (name : string) (v : list cell) : M unit :=
  do f <- get_frame l;
  let f' := ensure_valid_index f (length v) in
  if bool_decide (length v = length (index f'))
  then set_frame l (Frame (index f') (<[name := v]> (columns f')))
  else raise ValueError.

(** df.sort_values(by=name, inplace=True) *)
Definition df_sort_values `{ArgSort} (l : loc) (by_ : string) : M unit :=
  do f <- get_frame l;
  do k <- lift (column f by_);
  let indexer := nargsort k in
  set_frame l (Frame (ndtake indexer (index f)) (ndtake indexer <$> columns f)).

(** df.groupby(key)[col].sum() *)
Definition df_groupby_sum (l : loc) (key col : string) : M sums :=
  do f <- get_frame l;
  do k <- lift (column f key);
  do v <- lift (column f col);
  ret (is_float v, groupby_sum k v).

(** A row as df.apply(..., axis=1) hands it to the function. *)
Abbreviation row := (gmap string cell).

Definition rows (f : frame) : list row :=
  map (λ i, omap (λ c : list cell, c !! i) (columns f))
      (seq 0 (length (index f))).

Definition row_get (x : row) (name : string) : M cell :=
  match x !! name with
  | Some c => ret c
  | None => raise KeyError
  end.

(** DataFrame.values: the table as one array of one dtype, float64 as
    soon as one column is. *)
Definition df_values (f : frame) : frame :=
  if bool_decide (map_Forall (λ _ c, is_float c = false) (columns f))
  then f
  else Frame (index f) (to_float <$> columns f).

(** The Series made of the values a function returned: float64 when a
    NaN is among them. *)
Definition result_series (results : list cell) : list cell :=
  if is_float results then to_float results else results.

(** df.apply(func, axis=1): the function is called on the rows of
    df.values, one by one; the first exception aborts. *)
Definition df_apply (l : loc) (func : row → M cell) : M (list cell) :=
  do f <- get_frame l;
  do results <- mapM func (rows (df_values f));
  ret (result_series results).

(* --------------------------------------------------------------------- *)
(* The evaluator: fitness_func and its nested functions                  *)
(* --------------------------------------------------------------------- *)

(** list[i] of Python: a negative index counts from the end, an index
    out of range raises IndexError. *)
Definition py_getitem {A} (l : list A) (i : Z) : exn + A :=
  let n := Z.of_nat (length l) in
  let j := if i <? 0 then i + n else i in
  if (0 <=? j) && (j <? n)
  then match l !! Z.to_nat j with
       | Some x => inr x
       | None => inl IndexError
       end
  else inl IndexError.

(** lookup.loc[keys == z, poscol].values[0]: the position cell of the
    first row whose key equals [z]; IndexError when no row does. *)
Fixpoint loc_first (keys poss : list cell) (z : Z) : exn + cell :=
  match keys, poss with
  | k :: keys', p :: poss' =>
      if bool_decide (k = Some z) then inr p else loc_first keys' poss' z
  | _, _ => inl IndexError
  end.

(** A value of the position column used as a list index.  A column that
    holds a NaN is a float column, and a float is no list index. *)
Definition as_index (col : list cell) (c : cell) : exn + Z :=
  match c with
  | Some i => if forallb (λ c', negb (isnull c')) col then inr i else inl TypeError
  | None => inl TypeError
  end.

(** a != b on two float64 numbers: NaN differs from everything. *)
Definition cell_ne (a b : cell) : bool :=
  match a, b with
  | Some x, Some y => negb (x =? y)
  | _, _ => true
  end.

Definition dict_get (d : gmap string loc) (key : string) : M loc :=
  match d !! key with
  | Some l => ret l
  | None => raise KeyError
  end.

Section Evaluator.
Context `{ArgSort}.
Variable individual : list Z.
Variable environment : Environment.

Definition max_weight : Z := 45000.
Definition max_pallets : Z := 25.

(** decode(): the demand table copied, the individual as a new column. *)
Definition decode : M loc :=
  do data <- df_copy (df environment);
  df_setitem data "chromosomes" (Some <$> individual);;
  ret data.

Definition get_distance (x : row) : M cell :=
  do zipcode <- row_get x "zipcode";
  match zipcode with
  | None => ret None
  | Some zip =>
  do prev_zip <- row_get x "prev_zip";
  match prev_zip with
  | None => ret None
  | Some pzip =>
  do chromosomes <- row_get x "chromosomes";
  do prev_chromosomes <- row_get x "prev_chromosomes";
  if cell_ne chromosomes prev_chromosomes then ret None else
  do lookup <- dict_get (_dict environment) "zip_lookup";
  do lookup_zipcode <- df_getitem lookup "zipcode";
  do lookup_position <- df_getitem lookup "position";
  do origin_cell <- lift (loc_first (to_float lookup_zipcode) lookup_position pzip);
  do dest_cell <- lift (loc_first (to_float lookup_zipcode) lookup_position zip);
  do matrix <- dict_get (_dict environment) "distance_matrix";
  do distance_matrix <- get_list matrix;
  do origin_index <- lift (as_index lookup_position origin_cell);
  do matrix_row <- lift (py_getitem distance_matrix origin_index);
  do dest_index <- lift (as_index lookup_position dest_cell);
  do d <- lift (py_getitem matrix_row dest_index);
  ret (Some d)
  end end.

Definition get_distance_penalty (decoded : loc) : M Z :=
  df_sort_values decoded "chromosomes";;
  do zipcode <- df_getitem decoded "zipcode";
  df_setitem decoded "prev_zip" (shift zipcode);;
  do chromosomes <- df_getitem decoded "chromosomes";
  df_setitem decoded "prev_chromosomes" (shift chromosomes);;
  do distance <- df_apply decoded get_distance;
  df_setitem decoded "distance" distance;;
  do distance <- df_getitem decoded "distance";
  ret (series_sum distance).

Definition fitness_func : M Z :=
  do decoded <- decode;
  do weights <- df_groupby_sum decoded "chromosomes" "weight";
  let weight_penalty := abs_deviation_sum max_weight weights in
  do pallet_sums <- df_groupby_sum decoded "chromosomes" "pallets";
  let pallet_penalty := abs_deviation_sum max_pallets pallet_sums in
  do distance_penalty <- get_distance_penalty decoded;
  ret (scalar_value
         (scalar_add (scalar_add weight_penalty pallet_penalty)
                     (Float64 distance_penalty))).

End Evaluator.

(* --------------------------------------------------------------------- *)
(* Two sorting routines that meet the contract of [ArgSort]              *)
(* --------------------------------------------------------------------- *)

(** Keys paired with their positions. *)
Definition enumerate (l : list Z) : list (Z * nat) :=
  zip l (seq 0 (length l)).

(** Ties broken by ascending position: the stable order. *)
Definition stable_leb (a b : Z * nat) : bool :=
  (a.1 <? b.1) || ((a.1 =? b.1) && (a.2 <=? b.2)%nat).

(** Ties broken by descending position: an order no stable sort yields. *)
Definition reversing_leb (a b : Z * nat) : bool :=
  (a.1 <? b.1) || ((a.1 =? b.1) && (b.2 <=? a.2)%nat).

Definition stable_leb_total (a b : Z * nat) :
  stable_leb a b = true ∨ stable_leb b a = true.
Proof.
  unfold stable_leb.
  destruct (Z.ltb_spec a.1 b.1), (Z.ltb_spec b.1 a.1),
    (Z.eqb_spec a.1 b.1), (Z.eqb_spec b.1 a.1),
    (Nat.leb_spec a.2 b.2), (Nat.leb_spec b.2 a.2); simpl; auto; lia.
Qed.

Definition reversing_leb_total (a b : Z * nat) :
  reversing_leb a b = true ∨ reversing_leb b a = true.
Proof.
  unfold reversing_leb.
  destruct (Z.ltb_spec a.1 b.1), (Z.ltb_spec b.1 a.1),
    (Z.eqb_spec a.1 b.1), (Z.eqb_spec b.1 a.1),
    (Nat.leb_spec a.2 b.2), (Nat.leb_spec b.2 a.2); simpl; auto; lia.
Qed.

Module StableOrder <: TotalLeBool.
Definition t := (Z * nat)%type.
Definition leb := stable_leb.
Definition leb_total := stable_leb_total.
End StableOrder.
Module StableSort := Sort StableOrder.

Module ReversingOrder <: TotalLeBool.
Definition t := (Z * nat)%type.
Definition leb := reversing_leb.
Definition leb_total := reversing_leb_total.
End ReversingOrder.
Module ReversingSort := Sort ReversingOrder.

Definition stable_argsort (l : list Z) : list nat :=
  (StableSort.sort (enumerate l)).*2.

Definition reversing_argsort (l : list Z) : list nat :=
  (ReversingSort.sort (enumerate l)).*2.

(* --------------------------------------------------------------------- *)
(* What the evaluator reads from the environment                         *)
(* --------------------------------------------------------------------- *)

(** The lookup table's two columns and the distance matrix. *)
Record tables : Type := Tables {
  lk_zipcode : list cell;
  lk_position : list cell;
  matrix : list (list Z)
}.

Definition ebind {A B} (r : exn + A) (k : A → exn + B) : exn + B :=
  match r with
  | inl e => inl e
  | inr a => k a
  end.

(** The lookup of get_distance on its own: from two zip codes to the
    matrix entry, through the positions of the lookup table. *)
Definition stop_distance (t : tables) (pzip zip : Z) : exn + Z :=
  ebind (loc_first (lk_zipcode t) (lk_position t) pzip) (λ origin_cell,
  ebind (loc_first (lk_zipcode t) (lk_position t) zip) (λ dest_cell,
  ebind (as_index (lk_position t) origin_cell) (λ origin_index,
  ebind (py_getitem (matrix t) origin_index) (λ matrix_row,
  ebind (as_index (lk_position t) dest_cell) (λ dest_index,
  py_getitem matrix_row dest_index))))).

Definition frame_at (h : heap) (l : loc) : option frame :=
  match h !! l with
  | Some (ODataFrame f) => Some f
  | _ => None
  end.

Definition list_at (h : heap) (l : loc) : option (list (list Z)) :=
  match h !! l with
  | Some (OList m) => Some m
  | _ => None
  end.

(** The columns zipcode, weight and pallets of the demand table, one
    cell per record. *)
Definition env_records (h : heap) (e : Environment)
    : option (list cell * list cell * list cell) :=
  f ← frame_at h (df e);
  zs ← columns f !! "zipcode";
  ws ← columns f !! "weight";
  ps ← columns f !! "pallets";
  if bool_decide (length zs = length (index f) ∧ length ws = length (index f)
                  ∧ length ps = length (index f))
  then Some (zs, ws, ps) else None.

(** The lookup table and the distance matrix behind the dict. *)
Definition env_tables (h : heap) (e : Environment) : option tables :=
  ll ← _dict e !! "zip_lookup";
  lf ← frame_at h ll;
  kz ← columns lf !! "zipcode";
  kp ← columns lf !! "position";
  ml ← _dict e !! "distance_matrix";
  m ← list_at h ml;
  Some (Tables kz kp m).

(** The heap holds the environment's three objects with these contents. *)
Definition env_ok (h : heap) (e : Environment)
    (zs ws ps : list cell) (t : tables) : Prop :=
  env_records h e = Some (zs, ws, ps) ∧ env_tables h e = Some t.

(* --------------------------------------------------------------------- *)
(* The reference policy of the design document, in its own words         *)
(* --------------------------------------------------------------------- *)



Section Policy.
Context `{ArgSort}.
Variable individual : list Z.
Variables zs ws ps : list cell.
Variable t : tables.









End Policy.

(* --------------------------------------------------------------------- *)
(* The evolution engine                                                  *)
(* --------------------------------------------------------------------- *)

Module Engine.

Abbreviation Individual := (list Z).

(** Modelled from the spec: the error taxonomy of the engine
    (algs.BasicGeneticAlgorithm is imported by the test, its module is
    not among the sources). *)
Inductive error : Type :=
  | ConfigurationError
  | EnvironmentDataError
  | FitnessEvaluationError.

(** Modelled from the spec: the injectable, seedable random generator
    the engine and its operators receive explicitly (the engine module
    is missing).  A generator is a fixed sequence of raw draws and a
    cursor into it. *)
Record Rng : Type := { tape : nat → nat; cursor : nat }.

(** Modelled from the spec: a uniform draw below [bound]. *)
Definition draw (bound : nat) (g : Rng) : nat * Rng :=
  ((tape g (cursor g) mod bound)%nat,
   {| tape := tape g; cursor := S (cursor g) |}).

(** Modelled from the spec: an event of probability [rate], a rate
    being given in thousandths. *)
Definition flip (rate : nat) (g : Rng) : bool * Rng :=
  let (u, g') := draw 1000 g in ((u <? rate)%nat, g').

Section WithEnvironment.
Variable Env : Type.
Variable record_count : Env → nat.

(** Modelled from the spec: the construction configuration of
    section 6 (the engine's constructor is missing); rates are in
    thousandths, a fitness function that raises returns [None]. *)
Record Config : Type := {
  first_individual : Individual;
  environment : Env;
  fitness_func : Individual → Env → option Z;
  n_generations : nat;
  population_size : nat;
  elitism_count : nat;
  mutation_rate : nat;
  crossover_rate : nat;
  tournament_size : nat;
  vehicle_count : nat;
  random_seed : Rng;
  convergence_patience : option nat
}.

(** Modelled from the spec: the state of the RUNNING engine between
    two generations (the engine module is missing). *)
Record State : Type := {
  generation : nat;
  population : list Individual;
  best : option (Individual * Z);
  trace : list (nat * Z);
  stale : nat;
  rng : Rng
}.

(** Modelled from the spec: RunResult of section 6, with the
    non-fatal convergence notice attached. *)
Record RunResult : Type := {
  best_individual : Individual;
  best_score : Z;
  result_trace : list (nat * Z);
  convergence_notice : bool
}.

Variable cfg : Config.

(** Modelled from the spec: mutation, independent per locus with
    probability mutation_rate; a mutated gene is a uniformly drawn
    route id below the vehicle count (the operator is missing). *)
Fixpoint mutate (rate : nat) (ind : Individual) (g : Rng) : Individual * Rng :=
  match ind with
  | [] => ([], g)
  | x :: rest =>
      let (hit, g1) := flip rate g in
      let (x', g2) :=
        if hit then let (v, g') := draw (vehicle_count cfg) g1 in (Z.of_nat v, g')
        else (x, g1) in
      let (rest', g3) := mutate rate rest g2 in
      (x' :: rest', g3)
  end.

(** Modelled from the spec: locus-wise uniform crossover, each gene
    from parent A or parent B with equal probability (the operator
    is missing). *)
Fixpoint uniform_crossover (a b : Individual) (g : Rng) : Individual * Rng :=
  match a, b with
  | x :: a', y :: b' =>
      let (c, g1) := draw 2 g in
      let (rest, g2) := uniform_crossover a' b' g1 in
      ((if (c =? 0)%nat then x else y) :: rest, g2)
  | _, _ => ([], g)
  end.

(** Modelled from the spec: crossover is applied with probability
    crossover_rate, otherwise one parent is cloned. *)
Definition crossover (a b : Individual) (g : Rng) : Individual * Rng :=
  let (apply, g1) := flip (crossover_rate cfg) g in
  if apply then uniform_crossover a b g1 else (a, g1).

(** Modelled from the spec: tournament selection, the best-scoring of
    k uniformly sampled candidates (the operator is missing). *)
Fixpoint tournament (k : nat) (pop : list (Individual * Z))
    (champion : Individual * Z) (g : Rng) : (Individual * Z) * Rng :=
  match k with
  | O => (champion, g)
  | S k' =>
      let (i, g1) := draw (length pop) g in
      let candidate := nth i pop champion in
      tournament k' pop
        (if candidate.2 <? champion.2 then candidate else champion) g1
  end.

Definition select (pop : list (Individual * Z)) (first : Individual * Z)
    (g : Rng) : (Individual * Z) * Rng :=
  let (i, g1) := draw (length pop) g in
  tournament (tournament_size cfg - 1) pop (nth i pop first) g1.

(** Modelled from the spec: the scored population ordered by score,
    lower first, for elitism. *)
Fixpoint insert_scored (p : Individual * Z) (l : list (Individual * Z))
    : list (Individual * Z) :=
  match l with
  | [] => [p]
  | q :: l' => if p.2 <=? q.2 then p :: l else q :: insert_scored p l'
  end.

Definition rank (l : list (Individual * Z)) : list (Individual * Z) :=
  foldr insert_scored [] l.

(** Modelled from the spec: the remainder of the next population,
    by selection, crossover and mutation. *)
Fixpoint breed (n : nat) (pop : list (Individual * Z))
    (first : Individual * Z) (g : Rng) : list Individual * Rng :=
  match n with
  | O => ([], g)
  | S n' =>
      let (a, g1) := select pop first g in
      let (b, g2) := select pop first g1 in
      let (c, g3) := crossover a.1 b.1 g2 in
      let (m, g4) := mutate (mutation_rate cfg) c g3 in
      let (others, g5) := breed n' pop first g4 in
      (m :: others, g5)
  end.

(** Modelled from the spec: every individual is scored; an error of
    the fitness function is fatal. *)
Fixpoint evaluate (pop : list Individual) : error + list (Individual * Z) :=
  match pop with
  | [] => inr []
  | ind :: pop' =>
      match fitness_func cfg ind (environment cfg) with
      | None => inl FitnessEvaluationError
      | Some s =>
          match evaluate pop' with
          | inl e => inl e
          | inr scored => inr ((ind, s) :: scored)
          end
      end
  end.

(** Modelled from the spec: one generation of RUNNING: evaluate,
    track the best score seen so far, then elitism and breeding. *)
Definition step (st : State) : error + State :=
  match evaluate (population st) with
  | inl e => inl e
  | inr scored =>
      match rank scored with
      | [] => inr st
      | (top :: _) as ranked =>
          let improved :=
            match best st with
            | None => true
            | Some b => top.2 <? b.2
            end in
          let best' := if improved then top else default top (best st) in
          let elites := (firstn (elitism_count cfg) ranked).*1 in
          let (offspring, g') :=
            breed (population_size cfg - length elites) ranked top (rng st) in
          inr {| generation := S (generation st);
                 population := elites ++ offspring;
                 best := Some best';
                 trace := trace st ++ [(generation st, best'.2)];
                 stale := if improved then O else S (stale st);
                 rng := g' |}
      end
  end.

Definition converged (st : State) : bool :=
  match convergence_patience cfg with
  | Some m => (m <=? stale st)%nat
  | None => false
  end.

(** Modelled from the spec: RUNNING until n_generations generations
    have executed or the early-stop window has passed. *)
Fixpoint loop (remaining : nat) (st : State) : error + State :=
  match remaining with
  | O => inr st
  | S r =>
      if converged st then inr st
      else match step st with
           | inl e => inl e
           | inr st' => loop r st'
           end
  end.

(** Modelled from the spec: the seed perturbed by randomized gene
    reassignment: every gene is kept or redrawn on a fair coin. *)
Fixpoint perturbed (n : nat) (g : Rng) : list Individual * Rng :=
  match n with
  | O => ([], g)
  | S n' =>
      let (ind, g1) := mutate 500 (first_individual cfg) g in
      let (others, g2) := perturbed n' g1 in
      (ind :: others, g2)
  end.

(** Modelled from the spec: INITIALIZED: the configuration is
    validated, then the initial population is the seed and
    population_size - 1 perturbed copies. *)
Definition initialize : error + State :=
  if negb ((2 <=? population_size cfg)%nat && (1 <=? n_generations cfg)%nat
           && (mutation_rate cfg <=? 1000)%nat
           && (crossover_rate cfg <=? 1000)%nat)
  then inl ConfigurationError
  else if negb (length (first_individual cfg) =? record_count (environment cfg))%nat
  then inl EnvironmentDataError
  else
    let (others, g) := perturbed (population_size cfg - 1) (random_seed cfg) in
    inr {| generation := O;
           population := first_individual cfg :: others;
           best := None;
           trace := [];
           stale := O;
           rng := g |}.

(** Modelled from the spec: run(), from INITIALIZED to TERMINATED. *)
Definition run : error + RunResult :=
  match initialize with
  | inl e => inl e
  | inr st0 =>
      match loop (n_generations cfg) st0 with
      | inl e => inl e
      | inr st =>
          match best st with
          | None => inl ConfigurationError
          | Some b =>
              inr {| best_individual := b.1;
                     best_score := b.2;
                     result_trace := trace st;
                     convergence_notice := converged st |}
          end
      end
  end.

(** The states the engine passes through. *)
Inductive reachable : State → Prop :=
  | reachable_init st : initialize = inr st → reachable st
  | reachable_step st st' : reachable st → step st = inr st' → reachable st'.

End WithEnvironment.
End Engine.

(* --------------------------------------------------------------------- *)
(* The evaluator as a function of what it reads                          *)
(* --------------------------------------------------------------------- *)

(** A column of a table of [n] rows after a list of [k] values was
    assigned to it (DataFrame._ensure_valid_index). *)
Definition reindexed (n k : nat) (c : list cell) : list cell :=
  if bool_decide (n = 0%nat ∧ (0 < k)%nat) then replicate k None else c.

(** get_distance on the four cells it reads from a row. *)
Definition row_leg (t : tables) (c pc z pz : cell) : exn + cell :=
  match z with
  | None => inr None
  | Some zip =>
      match pz with
      | None => inr None
      | Some pzip =>
          if cell_ne c pc then inr None
          else ebind (stop_distance t pzip zip) (λ d, inr (Some d))
      end
  end.

(** The distance column: get_distance row by row. *)
Fixpoint legs (t : tables) (cs pcs zs pzs : list cell) : exn + list cell :=
  match cs, pcs, zs, pzs with
  | c :: cs', pc :: pcs', z :: zs', pz :: pzs' =>
      ebind (row_leg t c pc z pz) (λ d,
      ebind (legs t cs' pcs' zs' pzs') (λ ds, inr (d :: ds)))
  | _, _, _, _ => inr []
  end.

(** The lookup table as get_distance compares it with the float64 zip
    code of a row. *)
Definition float_tables (t : tables) : tables :=
  Tables (to_float (lk_zipcode t)) (lk_position t) (matrix t).

(** The value of fitness_func on a demand table of [n] records with the
    columns [zs], [ws], [ps]. *)
Definition score `{ArgSort} (individual : list Z) (n : nat)
    (zs ws ps : list cell) (t : tables) : exn + Z :=
  let k := length individual in
  if bool_decide (k = n ∨ (n = 0%nat ∧ (0 < k)%nat)) then
    let cs := Some <$> individual in
    let ws' := reindexed n k ws in
    let ps' := reindexed n k ps in
    let weight_penalty :=
      abs_deviation_sum max_weight (is_float ws', groupby_sum cs ws') in
    let pallet_penalty :=
      abs_deviation_sum max_pallets (is_float ps', groupby_sum cs ps') in
    let indexer := nargsort cs in
    let cs' := ndtake indexer cs in
    let zs' := ndtake indexer (reindexed n k zs) in
    ebind (legs (float_tables t) (to_float cs') (shift cs')
                (to_float zs') (shift zs')) (λ distance,
    inr (scalar_value
           (scalar_add (scalar_add weight_penalty pallet_penalty)
              (Float64 (series_sum (result_series distance))))))
  else inl ValueError.

(** The two capacity components of the score, added up before the
    distance joins them. *)
Definition capacity_penalty (individual : list Z) (ws ps : list cell)
    : scalar :=
  let cs := Some <$> individual in
  scalar_add (abs_deviation_sum max_weight (is_float ws, groupby_sum cs ws))
             (abs_deviation_sum max_pallets (is_float ps, groupby_sum cs ps)).

(** The zip code [z] of a record is a key of the lookup table for
    get_distance, which compares the two as float64 numbers. *)
Definition listed (t : tables) (z : Z) : Prop :=
  Some (f64 z) ∈ to_float (lk_zipcode t).

(** The table that decode() returns for the demand table [f]. *)
Definition decoded_frame (individual : list Z) (f : frame) : frame :=
  let f' := ensure_valid_index f (length individual) in
  Frame (index f') (<["chromosomes" := Some <$> individual]> (columns f')).

(** The decoded table as get_distance_penalty leaves it: sorted by
    chromosomes, with the two shifted columns and, unless a lookup
    raised, the distance column. *)
Definition evaluated_frame `{ArgSort} (individual : list Z) (f : frame)
    (zs : list cell) (t : tables) : frame :=
  let F := decoded_frame individual f in
  let p := nargsort (Some <$> individual) in
  let cs' := ndtake p (Some <$> individual) in
  let zs' := ndtake p (reindexed (length (index f)) (length individual) zs) in
  let sorted :=
    <["prev_chromosomes" := shift cs']>
      (<["prev_zip" := shift zs']> (ndtake p <$> columns F)) in
  Frame (ndtake p (index F))
    match legs (float_tables t) (to_float cs') (shift cs')
               (to_float zs') (shift zs') with
    | inr distance => <["distance" := result_series distance]> sorted
    | inl _ => sorted
    end.

(* --------------------------------------------------------------------- *)
(* The same evaluation on exact numbers                                  *)
(* --------------------------------------------------------------------- *)


(** One exact sum per group label. *)
Definition exact_groupby_sum (k v : list cell) : list (Z * Z) :=
  map (λ g, (g, series_sum (group_rows g k v))) (group_keys k).

(** The exact sum of the absolute deviations from [bound]. *)
Definition exact_abs_deviation_sum (bound : Z) (s : list (Z * Z)) : Z :=
  sum_Z (map (λ gs, Z.abs (bound - gs.2)) s).


(** The sum of the magnitudes of a column. *)
Definition sum_abs (c : list cell) : Z :=
  foldr (λ x acc, Z.abs (default 0 x) + acc) 0 c.


(** A number that float64 holds as it is. *)
Definition small (c : cell) : bool :=
  match c with
  | Some z => Z.abs z <=? 2 ^ 53
  | None => true
  end.



(** No sum of the two capacity components leaves the range of int64. *)
Definition int64_range (individual : list Z) (ws ps : list cell) : bool :=
  45025 * Z.of_nat (length individual) + sum_abs ws + sum_abs ps <? 2 ^ 63.

(** The cell before each cell of a column, [p] before the first. *)
Fixpoint prevs (p : cell) (s : list cell) : list cell :=
  match s with
  | [] => []
  | x :: s' => p :: prevs x s'
  end.


(** The lookup table gives every zip code a position, and every position
    is a row and a column of the distance matrix. *)
Definition tables_wf (t : tables) : bool :=
  (length (lk_position t) =? length (lk_zipcode t))%nat
  && forallb (λ p : cell,
       match p with
       | Some i => (0 <=? i) && (i <? Z.of_nat (length (matrix t)))
       | None => false
       end) (lk_position t)
  && forallb (λ r : list Z, (length r =? length (matrix t))%nat) (matrix t).

(** No entry of the distance matrix is negative. *)
Definition matrix_nonneg (t : tables) : bool :=
  forallb (forallb (λ d, 0 <=? d)) (matrix t).

(* --------------------------------------------------------------------- *)
(* A small environment to run the evaluator on                           *)
(* --------------------------------------------------------------------- *)

Module Example.

Definition zip_lookup : frame :=
  Frame [0; 1; 2]%nat
    (<["zipcode" := [Some 10; Some 20; Some 30]]>
    (<["position" := [Some 0; Some 1; Some 2]]> ∅)).

Definition distance_matrix : list (list Z) :=
  [[0; 5; 9]; [5; 0; 7]; [9; 7; 0]].

Definition zipcodes : list cell := [Some 10; Some 20; Some 30; Some 20].
Definition weights : list cell :=
  [Some 10000; Some 20000; Some 30000; Some 5000].
Definition pallet_counts : list cell := [Some 5; Some 6; Some 7; Some 8].

Definition demand_data : frame :=
  Frame [0; 1; 2; 3]%nat
    (<["zipcode" := zipcodes]>
    (<["weight" := weights]>
    (<["pallets" := pallet_counts]> ∅))).

Definition environment : Environment :=
  {| df := 1%positive;
     _dict := <["zip_lookup" := 2%positive]>
             (<["distance_matrix" := 3%positive]> ∅) |}.

Definition heap0 : heap :=
  <[1%positive := ODataFrame demand_data]>
  (<[2%positive := ODataFrame zip_lookup]>
  (<[3%positive := OList distance_matrix]> ∅)).

Definition tables0 : tables :=
  Tables [Some 10; Some 20; Some 30] [Some 0; Some 1; Some 2] distance_matrix.

(** A demand table without records. *)
Definition no_demand : frame :=
  Frame [] (<["zipcode" := []]> (<["weight" := []]> (<["pallets" := []]> ∅))).

Definition empty_heap : heap :=
  <[1%positive := ODataFrame no_demand]>
  (<[2%positive := ODataFrame zip_lookup]>
  (<[3%positive := OList distance_matrix]> ∅)).

(** A matrix with a negative entry. *)
Definition signed_matrix : list (list Z) :=
  [[0; -1; 9]; [-1; 0; 7]; [9; 7; 0]].

Definition signed_heap : heap :=
  <[1%positive := ODataFrame
      (Frame [0; 1]%nat
         (<["zipcode" := [Some 10; Some 20]]>
         (<["weight" := [Some 22500; Some 22500]]>
         (<["pallets" := [Some 12; Some 13]]> ∅))))]>
  (<[2%positive := ODataFrame zip_lookup]>
  (<[3%positive := OList signed_matrix]> ∅)).


(** A demand table of the given columns, next to the lookup table and
    the matrix of [heap0]. *)
Definition heap_of (zs ws ps : list cell) : heap :=
  <[1%positive := ODataFrame
      (Frame (seq 0 (length zs))
         (<["zipcode" := zs]> (<["weight" := ws]> (<["pallets" := ps]> ∅))))]>
  (<[2%positive := ODataFrame zip_lookup]>
  (<[3%positive := OList distance_matrix]> ∅)).


(** Two loads of one route that miss the least int64 by the capacity. *)
Definition wrapping_weights : list cell := [Some (2 ^ 62); Some (2 ^ 62 + 45000)].
Definition wrapping_heap : heap :=
  heap_of [Some 10; Some 10] wrapping_weights [Some 12; Some 13].

(** A lookup table whose second position is no row of the matrix. *)
Definition short_matrix : list (list Z) := [[0]].
Definition short_tables : tables :=
  Tables [Some 10; Some 20] [Some 0; Some 1] short_matrix.
Definition short_heap : heap :=
  <[1%positive := ODataFrame demand_data]>
  (<[2%positive := ODataFrame
       (Frame [0; 1]%nat
          (<["zipcode" := [Some 10; Some 20]]>
          (<["position" := [Some 0; Some 1]]> ∅)))]>
  (<[3%positive := OList short_matrix]> ∅)).

(** A lookup table that holds the zip code 2^53 and a demand table whose
    records have the zip code 2^53 + 1. *)
Definition wide_tables : tables := Tables [Some (2 ^ 53)] [Some 0] [[0]].
Definition wide_zipcodes : list cell := [Some (2 ^ 53 + 1); Some (2 ^ 53 + 1)].
Definition wide_heap : heap :=
  <[1%positive := ODataFrame
      (Frame [0; 1]%nat
         (<["zipcode" := wide_zipcodes]>
         (<["weight" := [Some 22500; Some 22500]]>
         (<["pallets" := [Some 12; Some 13]]> ∅))))]>
  (<[2%positive := ODataFrame
       (Frame [0]%nat
          (<["zipcode" := [Some (2 ^ 53)]]> (<["position" := [Some 0]]> ∅)))]>
  (<[3%positive := OList [[0]]]> ∅)).



(** A row of the sorted table as get_distance receives it. *)
Definition a_row (zipcode prev_zip chromosomes prev_chromosomes : cell) : row :=
  <["zipcode" := zipcode]> (<["prev_zip" := prev_zip]>
  (<["chromosomes" := chromosomes]>
  (<["prev_chromosomes" := prev_chromosomes]> ∅))).

End Example.

(** What holds of every state the engine passes through, [n] being the
    number of demand records: every individual has [n] genes, and the
    trace lists the generations in order with scores that never rise and
    never fall below the best score seen so far. *)
Definition engine_inv (n : nat) (st : Engine.State) : Prop :=
  Forall (λ ind : list Z, length ind = n) (Engine.population st)
  ∧ (∀ b, Engine.best st = Some b → length b.1 = n)
  ∧ StronglySorted (λ a b : nat * Z, (a.1 < b.1)%nat ∧ b.2 ≤ a.2)
      (Engine.trace st)
  ∧ Forall (λ a : nat * Z,
        (a.1 < Engine.generation st)%nat
        ∧ ∀ b, Engine.best st = Some b → b.2 ≤ a.2)
      (Engine.trace st)
  ∧ (Engine.best st = None → Engine.trace st = []).

(** What elitism keeps of every state the engine passes through: the
    population is not empty, and with at least one elite the best score
    seen so far is the score of an individual of the population. *)
Definition elitism_inv {Env : Type} (cfg : Engine.Config Env)
    (st : Engine.State) : Prop :=
  Engine.population st ≠ []
  ∧ (2 ≤ Engine.population_size Env cfg)%nat
  ∧ ((1 ≤ Engine.elitism_count Env cfg)%nat →
     ∀ b, Engine.best st = Some b →
       ∃ ind, ind ∈ Engine.population st
              ∧ Engine.fitness_func Env cfg ind (Engine.environment Env cfg)
                = Some b.2).

(* --------------------------------------------------------------------- *)
(* The set-up of the use case: demand table, lookup table, matrix        *)
(* --------------------------------------------------------------------- *)

(** len(df) *)
Definition df_len (l : loc) : M nat :=
  do f <- get_frame l; ret (length (index f)).

(** The columns named by a list of names; KeyError for a name the table
    lacks. *)
Fixpoint select_columns (f : frame) (names : list string)
    : exn + gmap string (list cell) :=
  match names with
  | [] => inr ∅
  | name :: names' =>
      ebind (column f name) (λ c,
      ebind (select_columns f names') (λ m, inr (<[name := c]> m)))
  end.

(** df[[name, ...]]: a new table of the named columns. *)
Definition df_select (l : loc) (names : list string) : M loc :=
  do f <- get_frame l;
  do cols <- lift (select_columns f names);
  alloc (ODataFrame (Frame (index f) cols)).

(** The rows that DataFrame.duplicated (keep='first') does not mark: the
    positions, counted from [i], of the elements that equal none before
    them nor any of [seen]. *)
Fixpoint first_occurrences {A} `{EqDecision A}
    (seen l : list A) (i : nat) : list nat :=
  match l with
  | [] => []
  | x :: l' =>
      if bool_decide (x ∈ seen) then first_occurrences seen l' (S i)
      else i :: first_occurrences (x :: seen) l' (S i)
  end.

(** df.drop_duplicates(): a new table of the rows not seen before, each
    under its old label. *)
Definition df_drop_duplicates (l : loc) : M loc :=
  do f <- get_frame l;
  let keep := first_occurrences [] (rows f) 0 in
  alloc (ODataFrame (Frame (ndtake keep (index f)) (ndtake keep <$> columns f))).

(** df.reset_index(): a new table, the rows numbered from 0, the old
    labels as the column index; ValueError when that column exists. *)
Definition df_reset_index (l : loc) : M loc :=
  do f <- get_frame l;
  match columns f !! "index" with
  | Some _ => raise ValueError
  | None =>
      alloc (ODataFrame
        (Frame (seq 0 (length (index f)))
               (<["index" := (λ i, Some (Z.of_nat i)) <$> index f]> (columns f))))
  end.

(** The row that holds a label. *)
Fixpoint label_position (labels : list nat) (label : nat) : option nat :=
  match labels with
  | [] => None
  | x :: labels' =>
      if bool_decide (x = label) then Some O
      else S <$> label_position labels' label
  end.

(** df[name].loc[label] on a table whose labels are distinct: the cell of
    the row under that label, KeyError without such a row. *)
Definition df_loc (l : loc) (name : string) (label : nat) : M cell :=
  do f <- get_frame l;
  do c <- lift (column f name);
  match label_position (index f) label with
  | Some i =>
      match c !! i with
      | Some v => ret v
      | None => raise KeyError
      end
  | None => raise KeyError
  end.

(** list(range(n)) as a column. *)
Definition range_column (n : nat) : list cell :=
  (λ i, Some (Z.of_nat i)) <$> seq 0 n.

Section SetUp.
(** haversine(p, q, Unit.MILES) of the haversine package, on pairs
    (latitude, longitude). *)
Variable haversine : Z * Z → Z * Z → Z.
(** dist*1.17, the product of floats, as a number of the same unit. *)
Variable times_1_17 : Z → Z.

(** A coordinate read from the table; the arrays the set-up draws hold
    numbers, and a NaN, which has no distance in the matrix of numbers,
    is refused. *)
Definition coordinate (c : cell) : M Z :=
  match c with
  | Some v => ret v
  | None => raise ValueError
  end.

(** pd.DataFrame({'zipcode': ..., 'latitude': ..., 'longitude': ...,
    'weight': ..., 'pallets': ...}): the rows numbered from 0; ValueError
    unless the arrays have one length. *)
Definition demand_frame (zipcode latitude longitude weight pallets : list Z)
    : frame :=
  Frame (seq 0 (length zipcode))
    (<["zipcode" := Some <$> zipcode]>
    (<["latitude" := Some <$> latitude]>
    (<["longitude" := Some <$> longitude]>
    (<["weight" := Some <$> weight]>
    (<["pallets" := Some <$> pallets]> ∅))))).

Definition demand_table (zipcode latitude longitude weight pallets : list Z)
    : M loc :=
  let n := length zipcode in
  if bool_decide (length latitude = n ∧ length longitude = n
                  ∧ length weight = n ∧ length pallets = n)
  then alloc (ODataFrame
                (demand_frame zipcode latitude longitude weight pallets))
  else raise ValueError.

(** One row of the distance matrix: from the stop under label [i] to the
    stop under every label. *)
Definition distance_row (geo_lookup : loc) (indicies : list nat) (i : nat)
    : M (list Z) :=
  do o_lat <- do c <- df_loc geo_lookup "latitude" i; coordinate c;
  do o_lon <- do c <- df_loc geo_lookup "longitude" i; coordinate c;
  mapM (λ j,
    do d_lat <- do c <- df_loc geo_lookup "latitude" j; coordinate c;
    do d_lon <- do c <- df_loc geo_lookup "longitude" j; coordinate c;
    let dist := haversine (o_lat, o_lon) (d_lat, d_lon) in
    ret (times_1_17 dist)) indicies.

(** The module-level statements that build the environment of the use
    case from the five arrays of demand data. *)
Definition set_up (zipcode latitude longitude weight pallets : list Z)
    : M Environment :=
  do demand_data <- demand_table zipcode latitude longitude weight pallets;
  do selected <- df_select demand_data ["zipcode"; "latitude"; "longitude"];
  do geo_lookup <- df_drop_duplicates selected;
  do k <- df_len geo_lookup;
  df_setitem geo_lookup "position" (range_column k);;
  do renumbered <- df_reset_index geo_lookup;
  do zip_lookup <- df_select renumbered ["zipcode"; "position"];
  do indicies <- do f <- get_frame geo_lookup; ret (index f);
  do distance_matrix <- mapM (distance_row geo_lookup indicies) indicies;
  do matrix <- alloc (OList distance_matrix);
  ret {| df := demand_data;
         _dict := <["distance_matrix" := matrix]>
                 (<["zip_lookup" := zip_lookup]> ∅) |}.

End SetUp.

(** What the set-up builds, as a function of the arrays: the records
    that drop_duplicates keeps, by their row number, *)
Definition kept_records (zipcode latitude longitude : list Z) : list nat :=
  first_occurrences [] (zip (zip zipcode latitude) longitude) 0.

(** and the lookup table and the distance matrix over them. *)
Definition built_tables (haversine : Z * Z → Z * Z → Z)
    (times_1_17 : Z → Z) (zipcode latitude longitude : list Z) : tables :=
  let keep := kept_records zipcode latitude longitude in
  let point := λ i : nat, (nth i latitude 0, nth i longitude 0) in
  Tables (Some <$> ndtake keep zipcode)
         (range_column (length keep))
         ((λ i, (λ j, times_1_17 (haversine (point i) (point j))) <$> keep)
            <$> keep).

(** A small set-up to run: two of the five records share the zip code
    10 and its coordinates, a third shares the zip code alone. *)
Module SetUpExample.

Definition flat_distance (p q : Z * Z) : Z :=
  Z.abs (p.1 - q.1) + Z.abs (p.2 - q.2).

(** x * 1.17 for the distances of this example, which are multiples of
    100. *)
Definition times_1_17 (x : Z) : Z := x * 117 / 100.

Definition zipcode : list Z := [10; 20; 10; 30; 10].
Definition latitude : list Z := [100; 200; 100; 300; 500].
Definition longitude : list Z := [400; 500; 400; 600; 400].
Definition weight : list Z := [100; 200; 300; 400; 500].
Definition pallets : list Z := [1; 2; 3; 4; 5].

Definition built : (exn + Environment) * heap :=
  set_up flat_distance times_1_17 zipcode latitude longitude weight pallets ∅.

Definition environment : Environment :=
  match built.1 with
  | inr e => e
  | inl _ => {| df := 1%positive; _dict := ∅ |}
  end.

End SetUpExample.

(* --------------------------------------------------------------------- *)
(* The OR-tools notebook (examples/notebooks/py/cp_ortools_sandbox.py)   *)
(* --------------------------------------------------------------------- *)

Module Notebook.

(** list[1:-1] of Python: without the first and the last element. *)
Definition inner {A} (l : list A) : list A :=
  drop 1 (take (length l - 1) l).

(** What get_solution records for one vehicle. *)
Record Info : Type := {
  vehicle : Z;
  stops : list Z;
  stop_distances : list Z;
  stop_loads : list cell
}.

Section Routing.
(** haversine(p, q, unit=Unit.MILES); a NaN coordinate gives NaN. *)
Variable haversine : cell * cell → cell * cell → cell.
(** The columns latitude, longitude and pallets of the shipment table
    df, one cell per shipment. *)
Variables latitude longitude pallets : list cell.

(** The origin node, in ten-thousandths of a degree. *)
Definition origins : list (cell * cell) := [(Some 414191, Some (-877748))].

(** The distance matrix with the origin as node 0. *)
Definition distances : list (list cell) :=
  let points := origins ++ zip latitude longitude in
  (λ coords0, (λ coords1, haversine coords0 coords1) <$> points) <$> points.

(** One truck of capacity 26 per destination node. *)
Definition vehicles : list Z := (λ _, 26) <$> seq 0 (length (drop 1 distances)).

(** np.insert(df.pallets.values, 0, 0): no demand at the depot. *)
Definition demand : list cell := Some 0 :: pallets.

(** The routing model and the assignment that the solver returned, by
    the calls the notebook makes on them: manager.IndexToNode(i),
    model.Start(vehicle), model.IsEnd(i),
    assignment.Value(model.NextVar(i)) and
    model.GetArcCostForVehicle(i, j, vehicle). *)
Variable IndexToNode : Z → Z.
Variable Start : Z → Z.
Variable IsEnd : Z → bool.
Variable NextVar : Z → Z.
Variable GetArcCostForVehicle : Z → Z → Z → Z.

Definition distance_callback (i j : Z) : exn + cell :=
  let node_i := IndexToNode i in
  let node_j := IndexToNode j in
  ebind (py_getitem distances node_i) (λ r, py_getitem r node_j).

Definition demand_callback (i : Z) : exn + cell :=
  let node := IndexToNode i in
  py_getitem demand node.

(** The while loop of get_solution, from index [i] on; [None] when the
    loop has not come to an end index within [fuel] rounds. *)
Fixpoint follow (fuel : nat) (i : Z) (info : Info) : option (exn + Info) :=
  match fuel with
  | O => None
  | S fuel' =>
      if IsEnd i then Some (inr info)
      else
        let node := IndexToNode i in
        match py_getitem demand node with
        | inl e => Some (inl e)
        | inr load =>
            let previous_i := i in
            let i' := NextVar i in
            follow fuel' i'
              {| vehicle := vehicle info;
                 stops := stops info ++ [node];
                 stop_distances :=
                   stop_distances info
                   ++ [GetArcCostForVehicle previous_i i' (vehicle info)];
                 stop_loads := stop_loads info ++ [load] |}
        end
  end.

(** The body of the for loop: one vehicle's route, the return to the
    depot added at its end. *)
Definition vehicle_info (fuel : nat) (v : Z) : option (exn + Info) :=
  match follow fuel (Start v)
          {| vehicle := v; stops := []; stop_distances := [0];
             stop_loads := [] |} with
  | None => None
  | Some (inl e) => Some (inl e)
  | Some (inr info) =>
      Some (inr {| vehicle := vehicle info;
                   stops := stops info ++ [0];
                   stop_distances := stop_distances info;
                   stop_loads := stop_loads info ++ [Some 0] |})
  end.

Fixpoint solution_of (fuel : nat) (vs : list Z) : option (exn + list Info) :=
  match vs with
  | [] => Some (inr [])
  | v :: vs' =>
      match vehicle_info fuel v with
      | None => None
      | Some (inl e) => Some (inl e)
      | Some (inr info) =>
          match solution_of fuel vs' with
          | None => None
          | Some (inl e) => Some (inl e)
          | Some (inr solution) => Some (inr (info :: solution))
          end
      end
  end.

(** get_solution(): for vehicle in range(len(vehicles)). *)
Definition get_solution (fuel : nat) : option (exn + list Info) :=
  solution_of fuel (Z.of_nat <$> seq 0 (length vehicles)).

(** The rows of df that the post-processing loop writes for one vehicle,
    the origin taken out of the node numbers, and what it writes there. *)
Definition stop_rows (v : Info) : list Z := (λ node, node - 1) <$> inner (stops v).
Definition stop_sequence (v : Info) : list Z :=
  Z.of_nat <$> seq 0 (length (stop_rows v)).

End Routing.

End Notebook.

(** Two shipments and a solved routing model to run the notebook on:
    vehicle 0 drives to both shipments (indices 0, 2, 3, end index 4),
    vehicle 1 stays at the depot (index 1, end index 5). *)
Module NotebookExample.

Definition flat_distance (p q : cell * cell) : cell :=
  match p, q with
  | (Some a, Some b), (Some c, Some d) => Some (Z.abs (a - c) + Z.abs (b - d))
  | _, _ => None
  end.

Definition latitude : list cell := [Some 414000; Some 415000].
Definition longitude : list cell := [Some (-877000); Some (-878000)].
Definition pallets : list cell := [Some 5; Some 7].

Definition IndexToNode (i : Z) : Z :=
  if i =? 2 then 1 else if i =? 3 then 2 else 0.
Definition Start (v : Z) : Z := v.
Definition IsEnd (i : Z) : bool := (i =? 4) || (i =? 5).
Definition NextVar (i : Z) : Z :=
  if i =? 0 then 2 else if i =? 2 then 3 else if i =? 3 then 4 else 5.
Definition GetArcCostForVehicle (i j v : Z) : Z := 10 * i + j.

Definition solution : list Notebook.Info :=
  [ {| Notebook.vehicle := 0; Notebook.stops := [0; 1; 2; 0];
       Notebook.stop_distances := [0; 2; 23; 34];
       Notebook.stop_loads := [Some 0; Some 5; Some 7; Some 0] |};
    {| Notebook.vehicle := 1; Notebook.stops := [0; 0];
       Notebook.stop_distances := [0; 15];
       Notebook.stop_loads := [Some 0; Some 0] |} ].

End NotebookExample.

(* ===================================================================== *)
(* Theorems                                                              *)
(* ===================================================================== *)

(* --------------------------------------------------------------------- *)
(* The two sorting routines meet the contract                            *)
(* --------------------------------------------------------------------- *)

Lemma elem_of_enumerate_from (l : list Z) (n : nat) (k : Z) (i : nat) :
  (k, i) ∈ zip l (seq n (length l)) → (n ≤ i)%nat ∧ l !! (i - n)%nat = Some k.
Proof.
  revert n. induction l as [|x l IH]; intros n; simpl.
  - intros Hin. inversion Hin.
  - intros Hin. apply elem_of_cons in Hin as [Heq|Hin].
    + inversion Heq; subst. split; [lia|]. by rewrite Nat.sub_diag.
    + apply IH in Hin as [Hle Hl]. split; [lia|].
      replace (i - n)%nat with (S (i - S n)) by lia. done.
Qed.

Lemma elem_of_enumerate (l : list Z) (k : Z) (i : nat) :
  (k, i) ∈ enumerate l → l !! i = Some k.
Proof.
  intros Hin. apply elem_of_enumerate_from in Hin as [_ Hl].
  by rewrite Nat.sub_0_r in Hl.
Qed.

Lemma ndtake_positions (l : list Z) (s : list (Z * nat)) :
  (∀ p, p ∈ s → l !! p.2 = Some p.1) → ndtake s.*2 l = s.*1.
Proof.
  unfold ndtake. induction s as [|p s IH]; intros Hs; simpl; [done|].
  rewrite (Hs p) by left. simpl. f_equal. apply IH.
  intros q Hq. apply Hs. by right.
Qed.

Section PairSort.
Variable srt : list (Z * nat) → list (Z * nat).
Variable le_pair : Z * nat → Z * nat → Prop.
Hypothesis srt_perm : ∀ l, l ≡ₚ srt l.
Hypothesis srt_sorted : ∀ l, StronglySorted le_pair (srt l).
Hypothesis le_pair_key : ∀ a b, le_pair a b → a.1 ≤ b.1.

Lemma pair_argsort_perm (l : list Z) :
  (srt (enumerate l)).*2 ≡ₚ seq 0 (length l).
Proof.
  rewrite <- srt_perm. unfold enumerate.
  rewrite snd_zip; [done|]. by rewrite length_seq.
Qed.

Lemma pair_argsort_keys (l : list Z) :
  ndtake (srt (enumerate l)).*2 l = (srt (enumerate l)).*1.
Proof.
  apply ndtake_positions. intros [k i] Hin. simpl.
  apply elem_of_enumerate. by rewrite srt_perm.
Qed.

Lemma pair_argsort_sorted (l : list Z) :
  StronglySorted Z.le (ndtake (srt (enumerate l)).*2 l).
Proof.
  rewrite pair_argsort_keys.
  induction (srt_sorted (enumerate l)) as [|a s Hs IH Hall]; simpl.
  - constructor.
  - constructor; [done|].
    apply Forall_fmap. eapply Forall_impl; [exact Hall|].
    intros b Hb. by apply le_pair_key.
Qed.
End PairSort.

Lemma stable_leb_trans : Transitive (λ a b, is_true (stable_leb a b)).
Proof.
  intros a b c. unfold is_true, stable_leb.
  rewrite !orb_true_iff, !andb_true_iff, !Z.ltb_lt, !Z.eqb_eq, !Nat.leb_le. lia.
Qed.

Lemma reversing_leb_trans : Transitive (λ a b, is_true (reversing_leb a b)).
Proof.
  intros a b c. unfold is_true, reversing_leb.
  rewrite !orb_true_iff, !andb_true_iff, !Z.ltb_lt, !Z.eqb_eq, !Nat.leb_le. lia.
Qed.

Lemma stable_leb_key (a b : Z * nat) : is_true (stable_leb a b) → a.1 ≤ b.1.
Proof.
  unfold is_true, stable_leb.
  rewrite !orb_true_iff, !andb_true_iff, !Z.ltb_lt, !Z.eqb_eq. lia.
Qed.

Lemma reversing_leb_key (a b : Z * nat) : is_true (reversing_leb a b) → a.1 ≤ b.1.
Proof.
  unfold is_true, reversing_leb.
  rewrite !orb_true_iff, !andb_true_iff, !Z.ltb_lt, !Z.eqb_eq. lia.
Qed.

(** A stable sort is an admissible sorting routine. *)
Definition stable_sorting : ArgSort :=
  {| argsort := stable_argsort;
     argsort_perm := pair_argsort_perm StableSort.sort StableSort.Permuted_sort;
     argsort_sorted :=
       pair_argsort_sorted StableSort.sort _ StableSort.Permuted_sort
         (λ l, StableSort.StronglySorted_sort l stable_leb_trans)
         stable_leb_key |}.

(** So is one that reverses the records of equal key. *)
Definition reversing_sorting : ArgSort :=
  {| argsort := reversing_argsort;
     argsort_perm := pair_argsort_perm ReversingSort.sort ReversingSort.Permuted_sort;
     argsort_sorted :=
       pair_argsort_sorted ReversingSort.sort _ ReversingSort.Permuted_sort
         (λ l, ReversingSort.StronglySorted_sort l reversing_leb_trans)
         reversing_leb_key |}.

(** A run of the engine on the example environment, the evaluator of the
    use case as its fitness function. *)
Module ExampleRun.

Definition record_count (env : heap * Environment) : nat :=
  match frame_at env.1 (df env.2) with
  | Some f => length (index f)
  | None => O
  end.

Definition fitness (individual : list Z) (env : heap * Environment)
    : option Z :=
  match (fitness_func (H:=stable_sorting) individual env.2 env.1).1 with
  | inr s => Some s
  | inl _ => None
  end.

Definition config : Engine.Config (heap * Environment) :=
  {| Engine.first_individual := [0; 1; 0; 1];
     Engine.environment := (Example.heap0, Example.environment);
     Engine.fitness_func := fitness;
     Engine.n_generations := 3;
     Engine.population_size := 4;
     Engine.elitism_count := 1;
     Engine.mutation_rate := 50;
     Engine.crossover_rate := 800;
     Engine.tournament_size := 2;
     Engine.vehicle_count := 2;
     Engine.random_seed :=
       {| Engine.tape := λ i, (i * 37 + 11)%nat; Engine.cursor := O |};
     Engine.convergence_patience := None |}.

(** A run that starts from a worse individual, with a smaller
    population, and improves on it. *)
Definition improving : Engine.Config (heap * Environment) :=
  {| Engine.first_individual := [0; 1; 1; 0];
     Engine.environment := (Example.heap0, Example.environment);
     Engine.fitness_func := fitness;
     Engine.n_generations := 4;
     Engine.population_size := 3;
     Engine.elitism_count := 1;
     Engine.mutation_rate := 100;
     Engine.crossover_rate := 800;
     Engine.tournament_size := 2;
     Engine.vehicle_count := 3;
     Engine.random_seed :=
       {| Engine.tape := λ i, (i * 37)%nat; Engine.cursor := O |};
     Engine.convergence_patience := None |}.

(** Its first two states. *)
Definition start : Engine.State :=
  match Engine.initialize _ record_count improving with
  | inr st => st
  | inl _ =>
      {| Engine.generation := O; Engine.population := []; Engine.best := None;
         Engine.trace := []; Engine.stale := O;
         Engine.rng := Engine.random_seed _ improving |}
  end.

Definition second : Engine.State :=
  match Engine.step _ improving start with
  | inr st => st
  | inl _ => start
  end.

End ExampleRun.

(* --------------------------------------------------------------------- *)
(* Running the monad                                                     *)
(* --------------------------------------------------------------------- *)

Lemma bind_inr {A B} (c : M A) (k : A → M B) (h h' : heap) (a : A) :
  c h = (inr a, h') → bind c k h = k a h'.
Proof. intros Hc. unfold bind. by rewrite Hc. Qed.

Lemma bind_inl {A B} (c : M A) (k : A → M B) (h h' : heap) (e : exn) :
  c h = (inl e, h') → bind c k h = (inl e, h').
Proof. intros Hc. unfold bind. by rewrite Hc. Qed.

Lemma bind_inv {A B} (c : M A) (k : A → M B) (h h2 : heap) (r : exn + B) :
  bind c k h = (r, h2) →
  (∃ e, c h = (inl e, h2) ∧ r = inl e) ∨
  (∃ a h1, c h = (inr a, h1) ∧ k a h1 = (r, h2)).
Proof.
  unfold bind. destruct (c h) as [[e|a] h1]; intros Hr.
  - left. exists e. by inversion Hr.
  - right. by exists a, h1.
Qed.

(* --------------------------------------------------------------------- *)
(* Which part of the heap a computation writes                           *)
(* --------------------------------------------------------------------- *)

(** The computation leaves every object but the one at [d] as it was. *)
Definition writes_only (d : loc) {A} (c : M A) : Prop :=
  ∀ h r h', c h = (r, h') → ∀ l, l ≠ d → h' !! l = h !! l.

Lemma writes_only_ret d {A} (a : A) : writes_only d (ret a).
Proof. intros h r h' Hc l _. by inversion Hc. Qed.

Lemma writes_only_raise d {A} (e : exn) : writes_only d (raise (A:=A) e).
Proof. intros h r h' Hc l _. by inversion Hc. Qed.

Lemma writes_only_lift d {A} (x : exn + A) : writes_only d (lift x).
Proof. intros h r h' Hc l _. by inversion Hc. Qed.

Lemma writes_only_bind d {A B} (c : M A) (k : A → M B) :
  writes_only d c → (∀ a, writes_only d (k a)) → writes_only d (bind c k).
Proof.
  intros Hc Hk h r h2 Hrun l Hl.
  apply bind_inv in Hrun as [(e & Hrun & _)|(a & h1 & Hrun & Hrest)].
  - by eapply Hc.
  - rewrite (Hk a _ _ _ Hrest l Hl). by eapply Hc.
Qed.

Lemma writes_only_get_frame d l : writes_only d (get_frame l).
Proof.
  intros h r h' Hc l' _. unfold get_frame in Hc.
  destruct (h !! l) as [[f|m]|]; by inversion Hc.
Qed.

Lemma writes_only_get_list d l : writes_only d (get_list l).
Proof.
  intros h r h' Hc l' _. unfold get_list in Hc.
  destruct (h !! l) as [[f|m]|]; by inversion Hc.
Qed.

Lemma writes_only_set_frame d f : writes_only d (set_frame d f).
Proof.
  intros h r h' Hc l Hl. inversion Hc; subst. by rewrite lookup_insert_ne.
Qed.

Lemma writes_only_mapM d {A B} (f : A → M B) (l : list A) :
  (∀ a, writes_only d (f a)) → writes_only d (mapM f l).
Proof.
  intros Hf. induction l as [|a l IH]; simpl.
  - apply writes_only_ret.
  - apply writes_only_bind; [apply Hf|]. intros b.
    apply writes_only_bind; [apply IH|]. intros bs. apply writes_only_ret.
Qed.

Lemma writes_only_dict_get d m key : writes_only d (dict_get m key).
Proof.
  unfold dict_get. destruct (m !! key);
    [apply writes_only_ret | apply writes_only_raise].
Qed.

Lemma writes_only_row_get d x name : writes_only d (row_get x name).
Proof.
  unfold row_get. destruct (x !! name);
    [apply writes_only_ret | apply writes_only_raise].
Qed.

Lemma writes_only_df_getitem d l name : writes_only d (df_getitem l name).
Proof.
  apply writes_only_bind; [apply writes_only_get_frame|].
  intros f. apply writes_only_lift.
Qed.

Lemma writes_only_df_setitem d name v : writes_only d (df_setitem d name v).
Proof.
  apply writes_only_bind; [apply writes_only_get_frame|]. intros f.
  cbv zeta.
  destruct (bool_decide _); [apply writes_only_set_frame | apply writes_only_raise].
Qed.

Lemma writes_only_df_groupby_sum d l key col :
  writes_only d (df_groupby_sum l key col).
Proof.
  apply writes_only_bind; [apply writes_only_get_frame|]. intros f.
  apply writes_only_bind; [apply writes_only_lift|]. intros k.
  apply writes_only_bind; [apply writes_only_lift|]. intros v.
  apply writes_only_ret.
Qed.

Create HintDb frame_rules.
#[local] Hint Resolve writes_only_ret writes_only_raise writes_only_lift
  writes_only_get_frame writes_only_get_list writes_only_set_frame
  writes_only_dict_get writes_only_row_get writes_only_df_getitem
  writes_only_df_setitem writes_only_df_groupby_sum : frame_rules.

Ltac frame_step :=
  repeat match goal with
    | |- writes_only _ (bind _ _) => apply writes_only_bind; [|intros ?]
    | |- writes_only _ (match ?x with _ => _ end) => destruct x
    | |- writes_only _ (let _ := _ in _) => cbv zeta
    | |- writes_only _ _ => solve [auto with frame_rules]
    end.

Section EvaluatorFrame.
Context `{ArgSort}.
Variable individual : list Z.
Variable environment : Environment.

Lemma writes_only_df_sort_values d name :
  writes_only d (df_sort_values d name).
Proof. unfold df_sort_values. frame_step. Qed.

Lemma writes_only_get_distance d x :
  writes_only d (get_distance environment x).
Proof. unfold get_distance. frame_step. Qed.

Lemma writes_only_get_distance_penalty d :
  writes_only d (get_distance_penalty environment d).
Proof.
  unfold get_distance_penalty, df_apply.
  apply writes_only_bind; [apply writes_only_df_sort_values|]. intros _.
  frame_step.
  apply writes_only_mapM. intros x. apply writes_only_get_distance.
Qed.

Lemma df_copy_inv (l : loc) (h h1 : heap) (r : exn + loc) :
  df_copy l h = (r, h1) →
  (h1 = h ∧ ∃ e, r = inl e) ∨
  (∃ f, r = inr (fresh (dom h)) ∧ h1 = <[fresh (dom h) := ODataFrame f]> h).
Proof.
  unfold df_copy, bind, get_frame, alloc.
  destruct (h !! l) as [[f|m]|]; intros Hrun; inversion Hrun; eauto.
Qed.

Lemma decode_inv (h h1 : heap) (r : exn + loc) :
  decode individual environment h = (r, h1) →
  (∀ l, l ∈ dom h → h1 !! l = h !! l) ∧
  (∀ d, r = inr d → d = fresh (dom h)).
Proof.
  unfold decode. intros Hrun.
  apply bind_inv in Hrun as [(e & Hrun & ->)|(d & h0 & Hrun & Hrest)].
  - apply df_copy_inv in Hrun as [[-> _]|(f & Hr & _)]; [done|done].
  - apply df_copy_inv in Hrun as [[_ [e He]]|(f & Hr & ->)]; [done|].
    inversion Hr; subst d. clear Hr. split.
    + intros l Hl.
      assert (l ≠ fresh (dom h)) as Hne.
      { intros ->. by apply (is_fresh (dom h)). }
      assert (writes_only (fresh (dom h))
        (do _ <- df_setitem (fresh (dom h)) "chromosomes" (Some <$> individual);
         ret (fresh (dom h)))) as Hw by frame_step.
      etrans; [exact (Hw _ _ _ Hrest l Hne)|]. by rewrite lookup_insert_ne.
    + intros d ->.
      apply bind_inv in Hrest as [(e2 & _ & ?)|(a & h3 & _ & Hret)]; [done|].
      by inversion Hret.
Qed.

(** Every object that is on the heap when the evaluator starts is the
    same when it stops, whether it returns or raises. *)
Lemma fitness_func_frame (h h' : heap) (r : exn + Z) :
  fitness_func individual environment h = (r, h') →
  ∀ l, l ∈ dom h → h' !! l = h !! l.
Proof.
  intros Hrun l Hl. unfold fitness_func in Hrun.
  apply bind_inv in Hrun as [(e & Hrun & _)|(d & h1 & Hrun & Hrest)].
  - by apply decode_inv in Hrun as [Hkeep _]; apply Hkeep.
  - apply decode_inv in Hrun as [Hkeep Hd].
    specialize (Hd d eq_refl). subst d.
    assert (l ≠ fresh (dom h)) as Hne.
    { intros ->. by apply (is_fresh (dom h)). }
    rewrite <- (Hkeep l Hl). clear Hkeep.
    remember (fresh (dom h)) as d eqn:Hd. clear Hd.
    assert (writes_only d
      (do weights <- df_groupby_sum d "chromosomes" "weight";
       do pallet_sums <- df_groupby_sum d "chromosomes" "pallets";
       do distance_penalty <- get_distance_penalty environment d;
       ret (scalar_value
              (scalar_add
                 (scalar_add (abs_deviation_sum max_weight weights)
                             (abs_deviation_sum max_pallets pallet_sums))
                 (Float64 distance_penalty)))))
      as Hw.
    { apply writes_only_bind; [frame_step|]. intros ?.
      apply writes_only_bind; [frame_step|]. intros ?.
      apply writes_only_bind; [apply writes_only_get_distance_penalty|].
      intros ?. apply writes_only_ret. }
    by apply (Hw _ _ _ Hrest).
Qed.
End EvaluatorFrame.

(* --------------------------------------------------------------------- *)
(* Running the table operations on a known frame                         *)
(* --------------------------------------------------------------------- *)

Lemma get_frame_ins (d : loc) (F : frame) (h : heap) :
  get_frame d (<[d := ODataFrame F]> h) = (inr F, <[d := ODataFrame F]> h).
Proof. unfold get_frame. by rewrite lookup_insert_eq. Qed.

Lemma df_getitem_ins (d : loc) (F : frame) (h : heap) name c :
  columns F !! name = Some c →
  df_getitem d name (<[d := ODataFrame F]> h) = (inr c, <[d := ODataFrame F]> h).
Proof.
  intros Hc. unfold df_getitem.
  erewrite bind_inr by apply get_frame_ins. unfold lift, column. by rewrite Hc.
Qed.

Lemma ensure_valid_index_same (F : frame) (k : nat) :
  k = length (index F) → ensure_valid_index F k = F.
Proof.
  intros ->. unfold ensure_valid_index. rewrite bool_decide_eq_false_2; [done|lia].
Qed.

Lemma df_setitem_ins (d : loc) (F : frame) (h : heap) name v :
  length v = length (index F) →
  df_setitem d name v (<[d := ODataFrame F]> h) =
  (inr tt, <[d := ODataFrame (Frame (index F) (<[name := v]> (columns F)))]> h).
Proof.
  intros Hlen. unfold df_setitem.
  erewrite bind_inr by apply get_frame_ins.
  rewrite ensure_valid_index_same by done.
  rewrite bool_decide_eq_true_2 by done.
  unfold set_frame. by rewrite insert_insert_eq.
Qed.

Lemma df_groupby_sum_ins (d : loc) (F : frame) (h : heap) key col k v :
  columns F !! key = Some k → columns F !! col = Some v →
  df_groupby_sum d key col (<[d := ODataFrame F]> h) =
  (inr (is_float v, groupby_sum k v), <[d := ODataFrame F]> h).
Proof.
  intros Hk Hv. unfold df_groupby_sum.
  erewrite bind_inr by apply get_frame_ins.
  unfold bind, lift, column. by rewrite Hk, Hv.
Qed.

Lemma df_sort_values_ins `{ArgSort} (d : loc) (F : frame) (h : heap) name k :
  columns F !! name = Some k →
  df_sort_values d name (<[d := ODataFrame F]> h) =
  (inr tt, <[d := ODataFrame (Frame (ndtake (nargsort k) (index F))
                                    (ndtake (nargsort k) <$> columns F))]> h).
Proof.
  intros Hk. unfold df_sort_values.
  erewrite bind_inr by apply get_frame_ins.
  unfold bind, lift, column. rewrite Hk.
  unfold set_frame. by rewrite insert_insert_eq.
Qed.

Lemma frame_at_insert_ne (h : heap) (d l : loc) (o : obj) :
  d ≠ l → frame_at (<[d := o]> h) l = frame_at h l.
Proof. intros Hne. unfold frame_at. by rewrite lookup_insert_ne. Qed.

Lemma list_at_insert_ne (h : heap) (d l : loc) (o : obj) :
  d ≠ l → list_at (<[d := o]> h) l = list_at h l.
Proof. intros Hne. unfold list_at. by rewrite lookup_insert_ne. Qed.

Lemma frame_at_dom (h : heap) (l : loc) (f : frame) :
  frame_at h l = Some f → l ∈ dom h.
Proof.
  unfold frame_at. intros Hf. apply elem_of_dom.
  destruct (h !! l); [eauto|done].
Qed.

Lemma list_at_dom (h : heap) (l : loc) (m : list (list Z)) :
  list_at h l = Some m → l ∈ dom h.
Proof.
  unfold list_at. intros Hf. apply elem_of_dom.
  destruct (h !! l); [eauto|done].
Qed.

(** The tables are read the same from any heap that agrees with [h] on
    the objects of [h]. *)
Lemma env_tables_agree (h h' : heap) (e : Environment) (t : tables) :
  (∀ l, l ∈ dom h → h' !! l = h !! l) →
  env_tables h e = Some t → env_tables h' e = Some t.
Proof.
  intros Hagree. unfold env_tables.
  destruct (_dict e !! "zip_lookup") as [ll|]; simpl; [|done].
  destruct (frame_at h ll) as [lf|] eqn:Hlf; simpl; [|done].
  assert (frame_at h' ll = Some lf) as ->.
  { unfold frame_at in *. rewrite Hagree; [done|]. by eapply frame_at_dom. }
  simpl. destruct (columns lf !! "zipcode"); simpl; [|done].
  destruct (columns lf !! "position"); simpl; [|done].
  destruct (_dict e !! "distance_matrix") as [ml|]; simpl; [|done].
  destruct (list_at h ml) as [m|] eqn:Hm; simpl; [|done].
  assert (list_at h' ml = Some m) as ->; [|done].
  unfold list_at in *. rewrite Hagree; [done|]. by eapply list_at_dom.
Qed.

Lemma env_records_agree (h h' : heap) (e : Environment) zs ws ps :
  (∀ l, l ∈ dom h → h' !! l = h !! l) →
  env_records h e = Some (zs, ws, ps) → env_records h' e = Some (zs, ws, ps).
Proof.
  intros Hagree. unfold env_records.
  destruct (frame_at h (df e)) as [f|] eqn:Hf; simpl; [|done].
  assert (frame_at h' (df e) = Some f) as ->; [|done].
  unfold frame_at in *. rewrite Hagree; [done|]. by eapply frame_at_dom.
Qed.

Lemma get_distance_run (e : Environment) (t : tables) (h : heap) (x : row)
    (c pc z pz : cell) :
  env_tables h e = Some t →
  x !! "zipcode" = Some z → x !! "prev_zip" = Some pz →
  x !! "chromosomes" = Some c → x !! "prev_chromosomes" = Some pc →
  get_distance e x h = (row_leg (float_tables t) c pc z pz, h).
Proof.
  intros Ht Hz Hpz Hc Hpc. unfold env_tables in Ht.
  destruct (_dict e !! "zip_lookup") as [ll|] eqn:Hll; simpl in Ht; [|done].
  destruct (frame_at h ll) as [lf|] eqn:Hlf; simpl in Ht; [|done].
  destruct (columns lf !! "zipcode") as [kz|] eqn:Hkz; simpl in Ht; [|done].
  destruct (columns lf !! "position") as [kp|] eqn:Hkp; simpl in Ht; [|done].
  destruct (_dict e !! "distance_matrix") as [ml|] eqn:Hml; simpl in Ht; [|done].
  destruct (list_at h ml) as [m|] eqn:Hm; simpl in Ht; [|done].
  inversion Ht; subst t. clear Ht.
  assert (h !! ll = Some (ODataFrame lf)) as Hhl.
  { unfold frame_at in Hlf. destruct (h !! ll) as [[?|?]|]; by inversion Hlf. }
  assert (h !! ml = Some (OList m)) as Hhm.
  { unfold list_at in Hm. destruct (h !! ml) as [[?|?]|]; by inversion Hm. }
  unfold get_distance, row_leg, row_get, bind, ret.
  rewrite Hz. destruct z as [zip|]; [|done].
  rewrite Hpz. destruct pz as [pzip|]; [|done].
  rewrite Hc, Hpc. destruct (cell_ne c pc); [done|].
  unfold dict_get, ret, df_getitem, bind, get_frame, lift, column, get_list,
    stop_distance, ebind. simpl.
  rewrite Hll, Hhl, Hkz. simpl. rewrite Hhl, Hkp. simpl.
  destruct (loc_first (to_float kz) kp pzip) as [?|oc]; [done|].
  destruct (loc_first (to_float kz) kp zip) as [?|dc]; [done|].
  rewrite Hml, Hhm.
  destruct (as_index kp oc) as [?|oi]; [done|].
  destruct (py_getitem m oi) as [?|mr]; [done|].
  destruct (as_index kp dc) as [?|di]; [done|].
  by destruct (py_getitem mr di).
Qed.

(* --------------------------------------------------------------------- *)
(* int64 and float64                                                     *)
(* --------------------------------------------------------------------- *)

Lemma wrap64_small (z : Z) : - 2 ^ 63 ≤ z < 2 ^ 63 → wrap64 z = z.
Proof. intros Hz. unfold wrap64. rewrite Z.mod_small; lia. Qed.

Lemma abs64_small (z : Z) : Z.abs z < 2 ^ 63 → abs64 z = Z.abs z.
Proof. intros Hz. unfold abs64. apply wrap64_small. lia. Qed.

Lemma f64_small (z : Z) : Z.abs z ≤ 2 ^ 53 → f64 z = z.
Proof.
  intros Hz. unfold f64. cbv zeta.
  destruct (Z.leb_spec (Z.abs z) (2 ^ 53)); [done|lia].
Qed.

Lemma round_half_even_range (a b : Z) :
  a / b ≤ round_half_even a b ≤ a / b + 1.
Proof.
  unfold round_half_even. cbv zeta.
  destruct (2 * (a mod b) <? b); [lia|].
  destruct (b <? 2 * (a mod b)); [lia|].
  destruct (Z.even (a / b)); lia.
Qed.

Lemma round_half_even_multiple (m b : Z) :
  0 < b → round_half_even (b * m) b = m.
Proof.
  intros Hb. unfold round_half_even. cbv zeta.
  rewrite (Z.mul_comm b m), Z.mod_mul, Z.div_mul by lia.
  destruct (Z.ltb_spec (2 * 0) b); [done|lia].
Qed.

(** Beyond 2^53 a float64 is a number of 53 bits times a power of two. *)
Lemma f64_large (a : Z) :
  2 ^ 53 < a →
  ∃ k m, 1 ≤ k ∧ 2 ^ 52 ≤ m ≤ 2 ^ 53 ∧ f64 a = 2 ^ k * m.
Proof.
  intros Ha. unfold f64. cbv zeta.
  rewrite (Z.abs_eq a) by lia.
  destruct (Z.leb_spec a (2 ^ 53)); [lia|].
  assert (53 ≤ Z.log2 a) as He.
  { apply Z.log2_le_pow2; lia. }
  destruct (Z.log2_spec a) as [Hlo Hhi]; [lia|].
  set (e := Z.log2 a) in *.
  exists (e - 52), (round_half_even a (2 ^ (e - 52))).
  assert (0 < 2 ^ (e - 52)) as Hu by (apply Z.pow_pos_nonneg; lia).
  assert (2 ^ e = 2 ^ (e - 52) * 2 ^ 52) as He1.
  { rewrite <- Z.pow_add_r by lia. f_equal. lia. }
  assert (2 ^ Z.succ e = 2 ^ (e - 52) * 2 ^ 53) as He2.
  { rewrite <- Z.pow_add_r by lia. f_equal. lia. }
  pose proof (round_half_even_range a (2 ^ (e - 52))) as Hr.
  assert (2 ^ 52 ≤ a / 2 ^ (e - 52)) as Hq1.
  { apply Z.div_le_lower_bound; lia. }
  assert (a / 2 ^ (e - 52) < 2 ^ 53) as Hq2.
  { apply Z.div_lt_upper_bound; lia. }
  split; [lia|]. split; [lia|].
  rewrite Z.sgn_pos by lia. lia.
Qed.

Lemma f64_fixed (k m : Z) :
  0 ≤ k → 2 ^ 52 ≤ m ≤ 2 ^ 53 → f64 (2 ^ k * m) = 2 ^ k * m.
Proof.
  intros Hk Hm.
  assert (0 < 2 ^ k) as Hu by (apply Z.pow_pos_nonneg; lia).
  unfold f64. cbv zeta.
  assert (0 < 2 ^ k * m) as Hpos by nia.
  rewrite (Z.abs_eq (2 ^ k * m)) by lia.
  destruct (Z.leb_spec (2 ^ k * m) (2 ^ 53)); [done|].
  rewrite Z.sgn_pos by lia. rewrite Z.mul_1_l.
  destruct (decide (m = 2 ^ 53)) as [->|Hne].
  - assert (2 ^ k * 2 ^ 53 = 2 ^ (k + 53)) as Hx
      by (rewrite Z.pow_add_r by lia; done).
    rewrite Hx, Z.log2_pow2 by lia.
    replace (k + 53 - 52) with (k + 1) by lia.
    assert (2 ^ (k + 53) = 2 ^ (k + 1) * 2 ^ 52) as ->.
    { rewrite <- Z.pow_add_r by lia. f_equal. lia. }
    rewrite round_half_even_multiple; [done|]. apply Z.pow_pos_nonneg; lia.
  - assert (Z.log2 (2 ^ k * m) = k + 52) as ->.
    { apply Z.log2_unique; [lia|]. split.
      - rewrite Z.pow_add_r by lia. nia.
      - replace (Z.succ (k + 52)) with (k + 53) by lia.
        rewrite Z.pow_add_r by lia. nia. }
    replace (k + 52 - 52) with k by lia.
    by rewrite round_half_even_multiple.
Qed.

Lemma f64_opp (z : Z) : f64 (- z) = - f64 z.
Proof.
  unfold f64. cbv zeta. rewrite Z.abs_opp.
  destruct (Z.abs z <=? 2 ^ 53); [done|].
  rewrite Z.sgn_opp. lia.
Qed.

Lemma f64_idem_pos (a : Z) : 0 ≤ a → f64 (f64 a) = f64 a.
Proof.
  intros Ha. destruct (decide (a ≤ 2 ^ 53)) as [Hs|Hl].
  - rewrite (f64_small a) by lia. apply f64_small. lia.
  - destruct (f64_large a) as (k & m & Hk & Hm & ->); [lia|].
    apply f64_fixed; lia.
Qed.

(** A float64 stays what it is when it is converted again. *)
Lemma f64_idem (z : Z) : f64 (f64 z) = f64 z.
Proof.
  destruct (decide (0 ≤ z)) as [Hz|Hz]; [by apply f64_idem_pos|].
  assert (f64 z = - f64 (- z)) as -> by (rewrite f64_opp; lia).
  rewrite (f64_opp (f64 (- z))), f64_idem_pos; lia.
Qed.

Lemma f64_nonneg (z : Z) : 0 ≤ z → 0 ≤ f64 z.
Proof.
  intros Hz. destruct (decide (z ≤ 2 ^ 53)) as [Hs|Hl].
  - rewrite f64_small; lia.
  - destruct (f64_large z) as (k & m & Hk & Hm & ->); [lia|].
    assert (0 < 2 ^ k) by (apply Z.pow_pos_nonneg; lia). nia.
Qed.

Lemma to_float_idem (c : list cell) : to_float (to_float c) = to_float c.
Proof.
  unfold to_float. rewrite <- list_fmap_compose. apply list_fmap_ext.
  intros i [z|] _; simpl; [|done]. by rewrite f64_idem.
Qed.

Lemma length_to_float (c : list cell) : length (to_float c) = length c.
Proof. apply length_fmap. Qed.


Lemma is_float_to_float (c : list cell) : is_float (to_float c) = is_float c.
Proof.
  unfold is_float, to_float. induction c as [|[z|] c IH]; simpl; [done|done|done].
Qed.

Lemma to_float_small (c : list cell) :
  forallb small c = true → to_float c = c.
Proof.
  induction c as [|[z|] c IH]; simpl; [done|..].
  - intros [Hz Hc]%andb_true_iff. rewrite (IH Hc).
    apply Z.leb_le in Hz. unfold to_float. simpl.
    by rewrite (f64_small z Hz).
  - intros Hc. unfold to_float in *. simpl. by rewrite (IH Hc).
Qed.

Lemma to_float_cons (x : cell) (c : list cell) :
  to_float (x :: c) = (f64 <$> x) :: to_float c.
Proof. reflexivity. Qed.

Lemma series_sum_cons (x : cell) (c : list cell) :
  series_sum (x :: c) = default 0 x + series_sum c.
Proof. reflexivity. Qed.

Lemma series_sum_to_float_nonneg (c : list cell) :
  Forall (λ x, ∀ v, x = Some v → 0 ≤ v) c → 0 ≤ series_sum (to_float c).
Proof.
  induction 1 as [|x c Hz Hc IH]; [done|].
  rewrite to_float_cons, series_sum_cons. destruct x as [z|]; simpl; [|lia].
  pose proof (f64_nonneg z (Hz z eq_refl)). lia.
Qed.

(* --------------------------------------------------------------------- *)
(* Lists: taking along a permutation, shifting, the distance column      *)
(* --------------------------------------------------------------------- *)

Lemma length_ndtake {A} (p : list nat) (l : list A) :
  (∀ i, i ∈ p → (i < length l)%nat) → length (ndtake p l) = length p.
Proof.
  unfold ndtake. induction p as [|i p IH]; intros Hp; simpl; [done|].
  destruct (lookup_lt_is_Some_2 l i) as [x Hx]; [apply Hp; by left|].
  rewrite Hx. simpl. f_equal. apply IH. intros j Hj. apply Hp. by right.
Qed.

Lemma ndtake_seq (p : list nat) (k : nat) :
  (∀ i, i ∈ p → (i < k)%nat) → ndtake p (seq 0 k) = p.
Proof.
  unfold ndtake. induction p as [|i p IH]; intros Hp; simpl; [done|].
  rewrite lookup_seq_lt by (apply Hp; by left). simpl. f_equal.
  apply IH. intros j Hj. apply Hp. by right.
Qed.

Lemma argsort_lt `{ArgSort} (l : list Z) (i : nat) :
  i ∈ argsort l → (i < length l)%nat.
Proof.
  rewrite (argsort_perm l). rewrite elem_of_seq. lia.
Qed.

Lemma length_argsort `{ArgSort} (l : list Z) : length (argsort l) = length l.
Proof. by rewrite (argsort_perm l), length_seq. Qed.

Lemma omap_id_Some (l : list Z) : omap id (Some <$> l) = l.
Proof. induction l as [|x l IH]; csimpl; [done|]. by rewrite IH. Qed.

Lemma positions_Some_nonnull (l : list Z) (i : nat) :
  positions (λ c, negb (isnull c)) (Some <$> l) i = seq i (length l).
Proof.
  revert i. induction l as [|x l IH]; intros i; simpl; [done|]. by rewrite IH.
Qed.

Lemma positions_Some_null (l : list Z) (i : nat) :
  positions isnull (Some <$> l) i = [].
Proof. revert i. induction l as [|x l IH]; intros i; simpl; [done|]. apply IH. Qed.

(** On a key column without NaN, nargsort is the sorting routine itself. *)
Lemma nargsort_Some `{ArgSort} (l : list Z) :
  nargsort (Some <$> l) = argsort l.
Proof.
  unfold nargsort. cbv zeta.
  rewrite omap_id_Some, positions_Some_nonnull, positions_Some_null, app_nil_r.
  apply ndtake_seq. intros i. apply argsort_lt.
Qed.

Lemma length_shift (s : list cell) : length (shift s) = length s.
Proof.
  destruct s as [|x s]; [done|]. unfold shift.
  cbn [length]. rewrite removelast_firstn_len, length_take, length_to_float.
  cbn [length]. lia.
Qed.

Lemma removelast_fmap {A B} (f : A → B) (l : list A) :
  removelast (f <$> l) = f <$> removelast l.
Proof.
  induction l as [|x l IH]; [done|].
  destruct l as [|y l]; [done|]. cbn [fmap list_fmap removelast] in *.
  by rewrite IH.
Qed.

(** A shifted column is a float64 column already. *)
Lemma to_float_shift (s : list cell) : to_float (shift s) = shift s.
Proof.
  destruct s as [|x s]; [done|]. unfold shift.
  rewrite to_float_cons. f_equal. unfold to_float at 1 2.
  rewrite <- removelast_fmap. fold (to_float (x :: s)).
  fold (to_float (to_float (x :: s))). by rewrite to_float_idem.
Qed.

Lemma is_float_shift (s : list cell) : s ≠ [] → is_float (shift s) = true.
Proof. by destruct s. Qed.

Lemma length_result_series (ds : list cell) :
  length (result_series ds) = length ds.
Proof. unfold result_series. destruct (is_float ds); [apply length_to_float|done]. Qed.

(** The rows that df.apply hands out are float64 as soon as a shifted
    column is among the columns. *)
Lemma rows_df_values (F : frame) (name : string) (s : list cell) :
  columns F !! name = Some (shift s) → length s = length (index F) →
  rows (df_values F) = rows (Frame (index F) (to_float <$> columns F)).
Proof.
  intros Hs Hlen. unfold df_values. case_bool_decide as Hall; [|done].
  destruct s as [|x s].
  - unfold rows. cbn [index length] in *. by rewrite <- Hlen.
  - specialize (Hall name _ Hs). change (true = false) in Hall. done.
Qed.

Lemma length_legs (t : tables) (cs pcs zs pzs ds : list cell) :
  length pcs = length cs → length zs = length cs → length pzs = length cs →
  legs t cs pcs zs pzs = inr ds → length ds = length cs.
Proof.
  revert pcs zs pzs ds.
  induction cs as [|c cs IH]; intros pcs zs pzs ds Hp Hz Hpz; simpl.
  - intros Hd. by inversion Hd.
  - destruct pcs as [|pc pcs]; [done|]. destruct zs as [|z zs]; [done|].
    destruct pzs as [|pz pzs]; [done|].
    destruct (row_leg t c pc z pz) as [?|d]; simpl; [done|].
    destruct (legs t cs pcs zs pzs) as [?|ds'] eqn:Hl; simpl; [done|].
    intros Hd. inversion Hd; subst ds. simpl. f_equal.
    eapply IH; [..|exact Hl]; simpl in *; lia.
Qed.

Lemma mapM_pure {A B} (f : A → M B) (g : A → exn + B) (h : heap) (l : list A) :
  (∀ a, a ∈ l → f a h = (g a, h)) →
  mapM f l h =
  (foldr (λ a acc, ebind (g a) (λ b, ebind acc (λ bs, inr (b :: bs)))) (inr []) l, h).
Proof.
  induction l as [|a l IH]; intros Hf; simpl; [done|].
  unfold bind. rewrite (Hf a) by left.
  destruct (g a) as [?|b]; simpl; [done|].
  rewrite IH by (intros a' Ha'; apply Hf; by right).
  by destruct (foldr _ _ l).
Qed.

(** The rows of a frame that holds the four columns get_distance reads
    give, row by row, the distance column. *)
Lemma legs_rows (t : tables) (cols : gmap string (list cell))
    (cs pcs zs pzs : list cell) (a m : nat) :
  cols !! "chromosomes" = Some cs → cols !! "prev_chromosomes" = Some pcs →
  cols !! "zipcode" = Some zs → cols !! "prev_zip" = Some pzs →
  length pcs = length cs → length zs = length cs → length pzs = length cs →
  (a + m)%nat = length cs →
  foldr (λ x acc,
      ebind (row_leg t (default None (x !! "chromosomes"))
                       (default None (x !! "prev_chromosomes"))
                       (default None (x !! "zipcode"))
                       (default None (x !! "prev_zip")))
        (λ b, ebind acc (λ bs, inr (b :: bs))))
    (inr []) (map (λ i, omap (λ c : list cell, c !! i) cols) (seq a m))
  = legs t (drop a cs) (drop a pcs) (drop a zs) (drop a pzs).
Proof.
  intros Hc Hpc Hz Hpz Lp Lz Lpz. revert a.
  induction m as [|m IH]; intros a Ham; simpl.
  - rewrite (drop_ge cs) by lia. done.
  - destruct (lookup_lt_is_Some_2 cs a) as [c Hca]; [lia|].
    destruct (lookup_lt_is_Some_2 pcs a) as [pc Hpca]; [lia|].
    destruct (lookup_lt_is_Some_2 zs a) as [z Hza]; [lia|].
    destruct (lookup_lt_is_Some_2 pzs a) as [pz Hpza]; [lia|].
    rewrite (drop_S _ _ _ Hca), (drop_S _ _ _ Hpca),
      (drop_S _ _ _ Hza), (drop_S _ _ _ Hpza). simpl.
    rewrite !lookup_omap, Hc, Hpc, Hz, Hpz. cbn [mbind option_bind].
    rewrite Hca, Hpca, Hza, Hpza. cbn [default].
    rewrite IH by lia. done.
Qed.

(* --------------------------------------------------------------------- *)
(* The evaluator computes [score]                                        *)
(* --------------------------------------------------------------------- *)

Lemma ensure_valid_index_columns (f : frame) (k : nat) (name : string) :
  columns (ensure_valid_index f k) !! name
  = reindexed (length (index f)) k <$> (columns f !! name).
Proof.
  unfold ensure_valid_index, reindexed. case_bool_decide; simpl.
  - by rewrite lookup_fmap.
  - by destruct (columns f !! name).
Qed.

Lemma ensure_valid_index_length (f : frame) (k : nat) :
  k = length (index f) ∨ (length (index f) = 0%nat ∧ (0 < k)%nat) →
  length (index (ensure_valid_index f k)) = k.
Proof.
  intros Hk. unfold ensure_valid_index. case_bool_decide; simpl.
  - by rewrite length_seq.
  - lia.
Qed.

Lemma length_reindexed (n k : nat) (c : list cell) :
  length c = n → k = n ∨ (n = 0%nat ∧ (0 < k)%nat) →
  length (reindexed n k c) = k.
Proof.
  intros Hc Hk. unfold reindexed. case_bool_decide.
  - by rewrite length_replicate.
  - lia.
Qed.

Section EvaluatorRun.
Context `{ArgSort}.
Variable individual : list Z.
Variable environment : Environment.
Variable t : tables.
Variable h : heap.
Variable d : loc.
Hypothesis tables_kept :
  ∀ F, env_tables (<[d := ODataFrame F]> h) environment = Some t.

Lemma get_distance_penalty_run (F : frame) (zs : list cell) :
  columns F !! "chromosomes" = Some (Some <$> individual) →
  columns F !! "zipcode" = Some zs →
  length (index F) = length individual →
  length zs = length individual →
  let p := nargsort (Some <$> individual) in
  let cs' := ndtake p (Some <$> individual) in
  let zs' := ndtake p zs in
  let sorted :=
    <["prev_chromosomes" := shift cs']>
      (<["prev_zip" := shift zs']> (ndtake p <$> columns F)) in
  let distance :=
    legs (float_tables t) (to_float cs') (shift cs') (to_float zs') (shift zs') in
  get_distance_penalty environment d (<[d := ODataFrame F]> h) =
  (ebind distance (λ ds, inr (series_sum (result_series ds))),
   <[d := ODataFrame
           (Frame (ndtake p (index F))
              match distance with
              | inr ds => <["distance" := result_series ds]> sorted
              | inl _ => sorted
              end)]> h).
Proof.
  intros Hc Hz Hidx Hzs.
  set (cs := Some <$> individual) in *.
  intros p cs' zs' cols distance.
  assert (∀ i, i ∈ p → (i < length individual)%nat) as Hp.
  { intros i. unfold p, cs. rewrite nargsort_Some. apply argsort_lt. }
  assert (length p = length individual) as Hlp.
  { unfold p, cs. rewrite nargsort_Some. apply length_argsort. }
  assert (length cs = length individual) as Hlcs by apply length_fmap.
  assert (length cs' = length individual) as Hlc'.
  { unfold cs'. rewrite length_ndtake; [done|]. by rewrite Hlcs. }
  assert (length zs' = length individual) as Hlz'.
  { unfold zs'. rewrite length_ndtake; [done|]. by rewrite Hzs. }
  assert (length (ndtake p (index F)) = length individual) as Hli'.
  { rewrite length_ndtake; [done|]. by rewrite Hidx. }
  unfold get_distance_penalty.
  erewrite bind_inr by (by apply df_sort_values_ins).
  fold p.
  erewrite bind_inr
    by (apply df_getitem_ins; cbn [columns]; by rewrite lookup_fmap, Hz).
  fold zs'.
  erewrite bind_inr
    by (apply df_setitem_ins; cbn [index]; by rewrite length_shift, Hlz', Hli').
  cbn [index columns].
  erewrite bind_inr
    by (apply df_getitem_ins; cbn [columns];
        rewrite lookup_insert_ne by done; by rewrite lookup_fmap, Hc).
  fold cs'.
  erewrite bind_inr
    by (apply df_setitem_ins; cbn [index]; by rewrite length_shift, Hlc', Hli').
  cbn [index columns]. fold cols.
  assert (cols !! "chromosomes" = Some cs') as Hc1.
  { unfold cols. rewrite !lookup_insert_ne by done. by rewrite lookup_fmap, Hc. }
  assert (cols !! "prev_chromosomes" = Some (shift cs')) as Hc2.
  { unfold cols. by rewrite lookup_insert_eq. }
  assert (cols !! "zipcode" = Some zs') as Hc3.
  { unfold cols. rewrite !lookup_insert_ne by done. by rewrite lookup_fmap, Hz. }
  assert (cols !! "prev_zip" = Some (shift zs')) as Hc4.
  { unfold cols. rewrite lookup_insert_ne by done. by rewrite lookup_insert_eq. }
  set (fcols := to_float <$> cols).
  assert (fcols !! "chromosomes" = Some (to_float cs')) as Hf1.
  { unfold fcols. by rewrite lookup_fmap, Hc1. }
  assert (fcols !! "prev_chromosomes" = Some (shift cs')) as Hf2.
  { unfold fcols. rewrite lookup_fmap, Hc2. simpl. by rewrite to_float_shift. }
  assert (fcols !! "zipcode" = Some (to_float zs')) as Hf3.
  { unfold fcols. by rewrite lookup_fmap, Hc3. }
  assert (fcols !! "prev_zip" = Some (shift zs')) as Hf4.
  { unfold fcols. rewrite lookup_fmap, Hc4. simpl. by rewrite to_float_shift. }
  assert (df_apply d (get_distance environment)
            (<[d:=ODataFrame {| index := ndtake p (index F); columns := cols |}]> h)
          = (ebind distance (λ ds, inr (result_series ds)),
             <[d:=ODataFrame {| index := ndtake p (index F); columns := cols |}]> h))
    as Happly.
  { unfold df_apply.
    erewrite bind_inr by apply get_frame_ins.
    rewrite (rows_df_values _ "prev_zip" zs') by (cbn [index columns]; first [exact Hc4 | lia]).
    unfold rows. cbn [index columns]. fold fcols.
    unfold bind at 1.
    rewrite (mapM_pure _ (λ x, row_leg (float_tables t)
                     (default None (x !! "chromosomes"))
                     (default None (x !! "prev_chromosomes"))
                     (default None (x !! "zipcode"))
                     (default None (x !! "prev_zip")))).
    - rewrite Hli'.
      rewrite (legs_rows (float_tables t) fcols (to_float cs') (shift cs')
        (to_float zs') (shift zs') 0 (length individual));
        rewrite ?length_shift, ?length_to_float; try done; try lia.
      rewrite !drop_0. fold distance. by destruct distance.
    - intros x Hx. apply list_elem_of_fmap in Hx as (i & -> & Hi).
      apply elem_of_seq in Hi.
      destruct (lookup_lt_is_Some_2 (to_float cs') i) as [c Hci];
        [rewrite length_to_float; lia|].
      destruct (lookup_lt_is_Some_2 (shift cs') i) as [pc Hpci];
        [rewrite length_shift; lia|].
      destruct (lookup_lt_is_Some_2 (to_float zs') i) as [z Hzi];
        [rewrite length_to_float; lia|].
      destruct (lookup_lt_is_Some_2 (shift zs') i) as [pz Hpzi];
        [rewrite length_shift; lia|].
      rewrite !lookup_omap, Hf1, Hf2, Hf3, Hf4. cbn [mbind option_bind].
      rewrite Hci, Hpci, Hzi, Hpzi. cbn [default].
      apply get_distance_run; [apply tables_kept|..];
        rewrite lookup_omap; [rewrite Hf3|rewrite Hf4|rewrite Hf1|rewrite Hf2];
        done. }
  destruct distance as [err|ds] eqn:Hlegs.
  - erewrite bind_inl by exact Happly. reflexivity.
  - erewrite bind_inr by exact Happly.
    apply length_legs in Hlegs as Hlds;
      rewrite ?length_shift, ?length_to_float; try lia.
    rewrite length_to_float in Hlds.
    erewrite bind_inr
      by (apply df_setitem_ins; cbn [index];
          by rewrite length_result_series, Hlds, Hlc', Hli').
    erewrite bind_inr
      by (apply df_getitem_ins; cbn [columns]; by rewrite lookup_insert_eq).
    reflexivity.
Qed.
End EvaluatorRun.

Section EvaluatorScore.
Context `{ArgSort}.
Variable individual : list Z.
Variable environment : Environment.

(** On a heap that holds the environment, the evaluator returns or
    raises what [score] says, and leaves its working table at a fresh
    reference. *)
Lemma fitness_func_run_frame (h : heap) (f : frame) (zs ws ps : list cell)
    (t : tables) :
  env_ok h environment zs ws ps t →
  frame_at h (df environment) = Some f →
  fitness_func individual environment h
  = (score individual (length zs) zs ws ps t,
     <[fresh (dom h) := ODataFrame
        (if bool_decide (length individual = length zs
                         ∨ (length zs = 0%nat ∧ (0 < length individual)%nat))
         then evaluated_frame individual f zs t else f)]> h).
Proof.
  intros [Hrec Htab] Hf. unfold env_records in Hrec.
  rewrite Hf in Hrec. simpl in Hrec.
  destruct (columns f !! "zipcode") as [zs0|] eqn:Hz; simpl in Hrec; [|done].
  destruct (columns f !! "weight") as [ws0|] eqn:Hw; simpl in Hrec; [|done].
  destruct (columns f !! "pallets") as [ps0|] eqn:Hp; simpl in Hrec; [|done].
  case_bool_decide as Hlen; [|done]. inversion Hrec; subst zs0 ws0 ps0.
  clear Hrec. destruct Hlen as (Lz & Lw & Lp).
  assert (h !! df environment = Some (ODataFrame f)) as Hdf.
  { unfold frame_at in Hf. destruct (h !! df environment) as [[?|?]|]; by inversion Hf. }
  set (d := fresh (dom h)).
  assert (∀ F, env_tables (<[d := ODataFrame F]> h) environment = Some t) as Hkept.
  { intros F. apply (env_tables_agree h); [|done].
    intros l Hl. apply lookup_insert_ne. intros <-. by apply (is_fresh (dom h)). }
  set (k := length individual). set (n := length zs).
  unfold fitness_func, decode, df_copy.
  assert (get_frame (df environment) h = (inr f, h)) as Hget.
  { unfold get_frame. by rewrite Hdf. }
  unfold score. fold k.
  case_bool_decide as Hk.
  - assert (length (Some <$> individual) = length (index f)
            ∨ (length (index f) = 0%nat ∧ (0 < length (Some <$> individual))%nat))
      as Hk'.
    { rewrite length_fmap. fold k. rewrite <- Lz. fold n. lia. }
    erewrite bind_inr; cycle 1.
    { erewrite bind_inr; cycle 1.
      { erewrite bind_inr by exact Hget. unfold alloc. fold d. reflexivity. }
      erewrite bind_inr; [reflexivity|].
      unfold df_setitem. erewrite bind_inr by apply get_frame_ins.
      cbv zeta. rewrite (ensure_valid_index_length _ _ Hk').
      rewrite bool_decide_eq_true_2 by done.
      unfold set_frame. rewrite insert_insert_eq. reflexivity. }
    rewrite length_fmap. fold k. fold (decoded_frame individual f).
    set (F1 := decoded_frame individual f).
    assert (columns F1 !! "chromosomes" = Some (Some <$> individual)) as Hc1.
    { unfold F1, decoded_frame. cbn [columns]. by rewrite lookup_insert_eq. }
    assert (length (index F1) = k) as Hi1.
    { unfold F1, decoded_frame. cbn [index].
      rewrite length_fmap in Hk'. by rewrite (ensure_valid_index_length _ _ Hk'). }
    assert (∀ name c, name ≠ "chromosomes" → columns f !! name = Some c →
              columns F1 !! name = Some (reindexed n k c)) as Hcol.
    { intros name c Hne Hc. unfold F1, decoded_frame. cbn [columns].
      rewrite lookup_insert_ne by done.
      rewrite ensure_valid_index_columns, Hc. simpl.
      by rewrite <- Lz. }
    erewrite bind_inr
      by (apply df_groupby_sum_ins; [exact Hc1|by apply Hcol]).
    erewrite bind_inr
      by (apply df_groupby_sum_ins; [exact Hc1|by apply Hcol]).
    pose proof (get_distance_penalty_run individual environment t h d Hkept F1
                  (reindexed n k zs) Hc1) as HF'.
    specialize (HF' ltac:(by apply Hcol) Hi1
                  ltac:(apply length_reindexed; [done|]; fold n k in Hk; lia)).
    cbv zeta in HF'.
    unfold evaluated_frame. cbv zeta. fold F1. fold k.
    rewrite <- Lz. fold n. revert HF'.
    destruct (legs (float_tables t) _ _ _ _) as [err|ds]; intros HF'.
    + erewrite bind_inl by exact HF'. reflexivity.
    + erewrite bind_inr by exact HF'. reflexivity.
  - erewrite bind_inl; [reflexivity|].
    erewrite bind_inr; cycle 1.
    { erewrite bind_inr by exact Hget. unfold alloc. fold d. reflexivity. }
    erewrite bind_inl; [reflexivity|].
    unfold df_setitem. erewrite bind_inr by apply get_frame_ins.
    cbv zeta. unfold ensure_valid_index. rewrite length_fmap.
    unfold k, n in *.
    rewrite (bool_decide_eq_false_2 (_ ∧ _)) by lia.
    rewrite bool_decide_eq_false_2 by lia.
    reflexivity.
Qed.

Lemma fitness_func_run (h : heap) (zs ws ps : list cell) (t : tables) :
  env_ok h environment zs ws ps t →
  ∃ h', fitness_func individual environment h
        = (score individual (length zs) zs ws ps t, h').
Proof.
  intros Hok.
  destruct (frame_at h (df environment)) as [f|] eqn:Hf.
  - eexists. by apply (fitness_func_run_frame h f).
  - destruct Hok as [Hrec _]. unfold env_records in Hrec.
    by rewrite Hf in Hrec.
Qed.
End EvaluatorScore.

(* --------------------------------------------------------------------- *)
(* The evaluator and its environment                                     *)
(* --------------------------------------------------------------------- *)

(** C6.  The evaluator is side-effect-free with respect to the
    environment: whatever the individual, and whether the evaluator
    returns or raises, every object that was on the heap before the call
    is unchanged after it, so the demand records, the lookup table and
    the distance matrix read the same.  The evaluator works on a copy of
    the demand table, allocated at a fresh reference. *)
Theorem fitness_func_keeps_environment `{ArgSort}
    (individual : list Z) (environment : Environment) (h h' : heap)
    (r : exn + Z) (zs ws ps : list cell) (t : tables) :
  env_ok h environment zs ws ps t →
  fitness_func individual environment h = (r, h') →
  env_ok h' environment zs ws ps t ∧ (∀ l, l ∈ dom h → h' !! l = h !! l).
Proof.
  intros [Hrec Htab] Hrun.
  pose proof (fitness_func_frame individual environment h h' r Hrun) as Hkeep.
  split; [split|done].
  - by apply (env_records_agree h).
  - by apply (env_tables_agree h).
Qed.

Lemma fitness_func_keeps_environment_witness :
  env_ok Example.heap0 Example.environment Example.zipcodes Example.weights
    Example.pallet_counts Example.tables0
  ∧ ∀ l, l ∈ dom Example.heap0 →
      (fitness_func (H:=stable_sorting) [1; 0; 1; 0] Example.environment
         Example.heap0).2 !! l = Example.heap0 !! l.
Proof.
  assert (env_ok Example.heap0 Example.environment Example.zipcodes
            Example.weights Example.pallet_counts Example.tables0) as Hok
    by (split; vm_compute; reflexivity).
  split; [exact Hok|].
  apply (fitness_func_keeps_environment (H:=stable_sorting) [1; 0; 1; 0]
           Example.environment Example.heap0 _
           (fitness_func (H:=stable_sorting) [1; 0; 1; 0] Example.environment
              Example.heap0).1 _ _ _ _ Hok).
  by destruct (fitness_func _ _ _).
Defined.

(** C4.  The evaluator is deterministic: a second call on the same
    individual and the same environment, made on the heap the first call
    left behind, gives the same score (or raises the same exception). *)
Theorem fitness_func_deterministic `{ArgSort}
    (individual : list Z) (environment : Environment) (h h1 h2 : heap)
    (r1 r2 : exn + Z) (zs ws ps : list cell) (t : tables) :
  env_ok h environment zs ws ps t →
  fitness_func individual environment h = (r1, h1) →
  fitness_func individual environment h1 = (r2, h2) →
  r1 = r2.
Proof.
  intros Hok Hrun1 Hrun2.
  assert (env_ok h1 environment zs ws ps t) as Hok1.
  { destruct Hok as [Hrec Htab].
    pose proof (fitness_func_frame individual environment h h1 r1 Hrun1) as Hkeep.
    split; [by apply (env_records_agree h) | by apply (env_tables_agree h)]. }
  destruct (fitness_func_run individual environment h zs ws ps t Hok) as [h' E1].
  destruct (fitness_func_run individual environment h1 zs ws ps t Hok1) as [h'' E2].
  rewrite E1 in Hrun1. rewrite E2 in Hrun2.
  inversion Hrun1. inversion Hrun2. congruence.
Qed.

Lemma fitness_func_deterministic_witness :
  (fitness_func (H:=stable_sorting) [1; 0; 1; 0] Example.environment
     Example.heap0).1
  = (fitness_func (H:=stable_sorting) [1; 0; 1; 0] Example.environment
       (fitness_func (H:=stable_sorting) [1; 0; 1; 0] Example.environment
          Example.heap0).2).1.
Proof.
  eapply (fitness_func_deterministic (H:=stable_sorting) [1; 0; 1; 0]
            Example.environment Example.heap0 _ _ _ _
            Example.zipcodes Example.weights Example.pallet_counts
            Example.tables0).
  - split; vm_compute; reflexivity.
  - apply surjective_pairing.
  - apply surjective_pairing.
Defined.

(* --------------------------------------------------------------------- *)
(* Taking along a permutation                                            *)
(* --------------------------------------------------------------------- *)

Lemma ndtake_all_from {A} (l1 l2 : list A) :
  ndtake (seq (length l1) (length l2)) (l1 ++ l2) = l2.
Proof.
  unfold ndtake. revert l1. induction l2 as [|x l2 IH]; intros l1; [done|].
  cbn [length seq]. csimpl.
  rewrite lookup_app_r, Nat.sub_diag by done. cbn [lookup list_lookup].
  csimpl. f_equal.
  specialize (IH (l1 ++ [x])). rewrite length_app in IH. cbn [length] in IH.
  rewrite Nat.add_1_r, <- app_assoc in IH. exact IH.
Qed.

Lemma ndtake_all {A} (l : list A) : ndtake (seq 0 (length l)) l = l.
Proof. apply (ndtake_all_from [] l). Qed.

Lemma ndtake_Permutation {A} (p : list nat) (l : list A) :
  p ≡ₚ seq 0 (length l) → ndtake p l ≡ₚ l.
Proof.
  intros Hp. unfold ndtake. rewrite Hp. fold (ndtake (seq 0 (length l)) l).
  by rewrite ndtake_all.
Qed.

Lemma ndtake_fmap {A B} (f : A → B) (p : list nat) (l : list A) :
  ndtake p (f <$> l) = f <$> ndtake p l.
Proof.
  unfold ndtake. induction p as [|i p IH]; csimpl; [done|].
  rewrite list_lookup_fmap. destruct (l !! i); csimpl; by rewrite IH.
Qed.

(* --------------------------------------------------------------------- *)
(* The distance column, row by row                                       *)
(* --------------------------------------------------------------------- *)

Lemma series_sum_app (l1 l2 : list cell) :
  series_sum (l1 ++ l2) = series_sum l1 + series_sum l2.
Proof.
  unfold series_sum. induction l1 as [|c l1 IH]; simpl; [done|].
  rewrite IH. lia.
Qed.










Lemma reindexed_same (n : nat) (c : list cell) : reindexed n n c = c.
Proof. unfold reindexed. rewrite bool_decide_eq_false_2; [done|lia]. Qed.

Lemma frame_at_insert (h : heap) (d : loc) (F : frame) :
  frame_at (<[d := ODataFrame F]> h) d = Some F.
Proof. unfold frame_at. by rewrite lookup_insert_eq. Qed.

Lemma env_ok_lengths (h : heap) (e : Environment) (zs ws ps : list cell)
    (t : tables) :
  env_ok h e zs ws ps t → length ws = length zs ∧ length ps = length zs.
Proof.
  intros [Hrec _]. unfold env_records in Hrec.
  destruct (frame_at h (df e)) as [f|]; simpl in Hrec; [|done].
  destruct (columns f !! "zipcode"); simpl in Hrec; [|done].
  destruct (columns f !! "weight"); simpl in Hrec; [|done].
  destruct (columns f !! "pallets"); simpl in Hrec; [|done].
  case_bool_decide as Hlen; [|done]. inversion Hrec; subst. lia.
Qed.

Lemma env_ok_frame (h : heap) (e : Environment) (f : frame)
    (zs ws ps : list cell) (t : tables) :
  env_ok h e zs ws ps t → frame_at h (df e) = Some f →
  columns f !! "zipcode" = Some zs ∧ columns f !! "weight" = Some ws
  ∧ columns f !! "pallets" = Some ps ∧ length (index f) = length zs.
Proof.
  intros [Hrec _] Hf. unfold env_records in Hrec. rewrite Hf in Hrec.
  simpl in Hrec.
  destruct (columns f !! "zipcode"); simpl in Hrec; [|done].
  destruct (columns f !! "weight"); simpl in Hrec; [|done].
  destruct (columns f !! "pallets"); simpl in Hrec; [|done].
  case_bool_decide as Hlen; [|done]. inversion Hrec; subst.
  repeat split; try done. lia.
Qed.

Lemma scalar_add_float (a : scalar) (x : Z) :
  scalar_value (scalar_add a (Float64 x)) = as_float64 a + x.
Proof. by destruct a. Qed.

(* --------------------------------------------------------------------- *)
(* The lookup of get_distance                                            *)
(* --------------------------------------------------------------------- *)

Lemma loc_first_absent (keys poss : list cell) (z : Z) :
  Some z ∉ keys → loc_first keys poss z = inl IndexError.
Proof.
  revert poss. induction keys as [|k keys IH]; intros poss Hz; simpl; [done|].
  destruct poss as [|p poss]; [done|].
  rewrite bool_decide_eq_false_2.
  - apply IH. intros Hin. apply Hz. by right.
  - intros ->. apply Hz. by left.
Qed.

Lemma loc_first_error (keys poss : list cell) (z : Z) (e : exn) :
  loc_first keys poss z = inl e → e = IndexError.
Proof.
  revert poss. induction keys as [|k keys IH]; intros poss; simpl.
  - intros Hl. by inversion Hl.
  - destruct poss as [|p poss]; [intros Hl; by inversion Hl|].
    case_bool_decide; [done|apply IH].
Qed.

Lemma loc_first_present (keys poss : list cell) (z : Z) :
  length poss = length keys → Some z ∈ keys →
  ∃ p, loc_first keys poss z = inr p ∧ p ∈ poss.
Proof.
  revert poss. induction keys as [|k keys IH]; intros poss Hlen Hz.
  - inversion Hz.
  - destruct poss as [|p poss]; [done|]. simpl. case_bool_decide as Hk.
    + exists p. split; [done|by left].
    + apply elem_of_cons in Hz as [Hz|Hz]; [congruence|].
      destruct (IH poss) as (q & Hq & Hin); [simpl in Hlen; lia|done|].
      exists q. split; [done|by right].
Qed.

Lemma py_getitem_in_range {A} (l : list A) (i : Z) :
  0 ≤ i < Z.of_nat (length l) → ∃ x, py_getitem l i = inr x ∧ x ∈ l.
Proof.
  intros Hi. unfold py_getitem.
  destruct (Z.ltb_spec i 0) as [?|_]; [lia|].
  destruct (Z.leb_spec 0 i) as [_|?]; [|lia].
  destruct (Z.ltb_spec i (Z.of_nat (length l))) as [_|?]; [|lia]. simpl.
  destruct (lookup_lt_is_Some_2 l (Z.to_nat i)) as [x Hx]; [lia|].
  rewrite Hx. exists x. split; [done|]. by eapply list_elem_of_lookup_2.
Qed.

Lemma elem_of_to_float_small (keys : list cell) (z : Z) :
  forallb small keys = true → Z.abs z ≤ 2 ^ 53 →
  Some (f64 z) ∈ to_float keys ↔ Some z ∈ keys.
Proof.
  intros Hk Hz. by rewrite (to_float_small keys Hk), (f64_small z Hz).
Qed.

(** C7, as the code has it.  get_distance looks up the two zip codes
    that its row holds as float64 numbers, among the keys of the lookup
    table taken as float64 numbers.  When either zip code equals no key
    the lookup raises IndexError (the source defines and raises no
    DataError).  With both among the keys the lookup succeeds, provided
    the positions of the lookup table are rows and columns of the
    distance matrix.  For keys and zip codes of magnitude at most 2^53
    the comparison is the one of the integers. *)
Theorem get_distance_lookup
    (environment : Environment) (t : tables) (h : heap) (x : row)
    (zip pzip route : Z) :
  env_tables h environment = Some t →
  x !! "zipcode" = Some (Some (f64 zip)) →
  x !! "prev_zip" = Some (Some (f64 pzip)) →
  x !! "chromosomes" = Some (Some route) →
  x !! "prev_chromosomes" = Some (Some route) →
  (¬ listed t pzip ∨ ¬ listed t zip →
     get_distance environment x h = (inl IndexError, h))
  ∧ (listed t pzip → listed t zip → tables_wf t = true →
     ∃ d, get_distance environment x h = (inr (Some d), h))
  ∧ (forallb small (lk_zipcode t) = true →
     Z.abs pzip ≤ 2 ^ 53 → Z.abs zip ≤ 2 ^ 53 →
     (listed t pzip ↔ Some pzip ∈ lk_zipcode t)
     ∧ (listed t zip ↔ Some zip ∈ lk_zipcode t)).
Proof.
  intros Ht Hz Hpz Hc Hpc.
  rewrite (get_distance_run environment t h x _ _ _ _ Ht Hz Hpz Hc Hpc).
  unfold row_leg, cell_ne. rewrite Z.eqb_refl. simpl.
  unfold stop_distance, listed. cbn [float_tables lk_zipcode lk_position matrix].
  split; [|split].
  - intros [Habs|Habs].
    + by rewrite (loc_first_absent _ _ _ Habs).
    + destruct (loc_first (to_float (lk_zipcode t)) (lk_position t) (f64 pzip))
        as [e|p] eqn:Ho.
      * by rewrite (loc_first_error _ _ _ _ Ho).
      * simpl. by rewrite (loc_first_absent _ _ _ Habs).
  - intros Ho Hd Hwf. unfold tables_wf in Hwf.
    apply andb_true_iff in Hwf as [Hwf Hrows].
    apply andb_true_iff in Hwf as [Hlen Hpos].
    apply Nat.eqb_eq in Hlen. rewrite <- (length_to_float (lk_zipcode t)) in Hlen.
    rewrite forallb_forall in Hpos. rewrite forallb_forall in Hrows.
    destruct (loc_first_present _ _ _ Hlen Ho) as (po & -> & Hpo).
    destruct (loc_first_present _ _ _ Hlen Hd) as (pd & -> & Hpd).
    cbn [ebind].
    assert (forallb (λ c' : cell, negb (isnull c')) (lk_position t) = true)
      as Hnonnull.
    { apply forallb_forall. intros c Hin. specialize (Hpos c Hin).
      by destruct c. }
    pose proof (Hpos po (proj1 (list_elem_of_In _ _) Hpo)) as Hio.
    pose proof (Hpos pd (proj1 (list_elem_of_In _ _) Hpd)) as Hid.
    destruct po as [io|]; [|done]. destruct pd as [id|]; [|done].
    unfold as_index. rewrite Hnonnull. cbn [ebind].
    apply andb_true_iff in Hio as [Hio1 Hio2].
    apply andb_true_iff in Hid as [Hid1 Hid2].
    apply Z.leb_le in Hio1, Hid1. apply Z.ltb_lt in Hio2, Hid2.
    destruct (py_getitem_in_range (matrix t) io) as (mr & -> & Hmr); [lia|].
    cbn [ebind].
    specialize (Hrows mr (proj1 (list_elem_of_In _ _) Hmr)).
    apply Nat.eqb_eq in Hrows.
    destruct (py_getitem_in_range mr id) as (d & -> & _); [lia|].
    by exists d.
  - intros Hk Hp1 Hp2. split; by apply elem_of_to_float_small.
Qed.

Lemma get_distance_lookup_witness :
  get_distance Example.environment
    (Example.a_row (Some 10) (Some 77) (Some 1) (Some 1)) Example.heap0
  = (inl IndexError, Example.heap0)
  ∧ ∃ d, get_distance Example.environment
           (Example.a_row (Some 10) (Some 30) (Some 1) (Some 1)) Example.heap0
         = (inr (Some d), Example.heap0).
Proof.
  split.
  - apply (get_distance_lookup Example.environment Example.tables0
             Example.heap0 _ 10 77 1); try (vm_compute; reflexivity).
    left. unfold listed. vm_compute. intros Hin.
    repeat (apply elem_of_cons in Hin as [Hin|Hin]; [discriminate|]).
    inversion Hin.
  - apply (get_distance_lookup Example.environment Example.tables0
             Example.heap0 _ 10 30 1); try (vm_compute; reflexivity).
    + unfold listed. vm_compute. do 2 right. left.
    + unfold listed. vm_compute. left.
Defined.

(** C7 as it is stated fails, in three ways.  The lookup of a zip code
    that the table does not hold raises IndexError, which is no
    DataError.  With both zip codes in the table the lookup still raises
    IndexError when a position of the table is no row of the matrix.
    And the zip code 2^53 + 1, which the table does not hold, is found
    under the key 2^53, the float64 number that the row holds for it:
    the lookup succeeds and the evaluator returns a score. *)
Lemma get_distance_lookup_deviations :
  (get_distance Example.environment
     (Example.a_row (Some 10) (Some 77) (Some 1) (Some 1)) Example.heap0
   = (inl IndexError, Example.heap0)
   ∧ IndexError ≠ DataError)
  ∧ (env_tables Example.short_heap Example.environment
     = Some Example.short_tables
     ∧ Some 10 ∈ lk_zipcode Example.short_tables
     ∧ Some 20 ∈ lk_zipcode Example.short_tables
     ∧ get_distance Example.environment
         (Example.a_row (Some 20) (Some 10) (Some 1) (Some 1))
         Example.short_heap
       = (inl IndexError, Example.short_heap))
  ∧ (env_ok Example.wide_heap Example.environment Example.wide_zipcodes
       [Some 22500; Some 22500] [Some 12; Some 13] Example.wide_tables
     ∧ (Some (2 ^ 53 + 1) ∉ lk_zipcode Example.wide_tables)
     ∧ get_distance Example.environment
         (Example.a_row (Some (f64 (2 ^ 53 + 1))) (Some (f64 (2 ^ 53 + 1)))
            (Some 0) (Some 0))
         Example.wide_heap
       = (inr (Some 0), Example.wide_heap)
     ∧ (fitness_func (H:=stable_sorting) [0; 0] Example.environment
          Example.wide_heap).1 = inr 0).
Proof.
  split; [split; [vm_compute; reflexivity | discriminate]|].
  split.
  - split; [vm_compute; reflexivity|]. split; [left|]. split; [right; left|].
    vm_compute. reflexivity.
  - split; [split; vm_compute; reflexivity|]. split.
    + intros Hin. apply elem_of_cons in Hin as [Hin|Hin]; [|inversion Hin].
      vm_compute in Hin. discriminate.
    + split; vm_compute; reflexivity.
Qed.

(* --------------------------------------------------------------------- *)
(* The sign of the score and the length check                            *)
(* --------------------------------------------------------------------- *)

Lemma py_getitem_elem {A} (l : list A) (i : Z) (x : A) :
  py_getitem l i = inr x → x ∈ l.
Proof.
  unfold py_getitem. destruct (_ && _); [|done].
  destruct (l !! Z.to_nat _) as [y|] eqn:Hy; [|done].
  intros Hx. inversion Hx; subst. by eapply list_elem_of_lookup_2.
Qed.

Lemma py_getitem_error {A} (l : list A) (i : Z) (e : exn) :
  py_getitem l i = inl e → e = IndexError.
Proof.
  unfold py_getitem. destruct (_ && _); [|intros Hx; by inversion Hx].
  destruct (l !! Z.to_nat _); intros Hx; by inversion Hx.
Qed.

Lemma as_index_error (col : list cell) (c : cell) (e : exn) :
  as_index col c = inl e → e = TypeError.
Proof.
  unfold as_index. destruct c; [destruct (forallb _ _)|]; intros Hx;
    by inversion Hx.
Qed.

Lemma stop_distance_error (t : tables) (a b : Z) (e : exn) :
  stop_distance t a b = inl e → e = IndexError ∨ e = TypeError.
Proof.
  unfold stop_distance.
  destruct (loc_first _ _ a) as [e1|oc] eqn:H1; simpl.
  { intros Hx; inversion Hx; subst. left. by eapply loc_first_error. }
  destruct (loc_first _ _ b) as [e2|dc] eqn:H2; simpl.
  { intros Hx; inversion Hx; subst. left. by eapply loc_first_error. }
  destruct (as_index _ oc) as [e3|oi] eqn:H3; simpl.
  { intros Hx; inversion Hx; subst. right. by eapply as_index_error. }
  destruct (py_getitem _ oi) as [e4|mr] eqn:H4; simpl.
  { intros Hx; inversion Hx; subst. left. by eapply py_getitem_error. }
  destruct (as_index _ dc) as [e5|di] eqn:H5; simpl.
  { intros Hx; inversion Hx; subst. right. by eapply as_index_error. }
  intros Hx. left. by eapply py_getitem_error.
Qed.

Lemma row_leg_error (t : tables) (c pc z pz : cell) (e : exn) :
  row_leg t c pc z pz = inl e → e = IndexError ∨ e = TypeError.
Proof.
  unfold row_leg. destruct z as [zip|]; [|done]. destruct pz as [pzip|]; [|done].
  destruct (cell_ne c pc); [done|].
  destruct (stop_distance t pzip zip) as [e'|d] eqn:Hs; simpl; [|done].
  intros Hx; inversion Hx; subst. by eapply stop_distance_error.
Qed.

Lemma legs_error (t : tables) (cs pcs zs pzs : list cell) (e : exn) :
  legs t cs pcs zs pzs = inl e → e = IndexError ∨ e = TypeError.
Proof.
  revert pcs zs pzs. induction cs as [|c cs IH]; intros pcs zs pzs; simpl; [done|].
  destruct pcs as [|pc pcs]; [done|]. destruct zs as [|z zs]; [done|].
  destruct pzs as [|pz pzs]; [done|].
  destruct (row_leg t c pc z pz) as [e'|d] eqn:Hr; simpl.
  { intros Hx; inversion Hx; subst. by eapply row_leg_error. }
  destruct (legs t cs pcs zs pzs) as [e'|ds] eqn:Hl; simpl; [|done].
  intros Hx; inversion Hx; subst. by eapply IH.
Qed.

(** Every distance of the distance column is an entry of the matrix. *)
Lemma stop_distance_entry (t : tables) (a b d : Z) :
  stop_distance t a b = inr d → ∃ mr, mr ∈ matrix t ∧ d ∈ mr.
Proof.
  unfold stop_distance.
  destruct (loc_first _ _ a) as [e1|oc]; simpl; [done|].
  destruct (loc_first _ _ b) as [e2|dc]; simpl; [done|].
  destruct (as_index _ oc) as [e3|oi]; simpl; [done|].
  destruct (py_getitem _ oi) as [e4|mr] eqn:H4; simpl; [done|].
  destruct (as_index _ dc) as [e5|di]; simpl; [done|].
  intros H6. apply py_getitem_elem in H4, H6. by exists mr.
Qed.

Lemma row_leg_entry (t : tables) (c pc z pz : cell) (d : Z) :
  row_leg t c pc z pz = inr (Some d) → ∃ mr, mr ∈ matrix t ∧ d ∈ mr.
Proof.
  unfold row_leg.
  destruct z as [zip|]; [|done]. destruct pz as [pzip|]; [|done].
  destruct (cell_ne c pc); [done|].
  destruct (stop_distance t pzip zip) as [e'|d'] eqn:Hs; simpl; [done|].
  intros [= ->]. by eapply stop_distance_entry.
Qed.

Lemma legs_entries (t : tables) (cs pcs zs pzs ds : list cell) :
  legs t cs pcs zs pzs = inr ds →
  Forall (λ x, ∀ d, x = Some d → ∃ mr, mr ∈ matrix t ∧ d ∈ mr) ds.
Proof.
  revert pcs zs pzs ds.
  induction cs as [|c cs IH]; intros pcs zs pzs ds; simpl.
  { intros [= <-]. constructor. }
  destruct pcs as [|pc pcs]; [intros [= <-]; constructor|].
  destruct zs as [|z zs]; [intros [= <-]; constructor|].
  destruct pzs as [|pz pzs]; [intros [= <-]; constructor|].
  destruct (row_leg t c pc z pz) as [e'|d] eqn:Hr; simpl; [done|].
  destruct (legs t cs pcs zs pzs) as [e'|ds'] eqn:Hl; simpl; [done|].
  intros [= <-]. constructor; [|by eapply IH].
  intros d' ->. by eapply row_leg_entry.
Qed.

Lemma matrix_nonneg_entry (t : tables) (mr : list Z) (d : Z) :
  matrix_nonneg t = true → mr ∈ matrix t → d ∈ mr → 0 ≤ d.
Proof.
  unfold matrix_nonneg. intros Hm H4 H6. rewrite forallb_forall in Hm.
  specialize (Hm mr (proj1 (list_elem_of_In _ _) H4)).
  rewrite forallb_forall in Hm.
  specialize (Hm d (proj1 (list_elem_of_In _ _) H6)). by apply Z.leb_le.
Qed.

Lemma series_sum_result_series_nonneg (ds : list cell) :
  Forall (λ x, ∀ v, x = Some v → 0 ≤ v) ds →
  0 ≤ series_sum (result_series ds).
Proof.
  intros Hds. unfold result_series.
  destruct (is_float ds); [by apply series_sum_to_float_nonneg|].
  induction Hds as [|x c Hz Hc IH]; [done|].
  rewrite series_sum_cons. destruct x as [z|]; simpl; [|lia].
  specialize (Hz z eq_refl). lia.
Qed.

(* --------------------------------------------------------------------- *)
(* The capacity components within the range of int64                     *)
(* --------------------------------------------------------------------- *)

Lemma sum_abs_nonneg (c : list cell) : 0 ≤ sum_abs c.
Proof. unfold sum_abs. induction c as [|x c IH]; simpl; lia. Qed.

Lemma series_sum_abs (c : list cell) : Z.abs (series_sum c) ≤ sum_abs c.
Proof. unfold series_sum, sum_abs. induction c as [|x c IH]; simpl; lia. Qed.

Lemma sum_abs_replicate_None (n : nat) : sum_abs (replicate n None) = 0.
Proof. unfold sum_abs. induction n as [|n IH]; simpl; lia. Qed.

Lemma sum_abs_reindexed (n k : nat) (c : list cell) :
  0 ≤ sum_abs (reindexed n k c) ≤ sum_abs c.
Proof.
  unfold reindexed. pose proof (sum_abs_nonneg c). case_bool_decide; [|lia].
  rewrite sum_abs_replicate_None. lia.
Qed.

Lemma sum_Z_map_add (f g : Z → Z) (K : list Z) :
  sum_Z (map (λ r, f r + g r) K) = sum_Z (map f K) + sum_Z (map g K).
Proof. unfold sum_Z. induction K as [|r K IH]; simpl; lia. Qed.

Lemma sum_Z_map_le (f g : Z → Z) (K : list Z) :
  (∀ r, r ∈ K → f r ≤ g r) → sum_Z (map f K) ≤ sum_Z (map g K).
Proof.
  unfold sum_Z. induction K as [|r K IH]; intros Hfg; simpl; [done|].
  specialize (Hfg r (list_elem_of_here _ _)) as Hr.
  assert (∀ r', r' ∈ K → f r' ≤ g r') as Hrest
    by (intros r' Hr'; apply Hfg; by right).
  specialize (IH Hrest). lia.
Qed.

Lemma sum_Z_map_const (c : Z) (K : list Z) :
  sum_Z (map (λ _, c) K) = c * Z.of_nat (length K).
Proof. unfold sum_Z. induction K as [|r K IH]; simpl length; simpl; lia. Qed.

(** A row belongs to one group at most. *)
Lemma sum_Z_one_group (kc : cell) (a : Z) (K : list Z) :
  NoDup K → 0 ≤ a →
  0 ≤ sum_Z (map (λ g, if bool_decide (kc = Some g) then a else 0) K) ≤ a.
Proof.
  intros Hnd Ha. unfold sum_Z. induction Hnd as [|g K Hg Hnd IH]; simpl; [lia|].
  case_bool_decide as Hk; [|lia].
  assert (foldr Z.add 0
            (map (λ g', if bool_decide (kc = Some g') then a else 0) K) = 0)
    as ->; [|lia].
  clear IH. induction K as [|g' K IH]; simpl; [done|].
  rewrite bool_decide_eq_false_2.
  - rewrite IH; [done| |by apply NoDup_cons in Hnd as [_ ?]].
    intros Hin. apply Hg. by right.
  - intros ->. apply Hg. inversion Hk; subst. by left.
Qed.

(** The magnitudes of the groups add up to no more than those of the
    column. *)
Lemma group_sums_abs (K : list Z) (k v : list cell) :
  NoDup K → sum_Z (map (λ g, sum_abs (group_rows g k v)) K) ≤ sum_abs v.
Proof.
  intros Hnd. revert v. induction k as [|kc k IH]; intros v.
  - simpl. rewrite (sum_Z_map_const 0). pose proof (sum_abs_nonneg v). lia.
  - destruct v as [|vc v].
    + simpl. rewrite (sum_Z_map_const 0). simpl. lia.
    + assert (sum_Z (map (λ g, sum_abs (group_rows g (kc :: k) (vc :: v))) K)
              = sum_Z (map (λ g, (if bool_decide (kc = Some g)
                                  then Z.abs (default 0 vc) else 0)
                                 + sum_abs (group_rows g k v)) K)) as ->.
      { f_equal. apply map_ext. intros g. simpl. by case_bool_decide. }
      rewrite sum_Z_map_add.
      pose proof (sum_Z_one_group kc (Z.abs (default 0 vc)) K Hnd).
      specialize (IH v). change (sum_abs (vc :: v))
        with (Z.abs (default 0 vc) + sum_abs v). lia.
Qed.

Lemma group_keys_NoDup (individual : list Z) :
  NoDup (group_keys (Some <$> individual)).
Proof.
  unfold group_keys. rewrite omap_id_Some.
  rewrite <- (ZSort.Permuted_sort (remove_dups individual)).
  apply NoDup_remove_dups.
Qed.

Lemma group_keys_length (individual : list Z) :
  (length (group_keys (Some <$> individual)) ≤ length individual)%nat.
Proof.
  unfold group_keys. rewrite omap_id_Some.
  rewrite <- (ZSort.Permuted_sort (remove_dups individual)).
  apply submseteq_length, NoDup_submseteq; [apply NoDup_remove_dups|].
  intros x. by rewrite elem_of_remove_dups.
Qed.

(** Within the range of int64 the capacity component is the exact sum,
    whatever the dtype of the column. *)
Lemma abs_deviation_sum_value (bound : Z) (individual : list Z)
    (v : list cell) :
  0 ≤ bound →
  bound * Z.of_nat (length individual) + sum_abs v < 2 ^ 63 →
  abs_deviation_sum bound (is_float v, groupby_sum (Some <$> individual) v)
  = (if is_float v then Float64 else Int64)
      (exact_abs_deviation_sum bound
         (exact_groupby_sum (Some <$> individual) v))
  ∧ 0 ≤ exact_abs_deviation_sum bound
          (exact_groupby_sum (Some <$> individual) v)
      ≤ bound * Z.of_nat (length individual) + sum_abs v.
Proof.
  intros Hb Hrange.
  set (cs := Some <$> individual).
  set (K := group_keys cs).
  pose proof (group_keys_NoDup individual) as Hnd. fold cs K in Hnd.
  pose proof (group_keys_length individual) as HlK. fold cs K in HlK.
  pose proof (sum_abs_nonneg v) as Hv.
  assert (∀ g, Z.abs (series_sum (group_rows g cs v)) ≤ sum_abs v) as Hg.
  { intros g. etrans; [apply series_sum_abs|].
    pose proof (group_sums_abs [g] cs v) as Hone. simpl in Hone.
    unfold sum_Z in Hone. simpl in Hone.
    assert (NoDup [g]) as H1 by (apply NoDup_singleton).
    specialize (Hone H1). lia. }
  assert (exact_abs_deviation_sum bound (exact_groupby_sum cs v)
          = sum_Z (map (λ g, Z.abs (bound - series_sum (group_rows g cs v))) K))
    as Hexact.
  { unfold exact_abs_deviation_sum, exact_groupby_sum. by rewrite map_map. }
  assert (0 ≤ sum_Z (map (λ g, Z.abs (bound - series_sum (group_rows g cs v))) K)
          ≤ bound * Z.of_nat (length K) + sum_abs v) as Hsum.
  { split.
    - etrans; [|apply (sum_Z_map_le (λ _, 0))]; [|intros; lia].
      rewrite sum_Z_map_const. lia.
    - etrans; [apply (sum_Z_map_le _
        (λ g, bound + sum_abs (group_rows g cs v)))|].
      + intros g _. pose proof (series_sum_abs (group_rows g cs v)). lia.
      + rewrite (sum_Z_map_add (λ _, bound)), sum_Z_map_const.
        pose proof (group_sums_abs K cs v Hnd). lia. }
  assert (bound * Z.of_nat (length K) ≤ bound * Z.of_nat (length individual))
    as HK by nia.
  rewrite Hexact. split; [|lia].
  unfold abs_deviation_sum, groupby_sum. cbn [fst snd]. fold cs K.
  destruct (is_float v).
  - f_equal. by rewrite map_map.
  - f_equal. rewrite map_map. cbn [snd].
    assert (map (λ g, abs64 (wrap64 (bound - wrap64 (series_sum (group_rows g cs v))))) K
            = map (λ g, Z.abs (bound - series_sum (group_rows g cs v))) K) as ->.
    { apply map_ext_in. intros g Hin. apply list_elem_of_In in Hin.
      assert (1 ≤ Z.of_nat (length individual)) as Hk1.
      { destruct K; [inversion Hin|]. simpl in HlK. lia. }
      specialize (Hg g).
      rewrite (wrap64_small (series_sum _)) by lia.
      rewrite (wrap64_small (bound - _)) by nia.
      apply abs64_small. nia. }
    apply wrap64_small. lia.
Qed.





Lemma capacity_penalty_value (individual : list Z) (ws ps : list cell) :
  45025 * Z.of_nat (length individual) + sum_abs ws + sum_abs ps < 2 ^ 63 →
  let W := exact_abs_deviation_sum max_weight
             (exact_groupby_sum (Some <$> individual) ws) in
  let P := exact_abs_deviation_sum max_pallets
             (exact_groupby_sum (Some <$> individual) ps) in
  0 ≤ W ≤ 45000 * Z.of_nat (length individual) + sum_abs ws
  ∧ 0 ≤ P ≤ 25 * Z.of_nat (length individual) + sum_abs ps
  ∧ (as_float64 (capacity_penalty individual ws ps) = f64 (W + P)
     ∨ as_float64 (capacity_penalty individual ws ps) = W + P
     ∨ as_float64 (capacity_penalty individual ws ps) = W + f64 P
     ∨ as_float64 (capacity_penalty individual ws ps) = f64 W + P).
Proof.
  intros Hrange W P.
  pose proof (sum_abs_nonneg ws) as Hws. pose proof (sum_abs_nonneg ps) as Hps.
  destruct (abs_deviation_sum_value max_weight individual ws) as [EW HW];
    [unfold max_weight; lia | unfold max_weight; lia|].
  destruct (abs_deviation_sum_value max_pallets individual ps) as [EP HP];
    [unfold max_pallets; lia | unfold max_pallets; lia|].
  fold W in EW, HW. fold P in EP, HP. unfold max_weight in HW.
  unfold max_pallets in HP.
  split; [exact HW|]. split; [exact HP|].
  unfold capacity_penalty. cbv zeta. rewrite EW, EP.
  destruct (is_float ws), (is_float ps); cbn [scalar_add as_float64].
  - right. by left.
  - do 2 right. by left.
  - do 3 right. done.
  - left. by rewrite wrap64_small by lia.
Qed.

Lemma capacity_penalty_nonneg (individual : list Z) (ws ps : list cell) :
  45025 * Z.of_nat (length individual) + sum_abs ws + sum_abs ps < 2 ^ 63 →
  0 ≤ as_float64 (capacity_penalty individual ws ps).
Proof.
  intros Hrange.
  destruct (capacity_penalty_value individual ws ps Hrange)
    as (HW & HP & [-> | [-> | [-> | ->]]]).
  - apply f64_nonneg. lia.
  - lia.
  - pose proof (f64_nonneg _ (proj1 HP)). lia.
  - pose proof (f64_nonneg _ (proj1 HW)). lia.
Qed.

(** The score is the capacity components, as a float64, plus the sum of
    the distance column. *)
Lemma score_value `{ArgSort} (individual : list Z) (n : nat)
    (zs ws ps : list cell) (t : tables) (s : Z) :
  score individual n zs ws ps t = inr s →
  let k := length individual in
  let cs' := ndtake (nargsort (Some <$> individual)) (Some <$> individual) in
  let zs' := ndtake (nargsort (Some <$> individual)) (reindexed n k zs) in
  (k = n ∨ (n = 0%nat ∧ (0 < k)%nat))
  ∧ ∃ ds,
      legs (float_tables t) (to_float cs') (shift cs') (to_float zs') (shift zs')
      = inr ds
      ∧ s = as_float64 (capacity_penalty individual (reindexed n k ws)
                          (reindexed n k ps))
            + series_sum (result_series ds).
Proof.
  unfold score. case_bool_decide as Hk; [|done]. cbv zeta.
  destruct (legs (float_tables t) _ _ _ _) as [e|ds] eqn:Hl; [done|].
  cbn [ebind]. intros [= <-]. split; [done|]. exists ds. split; [done|].
  unfold capacity_penalty. cbv zeta. apply scalar_add_float.
Qed.

(** C5, as the code has it.  When no entry of the distance matrix is
    negative, and the capacity bounds of all records, the weights and
    the pallet counts add up to less than 2^63, so that no int64 sum of
    the capacity components wraps around, the score the evaluator
    returns is non-negative. *)
Theorem fitness_func_nonneg `{ArgSort}
    (individual : list Z) (environment : Environment) (h h' : heap)
    (s : Z) (zs ws ps : list cell) (t : tables) :
  env_ok h environment zs ws ps t →
  matrix_nonneg t = true →
  int64_range individual ws ps = true →
  fitness_func individual environment h = (inr s, h') →
  0 ≤ s.
Proof.
  intros Hok Hm Hrange Hrun.
  destruct (fitness_func_run individual environment h zs ws ps t Hok) as [h2 E].
  rewrite E in Hrun. inversion Hrun as [[Hs Hh]]. clear Hrun E.
  apply score_value in Hs as (_ & ds & Hl & ->).
  unfold int64_range in Hrange. apply Z.ltb_lt in Hrange.
  pose proof (sum_abs_reindexed (length zs) (length individual) ws).
  pose proof (sum_abs_reindexed (length zs) (length individual) ps).
  pose proof (capacity_penalty_nonneg individual
                (reindexed (length zs) (length individual) ws)
                (reindexed (length zs) (length individual) ps)) as Hcap.
  assert (0 ≤ series_sum (result_series ds)) as Hdist.
  { apply series_sum_result_series_nonneg.
    eapply Forall_impl; [by eapply legs_entries|].
    intros x Hx v ->. destruct (Hx v eq_refl) as (mr & Hmr & Hv).
    by eapply (matrix_nonneg_entry t). }
  lia.
Qed.

Lemma fitness_func_nonneg_witness :
  0 ≤ 25033.
Proof.
  apply (fitness_func_nonneg (H:=stable_sorting) [1; 0; 1; 0]
           Example.environment Example.heap0
           (fitness_func (H:=stable_sorting) [1; 0; 1; 0] Example.environment
              Example.heap0).2
           25033 Example.zipcodes Example.weights Example.pallet_counts
           Example.tables0).
  - split; vm_compute; reflexivity.
  - vm_compute; reflexivity.
  - vm_compute; reflexivity.
  - vm_compute; reflexivity.
Defined.

(** C5 as it is stated fails, in two ways.  With a negative entry in the
    distance matrix the evaluator returns a negative score.  And with no
    negative entry, two loads of 2^62 and 2^62 + 45000 on one route make
    the int64 difference between the capacity and their sum the least
    int64, whose absolute value is itself: the score is negative. *)
Lemma fitness_func_negative_score :
  (fitness_func (H:=stable_sorting) [0; 0] Example.environment
     Example.signed_heap).1 = inr (-1)
  ∧ (env_ok Example.wrapping_heap Example.environment
       [Some 10; Some 10] Example.wrapping_weights [Some 12; Some 13]
       Example.tables0
     ∧ matrix_nonneg Example.tables0 = true
     ∧ (fitness_func (H:=stable_sorting) [0; 0] Example.environment
          Example.wrapping_heap).1 = inr (- 2 ^ 63)).
Proof.
  split; [vm_compute; reflexivity|].
  split; [split; vm_compute; reflexivity|].
  split; vm_compute; reflexivity.
Qed.

(* --------------------------------------------------------------------- *)
(* Which rows have a distance                                            *)
(* --------------------------------------------------------------------- *)




(** C10, as the code has it.  On a demand table with at least one
    record the evaluator completes without raising only when the
    individual is as long as the table; when the lengths differ the
    assignment of the individual as a new column raises ValueError; with
    matching lengths that error is never raised. *)
Theorem fitness_func_length_check `{ArgSort}
    (individual : list Z) (environment : Environment) (h : heap)
    (zs ws ps : list cell) (t : tables) :
  env_ok h environment zs ws ps t →
  (0 < length zs)%nat →
  (∀ s h', fitness_func individual environment h = (inr s, h') →
     length individual = length zs)
  ∧ (length individual ≠ length zs →
     ∃ h', fitness_func individual environment h = (inl ValueError, h'))
  ∧ (length individual = length zs →
     ∀ h', fitness_func individual environment h ≠ (inl ValueError, h')).
Proof.
  intros Hok Hn.
  destruct (fitness_func_run individual environment h zs ws ps t Hok) as [h2 E].
  rewrite E. unfold score. split; [|split].
  - intros s h' Hrun. case_bool_decide as Hk; [lia|]. by inversion Hrun.
  - intros Hne. rewrite bool_decide_eq_false_2 by lia. by exists h2.
  - intros Heq h' Hrun. rewrite bool_decide_eq_true_2 in Hrun by lia.
    cbv zeta in Hrun.
    destruct (legs _ _ _ _ _) as [e|ds] eqn:Hl; simpl in Hrun; [|done].
    inversion Hrun; subst e. apply legs_error in Hl as [?|?]; done.
Qed.

Lemma fitness_func_length_check_witness :
  ∃ h', fitness_func (H:=stable_sorting) [1; 0; 1] Example.environment
          Example.heap0 = (inl ValueError, h').
Proof.
  apply (fitness_func_length_check (H:=stable_sorting) [1; 0; 1]
           Example.environment Example.heap0 Example.zipcodes Example.weights
           Example.pallet_counts Example.tables0).
  - split; vm_compute; reflexivity.
  - vm_compute. lia.
  - vm_compute. lia.
Defined.

(** C10 as it is stated fails: on a demand table without records the
    assignment raises nothing, and the evaluator returns a score for an
    individual of length one. *)
Lemma fitness_func_empty_table_returns :
  env_ok Example.empty_heap Example.environment [] [] [] Example.tables0
  ∧ (fitness_func (H:=stable_sorting) [3] Example.environment
       Example.empty_heap).1 = inr 45025.
Proof. split; [split|]; vm_compute; reflexivity. Qed.

(* --------------------------------------------------------------------- *)
(* The order of the sorted table                                         *)
(* --------------------------------------------------------------------- *)

Lemma fitness_func_keeps_env_ok `{ArgSort} (individual : list Z)
    (environment : Environment) (h h' : heap) (r : exn + Z) (f : frame)
    (zs ws ps : list cell) (t : tables) :
  env_ok h environment zs ws ps t →
  frame_at h (df environment) = Some f →
  fitness_func individual environment h = (r, h') →
  env_ok h' environment zs ws ps t ∧ frame_at h' (df environment) = Some f.
Proof.
  intros [Hrec Htab] Hf Hrun.
  pose proof (fitness_func_frame individual environment h h' r Hrun) as Hkeep.
  split; [split|].
  - by apply (env_records_agree h).
  - by apply (env_tables_agree h).
  - unfold frame_at in *. rewrite Hkeep; [done|]. by eapply frame_at_dom.
Qed.

(** C2, as the code has it.  Before the distances are accumulated the
    evaluator sorts its copy of the demand table in place by the route
    id alone, with the sorting routine of the library's default kind.
    The order [p] of the records is what that routine returns for the
    route ids: a permutation of the record positions along which the
    route ids are non-decreasing.  The records move as wholes: the row
    labels and every column of the demand table are taken along [p].
    Which of two records with the same route id comes first is left to
    the routine, which is a function of the route ids alone: a second
    evaluation of the same input leaves the same table and gives the
    same result. *)
Theorem fitness_func_sorts_by_route `{ArgSort}
    (individual : list Z) (environment : Environment) (h h1 h2 : heap)
    (r1 r2 : exn + Z) (f : frame) (zs ws ps : list cell) (t : tables) :
  env_ok h environment zs ws ps t →
  frame_at h (df environment) = Some f →
  length individual = length zs →
  fitness_func individual environment h = (r1, h1) →
  fitness_func individual environment h1 = (r2, h2) →
  let p := argsort individual in
  ∃ F,
    frame_at h1 (fresh (dom h)) = Some F
    ∧ p ≡ₚ seq 0 (length individual)
    ∧ index F = ndtake p (index f)
    ∧ (∀ name c, columns f !! name = Some c →
         name ∉ ["chromosomes"; "prev_zip"; "prev_chromosomes"; "distance"] →
         columns F !! name = Some (ndtake p c))
    ∧ columns F !! "chromosomes" = Some (Some <$> ndtake p individual)
    ∧ StronglySorted Z.le (ndtake p individual)
    ∧ frame_at h2 (fresh (dom h1)) = Some F
    ∧ r2 = r1.
Proof.
  intros Hok Hf Hlen Hrun1 Hrun2 p.
  destruct (fitness_func_keeps_env_ok _ _ _ _ _ _ _ _ _ _ Hok Hf Hrun1)
    as [Hok1 Hf1].
  pose proof (fitness_func_run_frame individual environment h f zs ws ps t
                Hok Hf) as E1.
  pose proof (fitness_func_run_frame individual environment h1 f zs ws ps t
                Hok1 Hf1) as E2.
  rewrite bool_decide_eq_true_2 in E1, E2 by (by left).
  rewrite Hrun1 in E1. rewrite Hrun2 in E2. clear Hrun1 Hrun2 Hok1 Hf1.
  injection E2 as -> ->. injection E1 as -> ->.
  exists (evaluated_frame individual f zs t).
  rewrite !frame_at_insert.
  destruct (env_ok_frame _ _ _ _ _ _ _ Hok Hf) as (_ & _ & _ & Hidx).
  assert (decoded_frame individual f
          = Frame (index f) (<["chromosomes" := Some <$> individual]> (columns f)))
    as Hdec.
  { unfold decoded_frame. cbv zeta.
    rewrite ensure_valid_index_same; [done|]. by rewrite Hlen, Hidx. }
  split; [done|]. split; [apply argsort_perm|].
  unfold evaluated_frame. cbv zeta. rewrite Hdec, nargsort_Some. fold p.
  cbn [index columns].
  split; [done|]. split; [|split; [|split; [|split]]].
  - intros name c Hc Hname.
    assert (name ≠ "chromosomes" ∧ name ≠ "prev_zip"
            ∧ name ≠ "prev_chromosomes" ∧ name ≠ "distance")
      as (N1 & N2 & N3 & N4).
    { repeat split; intros ->; apply Hname; set_solver. }
    assert ((<["prev_chromosomes" := shift (ndtake p (Some <$> individual))]>
               (<["prev_zip" := shift (ndtake p
                    (reindexed (length (index f)) (length individual) zs))]>
                  (ndtake p <$> <["chromosomes" := Some <$> individual]>
                                  (columns f)))) !! name
            = Some (ndtake p c)) as Hsorted.
    { rewrite !lookup_insert_ne by done. rewrite lookup_fmap.
      rewrite lookup_insert_ne by done. by rewrite Hc. }
    destruct (legs _ _ _ _ _); [done|].
    by rewrite lookup_insert_ne.
  - assert ((<["prev_chromosomes" := shift (ndtake p (Some <$> individual))]>
               (<["prev_zip" := shift (ndtake p
                    (reindexed (length (index f)) (length individual) zs))]>
                  (ndtake p <$> <["chromosomes" := Some <$> individual]>
                                  (columns f)))) !! "chromosomes"
            = Some (Some <$> ndtake p individual)) as Hsorted.
    { rewrite !lookup_insert_ne by done. rewrite lookup_fmap.
      rewrite lookup_insert_eq. simpl. by rewrite ndtake_fmap. }
    destruct (legs _ _ _ _ _); [done|].
    by rewrite lookup_insert_ne.
  - apply argsort_sorted.
  - done.
  - done.
Qed.

Lemma fitness_func_sorts_by_route_witness :
  ∃ F,
    frame_at (fitness_func (H:=stable_sorting) [1; 0; 1; 0] Example.environment
                Example.heap0).2 (fresh (dom Example.heap0)) = Some F
    ∧ stable_argsort [1; 0; 1; 0] ≡ₚ seq 0 (length [1; 0; 1; 0])
    ∧ index F = ndtake (stable_argsort [1; 0; 1; 0]) (index Example.demand_data)
    ∧ (∀ name c, columns Example.demand_data !! name = Some c →
         name ∉ ["chromosomes"; "prev_zip"; "prev_chromosomes"; "distance"] →
         columns F !! name = Some (ndtake (stable_argsort [1; 0; 1; 0]) c))
    ∧ columns F !! "chromosomes"
      = Some (Some <$> ndtake (stable_argsort [1; 0; 1; 0]) [1; 0; 1; 0])
    ∧ StronglySorted Z.le (ndtake (stable_argsort [1; 0; 1; 0]) [1; 0; 1; 0])
    ∧ frame_at
        (fitness_func (H:=stable_sorting) [1; 0; 1; 0] Example.environment
           (fitness_func (H:=stable_sorting) [1; 0; 1; 0] Example.environment
              Example.heap0).2).2
        (fresh (dom (fitness_func (H:=stable_sorting) [1; 0; 1; 0]
                       Example.environment Example.heap0).2)) = Some F
    ∧ (fitness_func (H:=stable_sorting) [1; 0; 1; 0] Example.environment
         (fitness_func (H:=stable_sorting) [1; 0; 1; 0] Example.environment
            Example.heap0).2).1
      = (fitness_func (H:=stable_sorting) [1; 0; 1; 0] Example.environment
           Example.heap0).1.
Proof.
  apply (fitness_func_sorts_by_route (H:=stable_sorting) [1; 0; 1; 0]
           Example.environment Example.heap0 _ _ _ _ Example.demand_data
           Example.zipcodes Example.weights Example.pallet_counts
           Example.tables0).
  - split; vm_compute; reflexivity.
  - vm_compute. reflexivity.
  - reflexivity.
  - apply surjective_pairing.
  - apply surjective_pairing.
Defined.

(** C2 as it is stated fails: the sort is not stable.  numpy's default
    kind orders a short array with a sorting network that exchanges two
    records when their keys are out of order and never looks at their
    positions; on the route ids 1, 1, 0, 0 it exchanges record 0 with
    record 3 and record 1 with record 2, which is the order of the
    routine below.  The evaluator leaves record 3 before record 2 and
    record 1 before record 0, where a stable sort on (route id,
    position) gives 2, 3, 0, 1. *)
Lemma sort_values_not_stable :
  index <$> frame_at
    (fitness_func (H:=reversing_sorting) [1; 1; 0; 0] Example.environment
       Example.heap0).2 (fresh (dom Example.heap0))
  = Some [3; 2; 1; 0]%nat
  ∧ stable_argsort [1; 1; 0; 0] = [2; 3; 0; 1]%nat.
Proof. split; vm_compute; reflexivity. Qed.

(* --------------------------------------------------------------------- *)
(* Sums over routes                                                      *)
(* --------------------------------------------------------------------- *)





Lemma sum_Z_Permutation (l1 l2 : list Z) : l1 ≡ₚ l2 → sum_Z l1 = sum_Z l2.
Proof.
  unfold sum_Z. induction 1 as [|x l1 l2 _ IH|x y l|l1 l2 l3 _ IH1 _ IH2]; simpl;
    lia.
Qed.





Lemma group_keys_Permutation (l : list Z) :
  group_keys (Some <$> l) ≡ₚ remove_dups l.
Proof.
  unfold group_keys. rewrite omap_id_Some.
  symmetry. apply ZSort.Permuted_sort.
Qed.

Lemma series_sum_replicate_None (n : nat) : series_sum (replicate n None) = 0.
Proof. unfold series_sum. induction n as [|n IH]; simpl; lia. Qed.

Lemma group_rows_Forall_None (g : Z) (k v : list cell) :
  Forall (λ c, c = None) v → series_sum (group_rows g k v) = 0.
Proof.
  intros Hv. revert k. induction Hv as [|c v -> _ IH]; intros k.
  - by destruct k.
  - destruct k as [|kc k]; [done|]. simpl. case_bool_decide; simpl; apply IH.
Qed.

(** A route's sum is the same on the table as decode() leaves it. *)
Lemma group_rows_reindexed (g : Z) (cs v : list cell) (n k : nat) :
  length v = n →
  series_sum (group_rows g cs (reindexed n k v)) = series_sum (group_rows g cs v).
Proof.
  intros Hv. unfold reindexed. case_bool_decide as Hnk; [|done].
  destruct Hnk as [-> _]. destruct v; [|done].
  rewrite group_rows_Forall_None.
  - by destruct cs.
  - apply Forall_forall. intros c Hc. by apply elem_of_replicate in Hc as [-> _].
Qed.

Lemma exact_abs_deviation_sum_routes (bound : Z) (individual : list Z)
    (v : list cell) (n : nat) :
  length v = n →
  exact_abs_deviation_sum bound
    (exact_groupby_sum (Some <$> individual)
       (reindexed n (length individual) v))
  = sum_Z (map (λ r, Z.abs (bound - series_sum
                              (group_rows r (Some <$> individual) v)))
               (remove_dups individual)).
Proof.
  intros Hv. unfold exact_abs_deviation_sum, exact_groupby_sum.
  rewrite map_map. cbn [snd].
  rewrite (sum_Z_Permutation _
    (map (λ r, Z.abs (bound - series_sum
       (group_rows r (Some <$> individual)
          (reindexed n (length individual) v)))) (remove_dups individual))).
  - f_equal. apply map_ext. intros r. by rewrite group_rows_reindexed.
  - apply Permutation_map, group_keys_Permutation.
Qed.

(* --------------------------------------------------------------------- *)
(* The distance column, route by route                                   *)
(* --------------------------------------------------------------------- *)

Lemma removelast_prevs (x : cell) (s : list cell) :
  removelast (x :: s) = prevs x s.
Proof.
  revert x. induction s as [|y s IH]; intros x; [done|].
  change (removelast (x :: y :: s)) with (x :: removelast (y :: s)).
  by rewrite IH.
Qed.







(* --------------------------------------------------------------------- *)
(* The score is the reference policy                                     *)
(* --------------------------------------------------------------------- *)



Lemma elem_of_ndtake {A} (p : list nat) (l : list A) (x : A) :
  x ∈ ndtake p l → x ∈ l.
Proof.
  unfold ndtake. rewrite list_elem_of_omap. intros (i & _ & Hx).
  by eapply list_elem_of_lookup_2.
Qed.


Section PolicyProof.
Context `{ArgSort}.
Variable individual : list Z.
Variables zs ws ps : list cell.
Variable t : tables.
Hypothesis Hws : length ws = length zs.
Hypothesis Hps : length ps = length zs.


End PolicyProof.

(* --------------------------------------------------------------------- *)
(* Within 2^53 the evaluation is exact                                   *)
(* --------------------------------------------------------------------- *)




Lemma float_tables_small (t : tables) :
  forallb small (lk_zipcode t) = true → float_tables t = t.
Proof.
  intros Hk. unfold float_tables. rewrite to_float_small by done. by destruct t.
Qed.


Lemma legs_nil_inv (t : tables) (pcs zs pzs : list cell) :
  legs t [] pcs zs pzs = inr [].
Proof. done. Qed.





(* --------------------------------------------------------------------- *)
(* The evolution engine: every operator keeps the length                 *)
(* --------------------------------------------------------------------- *)

Section EngineLength.
Variable Env : Type.
Variable record_count : Env → nat.
Variable cfg : Engine.Config Env.

Lemma mutate_length (rate : nat) (ind : list Z) (g : Engine.Rng) :
  length (Engine.mutate Env cfg rate ind g).1 = length ind.
Proof.
  revert g. induction ind as [|x ind IH]; intros g; [done|].
  cbn [Engine.mutate].
  destruct (Engine.flip rate g) as [hit g1]. destruct hit.
  - destruct (Engine.draw (Engine.vehicle_count Env cfg) g1) as [v g2].
    specialize (IH g2).
    destruct (Engine.mutate Env cfg rate ind g2) as [rest g3].
    simpl in *. by rewrite IH.
  - specialize (IH g1).
    destruct (Engine.mutate Env cfg rate ind g1) as [rest g3].
    simpl in *. by rewrite IH.
Qed.

Lemma uniform_crossover_length (a b : list Z) (g : Engine.Rng) :
  length a = length b → length (Engine.uniform_crossover a b g).1 = length a.
Proof.
  revert b g. induction a as [|x a IH]; intros b g Hlen; [done|].
  destruct b as [|y b]; [done|]. cbn [Engine.uniform_crossover].
  destruct (Engine.draw 2 g) as [c g1].
  specialize (IH b g1). destruct (Engine.uniform_crossover a b g1) as [rest g2].
  simpl in *. rewrite IH; [done|lia].
Qed.

Lemma crossover_length (a b : list Z) (g : Engine.Rng) (n : nat) :
  length a = n → length b = n →
  length (Engine.crossover Env cfg a b g).1 = n.
Proof.
  intros Ha Hb. unfold Engine.crossover.
  destruct (Engine.flip _ g) as [apply g1]. destruct apply; [|done].
  rewrite uniform_crossover_length; [done|lia].
Qed.

Lemma tournament_Forall (P : list Z * Z → Prop) (k : nat)
    (pop : list (list Z * Z)) (champion : list Z * Z) (g : Engine.Rng) :
  Forall P pop → P champion → P (Engine.tournament k pop champion g).1.
Proof.
  intros Hpop. revert champion g.
  induction k as [|k IH]; intros champion g Hc; [done|].
  cbn [Engine.tournament].
  destruct (Engine.draw (length pop) g) as [i g1]. apply IH.
  assert (P (nth i pop champion)) as Hn.
  { destruct (nth_in_or_default i pop champion) as [Hin| ->]; [|done].
    rewrite Forall_forall in Hpop. apply Hpop. by apply list_elem_of_In. }
  by destruct (_ <? _).
Qed.

Lemma select_Forall (P : list Z * Z → Prop)
    (pop : list (list Z * Z)) (first : list Z * Z) (g : Engine.Rng) :
  Forall P pop → P first → P (Engine.select Env cfg pop first g).1.
Proof.
  intros Hpop Hf. unfold Engine.select.
  destruct (Engine.draw (length pop) g) as [i g1].
  apply tournament_Forall; [done|].
  destruct (nth_in_or_default i pop first) as [Hin| ->]; [|done].
  rewrite Forall_forall in Hpop. apply Hpop. by apply list_elem_of_In.
Qed.

Lemma insert_scored_Permutation (p : list Z * Z) (l : list (list Z * Z)) :
  Engine.insert_scored p l ≡ₚ p :: l.
Proof.
  induction l as [|q l IH]; [done|]. simpl.
  destruct (_ <=? _); [done|]. rewrite IH. apply Permutation_swap.
Qed.

Lemma rank_Permutation (l : list (list Z * Z)) : Engine.rank l ≡ₚ l.
Proof.
  unfold Engine.rank. induction l as [|p l IH]; [done|]. simpl.
  by rewrite insert_scored_Permutation, IH.
Qed.

Lemma evaluate_individuals (pop : list (list Z)) (scored : list (list Z * Z)) :
  Engine.evaluate Env cfg pop = inr scored → scored.*1 = pop.
Proof.
  revert scored. induction pop as [|ind pop IH]; intros scored; simpl.
  - intros Hs. by inversion Hs.
  - destruct (Engine.fitness_func Env cfg ind _) as [s|]; [|done].
    destruct (Engine.evaluate Env cfg pop) as [e|scored']; [done|].
    intros Hs. inversion Hs; subst. simpl. f_equal. by apply IH.
Qed.

Lemma breed_length (k n : nat) (pop : list (list Z * Z))
    (first : list Z * Z) (g : Engine.Rng) :
  Forall (λ p, length p.1 = n) pop → length first.1 = n →
  Forall (λ ind, length ind = n) (Engine.breed Env cfg k pop first g).1.
Proof.
  intros Hpop Hf. revert g. induction k as [|k IH]; intros g; [by constructor|].
  cbn [Engine.breed].
  pose proof (select_Forall (λ p, length p.1 = n) pop first g Hpop Hf) as Ha.
  destruct (Engine.select Env cfg pop first g) as [a g1].
  pose proof (select_Forall (λ p, length p.1 = n) pop first g1 Hpop Hf) as Hb.
  destruct (Engine.select Env cfg pop first g1) as [b g2].
  pose proof (crossover_length a.1 b.1 g2 n Ha Hb) as Hc.
  destruct (Engine.crossover Env cfg a.1 b.1 g2) as [c g3].
  pose proof (mutate_length (Engine.mutation_rate Env cfg) c g3) as Hm.
  destruct (Engine.mutate Env cfg _ c g3) as [m g4].
  specialize (IH g4). destruct (Engine.breed Env cfg k pop first g4) as [others g5].
  simpl in *. constructor; [lia|done].
Qed.

Lemma perturbed_length (k : nat) (g : Engine.Rng) :
  Forall (λ ind, length ind = length (Engine.first_individual Env cfg))
    (Engine.perturbed Env cfg k g).1.
Proof.
  revert g. induction k as [|k IH]; intros g; [by constructor|].
  cbn [Engine.perturbed].
  pose proof (mutate_length 500 (Engine.first_individual Env cfg) g) as Hm.
  destruct (Engine.mutate Env cfg 500 _ g) as [ind g1].
  specialize (IH g1). destruct (Engine.perturbed Env cfg k g1) as [others g2].
  simpl in *. by constructor.
Qed.
End EngineLength.

(* --------------------------------------------------------------------- *)
(* The evolution engine: what every state satisfies                      *)
(* --------------------------------------------------------------------- *)

Lemma StronglySorted_snoc {A} (R : A → A → Prop) (l : list A) (x : A) :
  StronglySorted R l → Forall (λ a, R a x) l → StronglySorted R (l ++ [x]).
Proof.
  induction 1 as [|a l Hl IH Ha]; intros Hx; simpl.
  - repeat constructor.
  - apply Forall_cons in Hx as [Hax Hx]. constructor; [by apply IH|].
    apply Forall_app. split; [done|]. by repeat constructor.
Qed.

Lemma StronglySorted_related {A} (R : A → A → Prop) (l : list A) (x y : A) :
  StronglySorted R l → x ∈ l → y ∈ l → x = y ∨ R x y ∨ R y x.
Proof.
  induction 1 as [|a l Hl IH Ha]; intros Hx Hy; [inversion Hx|].
  rewrite Forall_forall in Ha.
  apply elem_of_cons in Hx as [->|Hx]; apply elem_of_cons in Hy as [->|Hy].
  - by left.
  - right. left. by apply Ha.
  - right. right. by apply Ha.
  - by apply IH.
Qed.

Section EngineInvariant.
Variable Env : Type.
Variable record_count : Env → nat.
Variable cfg : Engine.Config Env.

Let n : nat := record_count (Engine.environment Env cfg).

Lemma initialize_inv (st : Engine.State) :
  Engine.initialize Env record_count cfg = inr st → engine_inv n st.
Proof.
  unfold Engine.initialize.
  destruct (negb (_ && _ && _ && _)); [done|].
  destruct (negb _) eqn:Hlen; [done|].
  apply negb_false_iff, Nat.eqb_eq in Hlen.
  pose proof (perturbed_length Env cfg (Engine.population_size Env cfg - 1)
                (Engine.random_seed Env cfg)) as Hp.
  destruct (Engine.perturbed Env cfg _ _) as [others g].
  intros [= <-].
  unfold engine_inv. cbn. split; [|split; [|split; [|split]]].
  - constructor; [done|]. simpl in Hp. eapply Forall_impl; [exact Hp|].
    intros ind Hind. cbn in Hind. unfold n. congruence.
  - done.
  - constructor.
  - constructor.
  - done.
Qed.

Lemma step_inv (st st' : Engine.State) :
  engine_inv n st → Engine.step Env cfg st = inr st' → engine_inv n st'.
Proof.
  intros (Hpop & Hbest & Hsorted & Htrace & Hnone). unfold Engine.step.
  destruct (Engine.evaluate Env cfg (Engine.population st)) as [e|scored] eqn:Hev;
    [done|].
  apply evaluate_individuals in Hev.
  assert (Forall (λ p : list Z * Z, length p.1 = n) (Engine.rank scored)) as Hranked.
  { rewrite rank_Permutation. rewrite <- Hev in Hpop.
    by apply Forall_fmap in Hpop. }
  destruct (Engine.rank scored) as [|top ranked] eqn:Hrank.
  { intros Hst. assert (st' = st) as -> by congruence. done. }
  cbv zeta.
  pose proof (Forall_inv Hranked) as Htop. cbn beta in Htop.
  set (elites := (firstn (Engine.elitism_count Env cfg) (top :: ranked)).*1).
  pose proof (breed_length Env cfg
    (Engine.population_size Env cfg - length elites) n (top :: ranked) top
    (Engine.rng st) Hranked Htop) as Hbreed.
  destruct (Engine.breed Env cfg _ (top :: ranked) top (Engine.rng st))
    as [offspring g'].
  intros Hst. injection Hst as Hst. subst st'.
  set (improved := match Engine.best st with
                   | Some b => top.2 <? b.2
                   | None => true
                   end).
  set (best' := if improved then top else default top (Engine.best st)).
  assert (length best'.1 = n) as Hlbest.
  { unfold best'. destruct improved; [done|].
    destruct (Engine.best st) as [b|] eqn:Hb; [by apply Hbest|done]. }
  assert (Forall (λ a : nat * Z, best'.2 ≤ a.2) (Engine.trace st)) as Hle.
  { destruct (Engine.best st) as [b|] eqn:Hb.
    - eapply Forall_impl; [exact Htrace|]. intros a [_ Ha].
      specialize (Ha b eq_refl). unfold best', improved.
      destruct (Z.ltb_spec top.2 b.2); simpl; lia.
    - rewrite (Hnone eq_refl). constructor. }
  unfold engine_inv. cbn. split; [|split; [|split; [|split]]].
  - apply Forall_app. split; [|done].
    apply Forall_fmap. apply Forall_take. exact Hranked.
  - intros b Hb. inversion Hb; subst b. exact Hlbest.
  - apply StronglySorted_snoc; [done|].
    rewrite Forall_forall in Htrace, Hle. apply Forall_forall.
    intros a Ha. cbn. split; [apply (Htrace a Ha)|apply (Hle a Ha)].
  - apply Forall_app. split.
    + rewrite Forall_forall in Htrace, Hle. apply Forall_forall.
      intros a Ha. split; [destruct (Htrace a Ha); lia|].
      intros b Hb. inversion Hb; subst b. apply (Hle a Ha).
    + constructor; [|constructor]. cbn. split; [lia|].
      intros b Hb. inversion Hb; subst b. lia.
  - done.
Qed.

Lemma reachable_inv (st : Engine.State) :
  Engine.reachable Env record_count cfg st → engine_inv n st.
Proof.
  induction 1 as [st Hinit|st st' _ IH Hstep].
  - by apply initialize_inv.
  - by eapply step_inv.
Qed.

Lemma loop_reachable (k : nat) (st st' : Engine.State) :
  Engine.reachable Env record_count cfg st →
  Engine.loop Env cfg k st = inr st' →
  Engine.reachable Env record_count cfg st'.
Proof.
  revert st. induction k as [|k IH]; intros st Hr; cbn [Engine.loop].
  - by intros [= <-].
  - destruct (Engine.converged Env cfg st).
    + by intros [= <-].
    + destruct (Engine.step Env cfg st) as [e|st1] eqn:Hstep; [done|].
      apply IH. by eapply Engine.reachable_step.
Qed.

Lemma run_reachable (res : Engine.RunResult) :
  Engine.run Env record_count cfg = inr res →
  ∃ st b, Engine.reachable Env record_count cfg st
          ∧ Engine.best st = Some b
          ∧ Engine.best_individual res = b.1
          ∧ Engine.result_trace res = Engine.trace st.
Proof.
  unfold Engine.run.
  destruct (Engine.initialize Env record_count cfg) as [e|st0] eqn:Hinit; [done|].
  destruct (Engine.loop Env cfg _ st0) as [e|st] eqn:Hloop; [done|].
  destruct (Engine.best st) as [b|] eqn:Hb; [|done].
  intros [= <-]. exists st, b. cbn.
  split; [|done]. eapply loop_reachable; [|exact Hloop].
  by apply Engine.reachable_init.
Qed.
End EngineInvariant.

(* --------------------------------------------------------------------- *)
(* The evolution engine: ranking and elitism                             *)
(* --------------------------------------------------------------------- *)

Section EngineElitism.
Variable Env : Type.
Variable record_count : Env → nat.
Variable cfg : Engine.Config Env.

Lemma insert_scored_sorted (p : list Z * Z) (l : list (list Z * Z)) :
  StronglySorted (λ a b : list Z * Z, a.2 ≤ b.2) l →
  StronglySorted (λ a b : list Z * Z, a.2 ≤ b.2) (Engine.insert_scored p l).
Proof.
  induction 1 as [|q l Hl IH Hq]; simpl.
  - repeat constructor.
  - destruct (Z.leb_spec p.2 q.2) as [Hpq|Hpq].
    + constructor; [by constructor|]. constructor; [done|].
      eapply Forall_impl; [exact Hq|]. intros x Hx. cbn in *. lia.
    + constructor; [done|]. rewrite insert_scored_Permutation.
      constructor; [lia|done].
Qed.

Lemma rank_sorted (l : list (list Z * Z)) :
  StronglySorted (λ a b : list Z * Z, a.2 ≤ b.2) (Engine.rank l).
Proof.
  unfold Engine.rank. induction l as [|p l IH]; simpl; [constructor|].
  by apply insert_scored_sorted.
Qed.

(** The head of the ranking is an individual of the generation, and no
    individual of the generation scores less. *)
Lemma rank_top (scored ranked : list (list Z * Z)) (top : list Z * Z) :
  Engine.rank scored = top :: ranked →
  top ∈ scored ∧ ∀ q, q ∈ scored → top.2 ≤ q.2.
Proof.
  intros Hrank. pose proof (rank_sorted scored) as Hs.
  pose proof (rank_Permutation scored) as Hp. rewrite Hrank in Hs, Hp.
  split.
  - rewrite <- Hp. by left.
  - intros q Hq. rewrite <- Hp in Hq.
    apply StronglySorted_inv in Hs as [_ Hall]. rewrite Forall_forall in Hall.
    apply elem_of_cons in Hq as [->|Hq]; [lia|by apply Hall].
Qed.

Lemma evaluate_scored (pop : list (list Z)) (scored : list (list Z * Z)) :
  Engine.evaluate Env cfg pop = inr scored →
  (∀ q, q ∈ scored →
     q.1 ∈ pop
     ∧ Engine.fitness_func Env cfg q.1 (Engine.environment Env cfg) = Some q.2)
  ∧ (∀ ind s, ind ∈ pop →
       Engine.fitness_func Env cfg ind (Engine.environment Env cfg) = Some s →
       (ind, s) ∈ scored).
Proof.
  revert scored. induction pop as [|ind pop IH]; intros scored; simpl.
  - intros [= <-]. split; [by intros q ?%elem_of_nil|by intros ? ? ?%elem_of_nil].
  - destruct (Engine.fitness_func Env cfg ind _) as [s|] eqn:Hfit; [|done].
    destruct (Engine.evaluate Env cfg pop) as [e|scored']; [done|].
    intros [= <-]. destruct (IH scored' eq_refl) as [IH1 IH2]. split.
    + intros q [->|Hq]%elem_of_cons.
      * split; [by left|done].
      * destruct (IH1 q Hq). split; [by right|done].
    + intros ind' s' [->|Hin]%elem_of_cons Hs'.
      * assert (s' = s) as -> by congruence. left.
      * right. by apply IH2.
Qed.

Lemma breed_count (k : nat) (pop : list (list Z * Z)) (first : list Z * Z)
    (g : Engine.Rng) :
  length (Engine.breed Env cfg k pop first g).1 = k.
Proof.
  revert g. induction k as [|k IH]; intros g; [done|].
  cbn [Engine.breed].
  destruct (Engine.select Env cfg pop first g) as [a g1].
  destruct (Engine.select Env cfg pop first g1) as [b g2].
  destruct (Engine.crossover Env cfg a.1 b.1 g2) as [c g3].
  destruct (Engine.mutate Env cfg _ c g3) as [m g4].
  specialize (IH g4). destruct (Engine.breed Env cfg k pop first g4) as [others g5].
  simpl in *. by rewrite IH.
Qed.

Lemma initialize_elitism (st : Engine.State) :
  Engine.initialize Env record_count cfg = inr st → elitism_inv cfg st.
Proof.
  unfold Engine.initialize.
  destruct (negb (_ && _ && _ && _)) eqn:Hvalid; [done|].
  destruct (negb (_ =? _)%nat); [done|].
  destruct (Engine.perturbed Env cfg _ _) as [others g].
  intros [= <-]. unfold elitism_inv. cbn.
  apply negb_false_iff in Hvalid.
  apply andb_true_iff in Hvalid as [Hvalid _].
  apply andb_true_iff in Hvalid as [Hvalid _].
  apply andb_true_iff in Hvalid as [Hsize _].
  apply Nat.leb_le in Hsize.
  split; [done|]. split; [done|]. done.
Qed.

(** One generation: the score it records is the lesser of the best score
    seen before and the least score of the generation; the elites are
    the head of the ranking and open the next population; and with at
    least one elite the recorded score is the score of the first of
    them. *)
Lemma step_elitism (st st' : Engine.State) :
  elitism_inv cfg st → Engine.step Env cfg st = inr st' →
  elitism_inv cfg st'
  ∧ ∃ scored s offspring,
      Engine.evaluate Env cfg (Engine.population st) = inr scored
      ∧ Engine.trace st' = Engine.trace st ++ [(Engine.generation st, s)]
      ∧ Engine.population st'
        = (firstn (Engine.elitism_count Env cfg) (Engine.rank scored)).*1
          ++ offspring
      ∧ (∀ b, Engine.best st = Some b → s ≤ b.2)
      ∧ (∀ q, q ∈ scored → s ≤ q.2)
      ∧ ((∃ q, q ∈ scored ∧ q.2 = s) ∨ (∃ b, Engine.best st = Some b ∧ b.2 = s))
      ∧ ((1 ≤ Engine.elitism_count Env cfg)%nat →
         ∃ ind, (ind, s) ∈ scored ∧ ind ∈ Engine.population st').
Proof.
  intros (Hpop & Hsize & Hbest). unfold Engine.step.
  destruct (Engine.evaluate Env cfg (Engine.population st)) as [e|scored] eqn:Hev;
    [done|].
  pose proof (evaluate_individuals Env cfg _ _ Hev) as Hinds.
  destruct (evaluate_scored _ _ Hev) as [Hsc1 Hsc2].
  destruct (Engine.rank scored) as [|top ranked] eqn:Hrank.
  { exfalso. apply Hpop. rewrite <- Hinds.
    pose proof (rank_Permutation scored) as Hp. rewrite Hrank in Hp.
    apply Permutation_nil_l in Hp. by subst scored. }
  destruct (rank_top _ _ _ Hrank) as [Htop Hmin].
  cbv zeta.
  set (elites := (firstn (Engine.elitism_count Env cfg) (top :: ranked)).*1).
  pose proof (breed_count (Engine.population_size Env cfg - length elites)
                (top :: ranked) top (Engine.rng st)) as Hcount.
  destruct (Engine.breed Env cfg _ (top :: ranked) top (Engine.rng st))
    as [offspring g'].
  intros [= <-]. cbn [fst] in Hcount.
  set (improved := match Engine.best st with
                   | Some b => top.2 <? b.2
                   | None => true
                   end).
  set (best' := if improved then top else default top (Engine.best st)).
  assert (∀ b, Engine.best st = Some b → best'.2 ≤ b.2) as Hle.
  { intros b Hb. unfold best', improved. rewrite Hb.
    destruct (Z.ltb_spec top.2 b.2); simpl; lia. }
  assert (best'.2 ≤ top.2) as Hlt.
  { unfold best', improved. destruct (Engine.best st) as [b|]; [|done].
    destruct (Z.ltb_spec top.2 b.2); simpl; lia. }
  assert (best' = top ∨ Engine.best st = Some best') as Hwhich.
  { unfold best', improved. destruct (Engine.best st) as [b|]; [|by left].
    destruct (top.2 <? b.2); [by left|by right]. }
  assert ((1 ≤ Engine.elitism_count Env cfg)%nat →
          best'.2 = top.2 ∧ top.1 ∈ elites) as Helite.
  { intros He. split.
    - destruct Hwhich as [->|Hb]; [done|].
      destruct (Hbest He _ Hb) as (ind & Hind & Hfit).
      pose proof (Hmin _ (Hsc2 ind _ Hind Hfit)) as Hm. cbn in Hm. lia.
    - unfold elites. destruct (Engine.elitism_count Env cfg) as [|e]; [lia|].
      cbn. left. }
  split.
  - unfold elitism_inv. cbn. split; [|split; [done|]].
    + intros Hnil. apply (f_equal length) in Hnil.
      rewrite length_app, Hcount in Hnil. simpl in Hnil. lia.
    + intros He b [= <-]. destruct (Helite He) as [Heq Hin].
      exists top.1. split; [apply elem_of_app; by left|].
      rewrite Heq. by apply Hsc1.
  - exists scored, best'.2, offspring. cbn.
    split; [done|]. split; [done|]. split; [by rewrite Hrank|].
    split; [exact Hle|]. split; [|split].
    + intros q Hq. specialize (Hmin q Hq). lia.
    + destruct Hwhich as [->|Hb]; [left; by exists top|right; by exists best'].
    + intros He. destruct (Helite He) as [Heq Hin].
      exists top.1. rewrite Heq. split; [by destruct top|].
      apply elem_of_app. by left.
Qed.

Lemma reachable_elitism (st : Engine.State) :
  Engine.reachable Env record_count cfg st → elitism_inv cfg st.
Proof.
  induction 1 as [st Hinit|st st' _ IH Hstep].
  - by apply initialize_elitism.
  - by destruct (step_elitism st st' IH Hstep).
Qed.
End EngineElitism.

(** C8.  Every individual of every population the engine passes through
    has as many genes as the environment has demand records, and so has
    the best individual that run() returns. *)
Theorem engine_individuals_length (Env : Type) (record_count : Env → nat)
    (cfg : Engine.Config Env) :
  (∀ st ind, Engine.reachable Env record_count cfg st →
     ind ∈ Engine.population st →
     length ind = record_count (Engine.environment Env cfg))
  ∧ (∀ res, Engine.run Env record_count cfg = inr res →
       length (Engine.best_individual res)
       = record_count (Engine.environment Env cfg)).
Proof.
  split.
  - intros st ind Hr Hin.
    destruct (reachable_inv Env record_count cfg st Hr) as (Hpop & _).
    rewrite Forall_forall in Hpop. by apply Hpop.
  - intros res Hrun.
    destruct (run_reachable Env record_count cfg res Hrun)
      as (st & b & Hr & Hb & -> & _).
    destruct (reachable_inv Env record_count cfg st Hr) as (_ & Hbest & _).
    by apply Hbest.
Qed.

Lemma engine_individuals_length_witness :
  length [0; 0; 0; 0]
  = ExampleRun.record_count (Engine.environment _ ExampleRun.config).
Proof.
  apply (proj2 (engine_individuals_length _ ExampleRun.record_count
                  ExampleRun.config)
           {| Engine.best_individual := [0; 0; 0; 0];
              Engine.best_score := 20020;
              Engine.result_trace :=
                [(0%nat, 20020); (1%nat, 20020); (2%nat, 20020)];
              Engine.convergence_notice := false |}).
  vm_compute. reflexivity.
Defined.

(** C9.  Across the generations of one run the best-so-far score never
    rises: of two entries of the trace that run() returns, the one of
    the later generation holds a score that is at most the score of the
    earlier one.  What a generation records is at most the best score
    seen before it and at most the score of every individual of that
    generation, and it is one of these scores.  The elites, the head of
    the ranking of the generation by score, open the next population
    unchanged; with at least one elite the recorded best-so-far score is
    the score of an individual of the generation that is an individual
    of the next generation too. *)
Theorem engine_best_score_monotone (Env : Type) (record_count : Env → nat)
    (cfg : Engine.Config Env) :
  (∀ (res : Engine.RunResult) (g1 g2 : nat) (s1 s2 : Z),
     Engine.run Env record_count cfg = inr res →
     (g1, s1) ∈ Engine.result_trace res →
     (g2, s2) ∈ Engine.result_trace res →
     (g1 ≤ g2)%nat →
     s2 ≤ s1)
  ∧ (∀ st st' : Engine.State,
       Engine.reachable Env record_count cfg st →
       Engine.step Env cfg st = inr st' →
       ∃ scored s offspring,
         Engine.evaluate Env cfg (Engine.population st) = inr scored
         ∧ Engine.trace st' = Engine.trace st ++ [(Engine.generation st, s)]
         ∧ Engine.population st'
           = (firstn (Engine.elitism_count Env cfg) (Engine.rank scored)).*1
             ++ offspring
         ∧ (∀ b, Engine.best st = Some b → s ≤ b.2)
         ∧ (∀ q, q ∈ scored → s ≤ q.2)
         ∧ ((∃ q, q ∈ scored ∧ q.2 = s)
            ∨ (∃ b, Engine.best st = Some b ∧ b.2 = s))
         ∧ ((1 ≤ Engine.elitism_count Env cfg)%nat →
            ∃ ind, (ind, s) ∈ scored ∧ ind ∈ Engine.population st')).
Proof.
  split.
  - intros res g1 g2 s1 s2 Hrun H1 H2 Hg.
    destruct (run_reachable Env record_count cfg res Hrun)
      as (st & b & Hr & _ & _ & Htr).
    rewrite Htr in H1, H2.
    destruct (reachable_inv Env record_count cfg st Hr)
      as (_ & _ & Hsorted & _).
    destruct (StronglySorted_related _ _ _ _ Hsorted H1 H2) as [Heq|[Hlt|Hlt]];
      cbn in *.
    + inversion Heq. lia.
    + lia.
    + lia.
  - intros st st' Hr Hstep.
    pose proof (reachable_elitism Env record_count cfg st Hr) as Hinv.
    by destruct (step_elitism Env cfg st st' Hinv Hstep).
Qed.

Lemma engine_best_score_monotone_witness :
  25036 ≤ 35036
  ∧ ∃ scored s offspring,
      Engine.evaluate _ ExampleRun.improving
        (Engine.population ExampleRun.start) = inr scored
      ∧ Engine.trace ExampleRun.second
        = Engine.trace ExampleRun.start
          ++ [(Engine.generation ExampleRun.start, s)]
      ∧ Engine.population ExampleRun.second
        = (firstn (Engine.elitism_count _ ExampleRun.improving)
             (Engine.rank scored)).*1 ++ offspring
      ∧ (∀ b, Engine.best ExampleRun.start = Some b → s ≤ b.2)
      ∧ (∀ q, q ∈ scored → s ≤ q.2)
      ∧ ((∃ q, q ∈ scored ∧ q.2 = s)
         ∨ (∃ b, Engine.best ExampleRun.start = Some b ∧ b.2 = s))
      ∧ ((1 ≤ Engine.elitism_count _ ExampleRun.improving)%nat →
         ∃ ind, (ind, s) ∈ scored ∧ ind ∈ Engine.population ExampleRun.second).
Proof.
  split.
  - apply (proj1 (engine_best_score_monotone _ ExampleRun.record_count
                    ExampleRun.improving)
             {| Engine.best_individual := [0; 0; 1; 1];
                Engine.best_score := 25036;
                Engine.result_trace :=
                  [(0%nat, 35036); (1%nat, 25036); (2%nat, 25036);
                   (3%nat, 25036)];
                Engine.convergence_notice := false |}
             0%nat 1%nat 35036 25036).
    + vm_compute. reflexivity.
    + cbn. left.
    + cbn. right. left.
    + lia.
  - apply (proj2 (engine_best_score_monotone _ ExampleRun.record_count
                    ExampleRun.improving) ExampleRun.start ExampleRun.second).
    + apply Engine.reachable_init. vm_compute. reflexivity.
    + vm_compute. reflexivity.
Defined.

(* --------------------------------------------------------------------- *)
(* When the evaluation succeeds                                          *)
(* --------------------------------------------------------------------- *)

Lemma tables_wf_inv (t : tables) :
  tables_wf t = true →
  length (lk_position t) = length (lk_zipcode t)
  ∧ (∀ p, p ∈ lk_position t →
       ∃ i, p = Some i ∧ 0 ≤ i < Z.of_nat (length (matrix t)))
  ∧ (∀ r, r ∈ matrix t → length r = length (matrix t)).
Proof.
  unfold tables_wf. intros Hwf.
  apply andb_true_iff in Hwf as [Hwf Hrows].
  apply andb_true_iff in Hwf as [Hlen Hpos].
  apply Nat.eqb_eq in Hlen.
  rewrite forallb_forall in Hpos. rewrite forallb_forall in Hrows.
  split; [done|]. split.
  - intros p Hp. specialize (Hpos p (proj1 (list_elem_of_In _ _) Hp)).
    destruct p as [i|]; [|done]. exists i. split; [done|].
    apply andb_true_iff in Hpos as [H1 H2].
    apply Z.leb_le in H1. apply Z.ltb_lt in H2. lia.
  - intros r Hr. specialize (Hrows r (proj1 (list_elem_of_In _ _) Hr)).
    by apply Nat.eqb_eq in Hrows.
Qed.

Lemma as_index_position (col : list cell) (i : Z) :
  (∀ p, p ∈ col → ∃ j, p = Some j) → as_index col (Some i) = inr i.
Proof.
  intros Hcol. unfold as_index.
  replace (forallb _ col) with true; [done|].
  symmetry. apply forallb_forall. intros c Hc.
  destruct (Hcol c (proj2 (list_elem_of_In _ _) Hc)) as [j ->]. done.
Qed.

Lemma stop_distance_present (t : tables) (pzip zip : Z) :
  tables_wf t = true →
  Some pzip ∈ lk_zipcode t → Some zip ∈ lk_zipcode t →
  ∃ d, stop_distance t pzip zip = inr d.
Proof.
  intros Hwf Ho Hd.
  destruct (tables_wf_inv t Hwf) as (Hlen & Hpos & Hrows).
  unfold stop_distance.
  destruct (loc_first_present _ _ _ Hlen Ho) as (po & -> & Hpo).
  destruct (loc_first_present _ _ _ Hlen Hd) as (pd & -> & Hpd).
  cbn [ebind].
  destruct (Hpos po Hpo) as (io & -> & Hio).
  destruct (Hpos pd Hpd) as (id & -> & Hid).
  assert (∀ p, p ∈ lk_position t → ∃ j, p = Some j) as Hsome.
  { intros p Hp. destruct (Hpos p Hp) as (j & -> & _). by exists j. }
  rewrite (as_index_position _ io Hsome). cbn [ebind].
  destruct (py_getitem_in_range (matrix t) io) as (mr & -> & Hmr); [lia|].
  cbn [ebind]. rewrite (as_index_position _ id Hsome). cbn [ebind].
  destruct (py_getitem_in_range mr id) as (d & -> & _).
  { rewrite (Hrows mr Hmr). lia. }
  by exists d.
Qed.

Lemma legs_present (t : tables) (cs pcs zs pzs : list cell) :
  tables_wf t = true →
  Forall (λ z, ∀ v, z = Some v → Some v ∈ lk_zipcode t) zs →
  Forall (λ z, ∀ v, z = Some v → Some v ∈ lk_zipcode t) pzs →
  ∃ ds, legs t cs pcs zs pzs = inr ds.
Proof.
  intros Hwf. revert pcs zs pzs.
  induction cs as [|c cs IH]; intros pcs zs pzs Hzs Hpzs; [by exists []|].
  destruct pcs as [|pc pcs]; [by exists []|].
  destruct zs as [|z zs]; [by exists []|].
  destruct pzs as [|pz pzs]; [by exists []|].
  apply Forall_cons in Hzs as [Hz Hzs]. apply Forall_cons in Hpzs as [Hpz Hpzs].
  destruct (IH pcs zs pzs Hzs Hpzs) as [ds Hds].
  cbn [legs].
  assert (∃ d, row_leg t c pc z pz = inr d) as [d Hd].
  { unfold row_leg. destruct z as [zip|]; [|by eexists].
    destruct pz as [pzip|]; [|by eexists].
    destruct (cell_ne c pc); [by eexists|].
    destruct (stop_distance_present t pzip zip Hwf) as [d0 ->];
      [by apply Hpz|by apply Hz|]. by eexists. }
  rewrite Hd, Hds. cbn [ebind]. by eexists.
Qed.

Lemma Forall_prevs (P : cell → Prop) (p : cell) (s : list cell) :
  P p → Forall P s → Forall P (prevs p s).
Proof.
  revert p. induction s as [|x s IH]; intros p Hp Hs; [constructor|].
  apply Forall_cons in Hs as [Hx Hs]. simpl. constructor; [done|by apply IH].
Qed.

Lemma Forall_ndtake {A} (P : A → Prop) (p : list nat) (l : list A) :
  Forall P l → Forall P (ndtake p l).
Proof.
  intros Hl. apply Forall_forall. intros x Hx.
  rewrite Forall_forall in Hl. apply Hl. by eapply elem_of_ndtake.
Qed.

Lemma Forall_reindexed (P : cell → Prop) (n k : nat) (c : list cell) :
  P None → Forall P c → Forall P (reindexed n k c).
Proof.
  intros HN Hc. unfold reindexed. case_bool_decide; [|done].
  apply Forall_replicate. done.
Qed.

Lemma tables_wf_float (t : tables) :
  tables_wf (float_tables t) = tables_wf t.
Proof. unfold tables_wf, float_tables. cbn. by rewrite length_to_float. Qed.

Lemma listed_elem (t : tables) (z : Z) :
  Some z ∈ lk_zipcode t → listed t z.
Proof.
  intros Hz. unfold listed, to_float.
  apply list_elem_of_fmap. by exists (Some z).
Qed.

Lemma Forall_to_float_listed (t : tables) (zs : list cell) :
  Forall (λ z, ∀ v, z = Some v → listed t v) zs →
  Forall (λ z, ∀ v, z = Some v → Some v ∈ lk_zipcode (float_tables t))
    (to_float zs).
Proof.
  intros Hzs. unfold to_float. apply Forall_fmap.
  eapply Forall_impl; [exact Hzs|]. intros [z|] Hz v; simpl; [|done].
  intros [= <-]. by apply Hz.
Qed.

Lemma Forall_shift (P : cell → Prop) (s : list cell) :
  P None → Forall P (to_float s) → Forall P (shift s).
Proof.
  intros HN Hs. destruct s as [|x s]; [constructor|]. unfold shift.
  constructor; [done|]. rewrite removelast_firstn_len. by apply Forall_take.
Qed.

Lemma score_present `{ArgSort} (individual : list Z) (n : nat)
    (zs ws ps : list cell) (t : tables) :
  tables_wf t = true →
  (∀ z, Some z ∈ zs → listed t z) →
  length individual = n ∨ (n = 0%nat ∧ (0 < length individual)%nat) →
  ∃ s, score individual n zs ws ps t = inr s.
Proof.
  intros Hwf Hzs Hlen. unfold score.
  rewrite bool_decide_eq_true_2 by done. cbv zeta.
  set (zs' := ndtake _ (reindexed _ _ zs)).
  assert (Forall (λ z, ∀ v, z = Some v → listed t v) zs') as Hall.
  { apply Forall_ndtake, Forall_reindexed; [done|].
    apply Forall_forall. intros z Hz v ->. by apply Hzs. }
  apply Forall_to_float_listed in Hall.
  destruct (legs_present (float_tables t)
              (to_float (ndtake (nargsort (Some <$> individual))
                           (Some <$> individual)))
              (shift (ndtake (nargsort (Some <$> individual)) (Some <$> individual)))
              (to_float zs') (shift zs')) as [ds ->].
  - by rewrite tables_wf_float.
  - exact Hall.
  - by apply Forall_shift.
  - cbn [ebind]. by eexists.
Qed.

(** X1.  On an environment whose lookup table lists every zip code of the
    demand table and whose positions are rows and columns of a square
    distance matrix, the evaluator returns a score for every individual
    that has one gene per demand record: no lookup fails. *)
Theorem fitness_func_returns `{ArgSort}
    (individual : list Z) (environment : Environment) (h : heap)
    (zs ws ps : list cell) (t : tables) :
  env_ok h environment zs ws ps t →
  tables_wf t = true →
  (∀ z, Some z ∈ zs → Some z ∈ lk_zipcode t) →
  length individual = length zs →
  ∃ s h', fitness_func individual environment h = (inr s, h').
Proof.
  intros Hok Hwf Hzs Hlen.
  destruct (fitness_func_run individual environment h zs ws ps t Hok) as [h' E].
  destruct (score_present individual (length zs) zs ws ps t Hwf) as [s Hs];
    [intros z Hz; by apply listed_elem, Hzs|by left|].
  exists s, h'. by rewrite E, Hs.
Qed.

Lemma fitness_func_returns_witness :
  ∃ s h', fitness_func (H:=stable_sorting) [1; 0; 1; 0] Example.environment
            Example.heap0 = (inr s, h').
Proof.
  apply (fitness_func_returns (H:=stable_sorting) [1; 0; 1; 0]
           Example.environment Example.heap0 Example.zipcodes Example.weights
           Example.pallet_counts Example.tables0).
  - split; vm_compute; reflexivity.
  - vm_compute. reflexivity.
  - intros z Hz. unfold Example.zipcodes in Hz. cbn [lk_zipcode Example.tables0].
    repeat (apply elem_of_cons in Hz as [Hz|Hz];
            [inversion Hz; subst z; repeat first [by left | right]|]).
    inversion Hz.
  - reflexivity.
Defined.

(* --------------------------------------------------------------------- *)
(* What the evaluator raises                                             *)
(* --------------------------------------------------------------------- *)

Lemma loc_first_elem (keys poss : list cell) (z : Z) (p : cell) :
  loc_first keys poss z = inr p → p ∈ poss.
Proof.
  revert poss. induction keys as [|k keys IH]; intros poss; simpl; [done|].
  destruct poss as [|q poss]; [done|].
  case_bool_decide.
  - intros [= ->]. by left.
  - intros Hl. right. by apply IH.
Qed.

Lemma as_index_TypeError (col : list cell) (c : cell) (e : exn) :
  c ∈ col → as_index col c = inl e → None ∈ col.
Proof.
  intros Hc. unfold as_index. destruct c as [i|]; [|done].
  destruct (forallb _ col) eqn:Hall; [done|]. intros _.
  apply not_true_iff_false in Hall.
  destruct (decide (None ∈ col)) as [|Hn]; [done|].
  exfalso. apply Hall. apply forallb_forall. intros [j|] Hin; [done|].
  exfalso. apply Hn. by apply list_elem_of_In.
Qed.

Lemma stop_distance_TypeError (t : tables) (a b : Z) :
  stop_distance t a b = inl TypeError → None ∈ lk_position t.
Proof.
  unfold stop_distance.
  destruct (loc_first _ _ a) as [e|po] eqn:Ho; cbn [ebind].
  { intros [= ->]. by apply loc_first_error in Ho. }
  destruct (loc_first _ _ b) as [e|pd] eqn:Hd; cbn [ebind].
  { intros [= ->]. by apply loc_first_error in Hd. }
  apply loc_first_elem in Ho, Hd.
  destruct (as_index _ po) as [e|io] eqn:Hio; cbn [ebind].
  { intros _. exact (as_index_TypeError _ _ _ Ho Hio). }
  destruct (py_getitem _ io) as [e|mr] eqn:Hmr; cbn [ebind].
  { intros [= ->]. by apply py_getitem_error in Hmr. }
  destruct (as_index _ pd) as [e|id] eqn:Hid; cbn [ebind].
  { intros _. exact (as_index_TypeError _ _ _ Hd Hid). }
  intros Hg. by apply py_getitem_error in Hg.
Qed.

Lemma legs_TypeError (t : tables) (cs pcs zs pzs : list cell) :
  legs t cs pcs zs pzs = inl TypeError → None ∈ lk_position t.
Proof.
  revert pcs zs pzs. induction cs as [|c cs IH]; intros pcs zs pzs; [done|].
  destruct pcs as [|pc pcs]; [done|]. destruct zs as [|z zs]; [done|].
  destruct pzs as [|pz pzs]; [done|]. cbn [legs].
  destruct (row_leg t c pc z pz) as [e|d] eqn:Hr; cbn [ebind].
  - intros [= ->]. unfold row_leg in Hr.
    destruct z as [zip|]; [|done]. destruct pz as [pzip|]; [|done].
    destruct (cell_ne c pc); [done|].
    destruct (stop_distance t pzip zip) as [e|d] eqn:Hs; [|done].
    cbn [ebind] in Hr. inversion Hr; subst e.
    by eapply stop_distance_TypeError.
  - destruct (legs t cs pcs zs pzs) as [e|ds] eqn:Hl; cbn [ebind]; [|done].
    intros [= ->]. by eapply IH.
Qed.

Lemma replicate_None_all (n : nat) (p : list nat) :
  Forall (λ c : cell, c = None) (ndtake p (replicate n None)).
Proof. apply Forall_ndtake, Forall_replicate. done. Qed.

Lemma legs_no_zip (t : tables) (cs pcs zs pzs : list cell) :
  Forall (λ c, c = None) zs → ∃ ds, legs t cs pcs zs pzs = inr ds.
Proof.
  revert pcs zs pzs. induction cs as [|c cs IH]; intros pcs zs pzs Hzs;
    [by eexists|].
  destruct pcs as [|pc pcs]; [by eexists|]. destruct zs as [|z zs]; [by eexists|].
  destruct pzs as [|pz pzs]; [by eexists|].
  apply Forall_cons in Hzs as [-> Hzs].
  destruct (IH pcs zs pzs Hzs) as [ds Hds].
  cbn [legs row_leg ebind]. rewrite Hds. cbn [ebind]. by eexists.
Qed.

Lemma to_float_all_None (c : list cell) :
  Forall (λ x : cell, x = None) c → Forall (λ x : cell, x = None) (to_float c).
Proof.
  intros Hc. unfold to_float. apply Forall_fmap.
  eapply Forall_impl; [exact Hc|]. by intros x ->.
Qed.

Lemma score_error `{ArgSort} (individual : list Z) (n : nat)
    (zs ws ps : list cell) (t : tables) (e : exn) :
  score individual n zs ws ps t = inl e →
  (e = ValueError ∧ length individual ≠ n)
  ∨ (e = IndexError ∧ length individual = n)
  ∨ (e = TypeError ∧ length individual = n ∧ None ∈ lk_position t).
Proof.
  unfold score. case_bool_decide as Hk.
  - cbv zeta. intros Hs. right.
    assert (length individual = n) as Hlen.
    { destruct Hk as [Hk|[-> Hk]]; [done|]. exfalso.
      unfold reindexed in Hs. rewrite bool_decide_eq_true_2 in Hs by done.
      destruct (legs_no_zip (float_tables t)
        (to_float (ndtake (nargsort (Some <$> individual)) (Some <$> individual)))
        (shift (ndtake (nargsort (Some <$> individual)) (Some <$> individual)))
        (to_float (ndtake (nargsort (Some <$> individual))
           (replicate (length individual) None)))
        (shift (ndtake (nargsort (Some <$> individual))
           (replicate (length individual) None)))) as [ds Hds].
      { apply to_float_all_None, replicate_None_all. }
      rewrite Hds in Hs. done. }
    destruct (legs _ _ _ _ _) as [e'|ds] eqn:Hl; cbn [ebind] in Hs; [|done].
    inversion Hs; subst e'.
    destruct (legs_error _ _ _ _ _ _ Hl) as [->| ->]; [by left|right].
    split; [done|]. split; [done|].
    by apply (legs_TypeError (float_tables t)) in Hl.
  - intros [= <-]. left. split; [done|]. intros Hn. apply Hk. by left.
Qed.

(** X2.  What the evaluator raises on an environment that holds the three
    columns and the two tables: ValueError when the individual and the
    demand table differ in length, IndexError or TypeError from a lookup
    once the lengths agree, TypeError only when the position column
    holds a NaN; KeyError and DataError never. *)
Theorem fitness_func_raises `{ArgSort}
    (individual : list Z) (environment : Environment) (h h' : heap)
    (e : exn) (zs ws ps : list cell) (t : tables) :
  env_ok h environment zs ws ps t →
  fitness_func individual environment h = (inl e, h') →
  (e = ValueError ∧ length individual ≠ length zs)
  ∨ (e = IndexError ∧ length individual = length zs)
  ∨ (e = TypeError ∧ length individual = length zs ∧ None ∈ lk_position t).
Proof.
  intros Hok Hrun.
  destruct (fitness_func_run individual environment h zs ws ps t Hok) as [h2 E].
  rewrite E in Hrun. inversion Hrun as [[Hs Hh]].
  by apply score_error in Hs.
Qed.

Lemma fitness_func_raises_witness :
  (ValueError = ValueError ∧ length [1; 0; 1] ≠ length Example.zipcodes)
  ∨ (ValueError = IndexError ∧ length [1; 0; 1] = length Example.zipcodes)
  ∨ (ValueError = TypeError ∧ length [1; 0; 1] = length Example.zipcodes
     ∧ None ∈ lk_position Example.tables0).
Proof.
  apply (fitness_func_raises (H:=stable_sorting) [1; 0; 1] Example.environment
           Example.heap0
           (fitness_func (H:=stable_sorting) [1; 0; 1] Example.environment
              Example.heap0).2
           ValueError Example.zipcodes Example.weights Example.pallet_counts
           Example.tables0).
  - split; vm_compute; reflexivity.
  - vm_compute. reflexivity.
Defined.

(* --------------------------------------------------------------------- *)
(* One stop per route                                                    *)
(* --------------------------------------------------------------------- *)

Lemma remove_dups_NoDup (l : list Z) : NoDup l → remove_dups l = l.
Proof.
  induction 1 as [|x l Hx Hl IH]; [done|]. simpl.
  destruct (decide_rel elem_of x l); [done|]. by rewrite IH.
Qed.

Lemma group_rows_absent (r : Z) (rs : list Z) (v : list cell) :
  r ∉ rs → group_rows r (Some <$> rs) v = [].
Proof.
  revert v. induction rs as [|x rs IH]; intros v Hr; [done|].
  csimpl. destruct v as [|c v]; [done|].
  rewrite bool_decide_eq_false_2.
  - apply IH. intros Hin. apply Hr. by right.
  - intros [= ->]. apply Hr. by left.
Qed.

Lemma one_stop_sums (F : Z → Z) (rs : list Z) (v : list cell) :
  NoDup rs → length v = length rs →
  map (λ r, F (series_sum (group_rows r (Some <$> rs) v))) rs
  = map (λ c, F (default 0 c)) v.
Proof.
  intros Hnd. revert v.
  induction Hnd as [|x rs Hx Hnd IH]; intros v Hlen.
  - by destruct v.
  - destruct v as [|c v]; [done|]. simpl in Hlen. csimpl.
    rewrite bool_decide_eq_true_2 by done.
    rewrite group_rows_absent by done. f_equal.
    + unfold series_sum. simpl. f_equal. lia.
    + rewrite <- IH by lia. apply map_ext_in. intros r Hin.
      rewrite bool_decide_eq_false_2; [done|].
      intros [= ->]. apply Hx. by apply list_elem_of_In.
Qed.

Lemma legs_distinct (t : tables) (rs : list Z) (pc : cell) (zs pzs : list cell) :
  NoDup rs → (∀ r, pc = Some r → r ∉ rs) →
  ∃ ds, legs t (Some <$> rs) (prevs pc (Some <$> rs)) zs pzs = inr ds
        ∧ Forall (λ c, c = None) ds.
Proof.
  intros Hnd. revert pc zs pzs.
  induction Hnd as [|r rs Hr Hnd IH]; intros pc zs pzs Hpc; [by exists []|].
  csimpl. destruct zs as [|z zs]; [by exists []|].
  destruct pzs as [|pz pzs]; [by exists []|].
  destruct (IH (Some r) zs pzs) as (ds & Hds & Hnone).
  { intros r' [= <-]. done. }
  exists (None :: ds). split; [|by constructor].
  assert (row_leg t (Some r) pc z pz = inr None) as ->.
  { unfold row_leg. destruct z as [zip|]; [|done]. destruct pz as [pzip|]; [|done].
    replace (cell_ne (Some r) pc) with true; [done|].
    destruct pc as [r'|]; [|done]. simpl. symmetry.
    apply negb_true_iff, Z.eqb_neq. intros ->.
    apply (Hpc r'); [done|by left]. }
  cbn [ebind]. by rewrite Hds.
Qed.

Lemma series_sum_all_None (c : list cell) :
  Forall (λ x : cell, x = None) c → series_sum c = 0.
Proof. induction 1 as [|x c -> _ IH]; [done|]. by rewrite series_sum_cons. Qed.

Lemma result_series_all_None (ds : list cell) :
  Forall (λ x : cell, x = None) ds → series_sum (result_series ds) = 0.
Proof.
  intros Hds. unfold result_series. apply series_sum_all_None.
  destruct (is_float ds); [by apply to_float_all_None|done].
Qed.

Lemma to_float_Some (rs : list Z) :
  to_float (Some <$> rs) = Some <$> (f64 <$> rs).
Proof. unfold to_float. by rewrite <- !list_fmap_compose. Qed.

Lemma shift_prevs (s : list cell) : shift s = prevs None (to_float s).
Proof.
  destruct s as [|x s]; [done|]. unfold shift.
  by rewrite to_float_cons, removelast_prevs.
Qed.

Lemma shift_Some (rs : list Z) :
  shift (Some <$> rs) = prevs None (Some <$> (f64 <$> rs)).
Proof. by rewrite shift_prevs, to_float_Some. Qed.

Lemma exact_abs_deviation_sum_records (bound : Z) (individual : list Z)
    (v : list cell) :
  NoDup individual → length v = length individual →
  exact_abs_deviation_sum bound (exact_groupby_sum (Some <$> individual) v)
  = sum_Z (map (λ c, Z.abs (bound - default 0 c)) v).
Proof.
  intros Hnd Hlen.
  pose proof (exact_abs_deviation_sum_routes bound individual v
                (length individual) Hlen) as E.
  rewrite reindexed_same in E. rewrite E, remove_dups_NoDup by done.
  by rewrite (one_stop_sums (λ s, Z.abs (bound - s))).
Qed.

Lemma score_one_stop_routes `{ArgSort} (individual : list Z)
    (zs ws ps : list cell) (t : tables) :
  NoDup (f64 <$> individual) → length individual = length zs →
  length ws = length zs → length ps = length zs →
  45025 * Z.of_nat (length individual) + sum_abs ws + sum_abs ps ≤ 2 ^ 53 →
  score individual (length zs) zs ws ps t
  = inr (sum_Z (map (λ w, Z.abs (max_weight - default 0 w)) ws)
         + sum_Z (map (λ p, Z.abs (max_pallets - default 0 p)) ps)).
Proof.
  intros Hnd Hlen Hws Hps Hrange.
  assert (NoDup individual) as Hnd' by (by eapply NoDup_fmap_1).
  unfold score.
  rewrite bool_decide_eq_true_2 by (by left). cbv zeta.
  rewrite Hlen, !reindexed_same.
  change (scalar_add (abs_deviation_sum max_weight
                        (is_float ws, groupby_sum (Some <$> individual) ws))
                     (abs_deviation_sum max_pallets
                        (is_float ps, groupby_sum (Some <$> individual) ps)))
    with (capacity_penalty individual ws ps).
  rewrite nargsort_Some, ndtake_fmap, to_float_Some, shift_Some.
  destruct (legs_distinct (float_tables t)
              (f64 <$> ndtake (argsort individual) individual) None
              (to_float (ndtake (argsort individual) zs))
              (shift (ndtake (argsort individual) zs)))
    as (ds & -> & Hnone).
  - by rewrite (ndtake_Permutation _ _ (argsort_perm individual)).
  - done.
  - cbn [ebind]. f_equal. rewrite scalar_add_float.
    rewrite (result_series_all_None ds Hnone).
    destruct (capacity_penalty_value individual ws ps) as (HW & HP & Hcap);
      [lia|].
    rewrite (exact_abs_deviation_sum_records max_weight) in HW, Hcap
      by (done || lia).
    rewrite (exact_abs_deviation_sum_records max_pallets) in HP, Hcap
      by (done || lia).
    destruct Hcap as [-> | [-> | [-> | ->]]]; rewrite ?f64_small by lia; lia.
Qed.

(** X3.  An individual that gives every demand record a route of its own,
    with route ids that differ as the float64 numbers the sorted table
    holds, is charged no distance and needs no lookup: as long as the
    capacity bounds, the weights and the pallet counts add up to at most
    2^53, its score is the sum, over the records, of the distance of the
    record's weight from 45000 and of its pallet count from 25, whatever
    the lookup table and the distance matrix hold. *)
Theorem fitness_func_one_stop_routes `{ArgSort}
    (individual : list Z) (environment : Environment) (h : heap)
    (zs ws ps : list cell) (t : tables) :
  env_ok h environment zs ws ps t →
  NoDup (f64 <$> individual) →
  length individual = length zs →
  45025 * Z.of_nat (length individual) + sum_abs ws + sum_abs ps ≤ 2 ^ 53 →
  ∃ h', fitness_func individual environment h
        = (inr (sum_Z (map (λ w, Z.abs (max_weight - default 0 w)) ws)
                + sum_Z (map (λ p, Z.abs (max_pallets - default 0 p)) ps)), h').
Proof.
  intros Hok Hnd Hlen Hrange.
  destruct (fitness_func_run individual environment h zs ws ps t Hok) as [h' E].
  destruct (env_ok_lengths _ _ _ _ _ _ Hok) as [Hws Hps].
  exists h'. by rewrite E, score_one_stop_routes.
Qed.

Lemma fitness_func_one_stop_routes_witness :
  ∃ h', fitness_func (H:=stable_sorting) [7; 3; 5; 1] Example.environment
          Example.heap0
        = (inr (sum_Z (map (λ w, Z.abs (max_weight - default 0 w))
                         Example.weights)
                + sum_Z (map (λ p, Z.abs (max_pallets - default 0 p))
                           Example.pallet_counts)), h').
Proof.
  apply (fitness_func_one_stop_routes (H:=stable_sorting) [7; 3; 5; 1]
           Example.environment Example.heap0 Example.zipcodes Example.weights
           Example.pallet_counts Example.tables0).
  - split; vm_compute; reflexivity.
  - apply (bool_decide_unpack _). vm_compute. exact I.
  - reflexivity.
  - vm_compute. discriminate.
Defined.

(* --------------------------------------------------------------------- *)
(* The rows that drop_duplicates keeps                                   *)
(* --------------------------------------------------------------------- *)

Section FirstOccurrences.
Context {A : Type} `{EqDecision A}.

Lemma first_occurrences_bounds (seen l : list A) (i j : nat) :
  j ∈ first_occurrences seen l i → (i ≤ j < i + length l)%nat.
Proof.
  revert seen i. induction l as [|x l IH]; intros seen i; simpl.
  - intros Hin. inversion Hin.
  - case_bool_decide.
    + intros Hin. apply IH in Hin. lia.
    + intros Hin. apply elem_of_cons in Hin as [->|Hin]; [lia|].
      apply IH in Hin. lia.
Qed.

Lemma first_occurrences_sorted (seen l : list A) (i : nat) :
  StronglySorted lt (first_occurrences seen l i).
Proof.
  revert seen i. induction l as [|x l IH]; intros seen i; simpl; [constructor|].
  case_bool_decide; [apply IH|].
  constructor; [apply IH|].
  apply Forall_forall. intros j Hj. apply first_occurrences_bounds in Hj. lia.
Qed.

Lemma first_occurrences_seen (s1 s2 l : list A) (i : nat) :
  (∀ x, x ∈ s1 ↔ x ∈ s2) →
  first_occurrences s1 l i = first_occurrences s2 l i.
Proof.
  revert s1 s2 i. induction l as [|x l IH]; intros s1 s2 i Hs; simpl; [done|].
  destruct (decide (x ∈ s1)) as [H1|H1].
  - rewrite !bool_decide_eq_true_2 by (done || by apply Hs). by apply IH.
  - rewrite !bool_decide_eq_false_2 by (done || by rewrite <- Hs).
    f_equal. apply IH. intros y. rewrite !elem_of_cons. by rewrite Hs.
Qed.

Lemma elem_of_first_occurrences (seen l : list A) (i j : nat) (x : A) :
  l !! j = Some x → x ∉ seen → x ∉ take j l →
  (i + j)%nat ∈ first_occurrences seen l i.
Proof.
  revert seen i j. induction l as [|y l IH]; intros seen i j Hj Hseen Hbefore.
  - done.
  - simpl. destruct j as [|j].
    + simpl in Hj. inversion Hj; subst y.
      rewrite bool_decide_eq_false_2 by done. rewrite Nat.add_0_r. by left.
    + simpl in Hj, Hbefore.
      assert (x ≠ y) as Hne by (intros ->; apply Hbefore; by left).
      assert (x ∉ take j l) as Hb by (intros Hin; apply Hbefore; by right).
      replace (i + S j)%nat with (S i + j)%nat by lia.
      case_bool_decide.
      * by apply IH.
      * right. apply IH; [done| |done].
        intros Hin. apply elem_of_cons in Hin as [?|?]; done.
Qed.

Lemma first_occurrences_covers (seen l : list A) (i : nat) (x : A) :
  x ∈ l → x ∉ seen →
  ∃ j, (i + j)%nat ∈ first_occurrences seen l i ∧ l !! j = Some x.
Proof.
  revert seen i. induction l as [|y l IH]; intros seen i Hin Hseen.
  - inversion Hin.
  - destruct (decide (x = y)) as [->|Hne].
    + exists O. split; [|done]. simpl.
      rewrite bool_decide_eq_false_2 by done. rewrite Nat.add_0_r. by left.
    + apply elem_of_cons in Hin as [?|Hin]; [done|]. simpl.
      case_bool_decide.
      * destruct (IH seen (S i) Hin Hseen) as (j & Hj & Hl).
        exists (S j). split; [|done]. by replace (i + S j)%nat with (S i + j)%nat by lia.
      * destruct (IH (y :: seen) (S i) Hin) as (j & Hj & Hl).
        { intros Hx. apply elem_of_cons in Hx as [?|?]; done. }
        exists (S j). split; [|done]. right.
        by replace (i + S j)%nat with (S i + j)%nat by lia.
Qed.

End FirstOccurrences.

Lemma first_occurrences_fmap {A B} `{EqDecision A} `{EqDecision B}
    (g : A → B) (seen l : list A) (i : nat) :
  Inj (=) (=) g →
  first_occurrences (g <$> seen) (g <$> l) i = first_occurrences seen l i.
Proof.
  intros Hinj. revert seen i.
  induction l as [|x l IH]; intros seen i; csimpl; [done|].
  destruct (decide (x ∈ seen)) as [Hx|Hx].
  - rewrite !bool_decide_eq_true_2; [apply IH|done|].
    apply list_elem_of_fmap. by exists x.
  - rewrite !bool_decide_eq_false_2; [|done|].
    + f_equal. apply (IH (x :: seen)).
    + intros Hin. apply list_elem_of_fmap in Hin as (y & Hy & Hin).
      apply Hinj in Hy. by subst y.
Qed.

Lemma StronglySorted_lt_lookup (l : list nat) (p q a b : nat) :
  StronglySorted lt l → l !! p = Some a → l !! q = Some b →
  (p < q)%nat → (a < b)%nat.
Proof.
  intros Hs. revert p q. induction Hs as [|x l Hs IH Hall]; intros p q Hp Hq Hlt.
  - done.
  - destruct q as [|q]; [lia|]. simpl in Hq. destruct p as [|p].
    + simpl in Hp. inversion Hp; subst x.
      rewrite Forall_forall in Hall. apply Hall.
      by eapply list_elem_of_lookup_2.
    + simpl in Hp. apply (IH p q); [done|done|lia].
Qed.

Lemma StronglySorted_lt_NoDup (l : list nat) : StronglySorted lt l → NoDup l.
Proof.
  induction 1 as [|x l Hs IH Hall]; constructor; [|done].
  intros Hin. rewrite Forall_forall in Hall. specialize (Hall x Hin). lia.
Qed.

Lemma label_position_lookup (labels : list nat) (p i : nat) :
  NoDup labels → labels !! p = Some i → label_position labels i = Some p.
Proof.
  intros Hnd. revert p. induction Hnd as [|x l Hx Hnd IH]; intros p Hp; [done|].
  simpl. destruct p as [|p].
  - simpl in Hp. inversion Hp; subst x. by rewrite bool_decide_eq_true_2.
  - simpl in Hp. rewrite bool_decide_eq_false_2.
    + by rewrite (IH p Hp).
    + intros ->. apply Hx. by eapply list_elem_of_lookup_2.
Qed.

Lemma ndtake_lookup {A} (p : list nat) (l : list A) (q i : nat) (x : A) :
  (∀ j, j ∈ p → (j < length l)%nat) →
  p !! q = Some i → l !! i = Some x → ndtake p l !! q = Some x.
Proof.
  revert q. induction p as [|j p IH]; intros q Hlt Hq Hi; [done|].
  unfold ndtake. csimpl. fold (ndtake p l).
  destruct (lookup_lt_is_Some_2 l j) as [y Hy]; [apply Hlt; by left|].
  rewrite Hy. csimpl. destruct q as [|q].
  - simpl in Hq. inversion Hq; subst j. simpl. congruence.
  - simpl in Hq. simpl. apply IH; [|done|done].
    intros j' Hj'. apply Hlt. by right.
Qed.

(* --------------------------------------------------------------------- *)
(* The tables the set-up builds                                          *)
(* --------------------------------------------------------------------- *)

Lemma lookup_triples (zs las los : list Z) (j : nat) (x : Z * Z * Z) :
  zip (zip zs las) los !! j = Some x
  ↔ zs !! j = Some x.1.1 ∧ las !! j = Some x.1.2 ∧ los !! j = Some x.2.
Proof.
  destruct x as [[z la] lo]. simpl.
  rewrite lookup_zip_with_Some. split.
  - intros ([z' la'] & lo' & Heq & Hzl & Hlo). inversion Heq; subst.
    apply lookup_zip_with_Some in Hzl as (z'' & la'' & Heq' & Hz & Hla).
    inversion Heq'; subst. done.
  - intros (Hz & Hla & Hlo). exists (z, la), lo. split; [done|]. split; [|done].
    apply lookup_zip_with_Some. by exists z, la.
Qed.

Lemma length_triples (zs las los : list Z) :
  length las = length zs → length los = length zs →
  length (zip (zip zs las) los) = length zs.
Proof. intros Hla Hlo. rewrite !length_zip_with. lia. Qed.

Lemma kept_records_lt (zs las los : list Z) (j : nat) :
  length las = length zs → length los = length zs →
  j ∈ kept_records zs las los → (j < length zs)%nat.
Proof.
  intros Hla Hlo Hj. apply first_occurrences_bounds in Hj.
  rewrite length_triples in Hj by done. lia.
Qed.

Lemma kept_records_first (zs las los : list Z) (a : nat) (z : Z) :
  length las = length zs → length los = length zs →
  zs !! a = Some z → (∀ j, (j < a)%nat → zs !! j ≠ Some z) →
  a ∈ kept_records zs las los.
Proof.
  intros Hla Hlo Ha Hfirst.
  destruct (lookup_lt_is_Some_2 (zip (zip zs las) los) a) as [x Hx].
  { rewrite length_triples by done. by eapply lookup_lt_Some. }
  pose proof (proj1 (lookup_triples _ _ _ _ _) Hx) as (Hz & _).
  change a with (0 + a)%nat.
  eapply elem_of_first_occurrences; [exact Hx|by apply not_elem_of_nil|].
  intros Hin. apply elem_of_take in Hin as (j & Hj & Hlt).
  apply lookup_triples in Hj as (Hzj & _).
  apply (Hfirst j Hlt). congruence.
Qed.

Lemma elem_of_ndtake_2 {A} (p : list nat) (l : list A) (j : nat) (x : A) :
  j ∈ p → l !! j = Some x → x ∈ ndtake p l.
Proof. intros Hj Hx. apply list_elem_of_omap. by exists j. Qed.

Lemma first_index (zs : list Z) (z : Z) :
  z ∈ zs → ∃ a, zs !! a = Some z ∧ ∀ j, (j < a)%nat → zs !! j ≠ Some z.
Proof.
  induction zs as [|y zs IH]; intros Hz; [inversion Hz|].
  destruct (decide (y = z)) as [->|Hne].
  - exists O. split; [done|]. intros j Hj. lia.
  - apply elem_of_cons in Hz as [?|Hz]; [done|].
    destruct (IH Hz) as (a & Ha & Hfirst).
    exists (S a). split; [done|].
    intros [|j] Hj; simpl; [congruence|]. apply Hfirst. lia.
Qed.

Lemma built_tables_zipcode (haversine : Z * Z → Z * Z → Z)
    (times_1_17 : Z → Z)
    (zs las los : list Z) (z : Z) :
  length las = length zs → length los = length zs →
  z ∈ zs → Some z ∈ lk_zipcode (built_tables haversine times_1_17 zs las los).
Proof.
  intros Hla Hlo Hz. cbn [built_tables lk_zipcode].
  apply list_elem_of_fmap. exists z. split; [done|].
  destruct (first_index zs z Hz) as (a & Ha & Hfirst).
  eapply elem_of_ndtake_2; [|exact Ha].
  by eapply kept_records_first.
Qed.

Lemma length_range_column (n : nat) : length (range_column n) = n.
Proof. unfold range_column. by rewrite length_fmap, length_seq. Qed.

Lemma lookup_range_column (n p : nat) :
  (p < n)%nat → range_column n !! p = Some (Some (Z.of_nat p)).
Proof.
  intros Hp. unfold range_column.
  by rewrite list_lookup_fmap, lookup_seq_lt.
Qed.

Lemma elem_of_range_column (n : nat) (c : cell) :
  c ∈ range_column n → ∃ i, c = Some (Z.of_nat i) ∧ (i < n)%nat.
Proof.
  unfold range_column. intros Hc.
  apply list_elem_of_fmap in Hc as (i & -> & Hi).
  apply elem_of_seq in Hi. exists i. split; [done|lia].
Qed.

Lemma built_tables_wf (haversine : Z * Z → Z * Z → Z)
    (times_1_17 : Z → Z) (zs las los : list Z) :
  length las = length zs → length los = length zs →
  tables_wf (built_tables haversine times_1_17 zs las los) = true.
Proof.
  intros Hla Hlo. unfold tables_wf. cbn [built_tables lk_zipcode lk_position matrix].
  set (keep := kept_records zs las los).
  rewrite !andb_true_iff. split; [split|].
  - apply Nat.eqb_eq.
    rewrite length_range_column, length_fmap, length_ndtake; [done|].
    intros i Hi. exact (kept_records_lt zs las los i Hla Hlo Hi).
  - apply forallb_forall. intros c Hc. apply list_elem_of_In in Hc.
    apply elem_of_range_column in Hc as (i & -> & Hi).
    rewrite length_fmap. apply andb_true_iff. split.
    + apply Z.leb_le. lia.
    + apply Z.ltb_lt. lia.
  - apply forallb_forall. intros r Hr. apply list_elem_of_In in Hr.
    apply list_elem_of_fmap in Hr as (i & -> & _).
    apply Nat.eqb_eq. by rewrite !length_fmap.
Qed.

Lemma loc_first_at (keys poss : list cell) (z : Z) (p : nat) (c : cell) :
  keys !! p = Some (Some z) →
  (∀ q, (q < p)%nat → keys !! q ≠ Some (Some z)) →
  poss !! p = Some c →
  loc_first keys poss z = inr c.
Proof.
  revert poss p. induction keys as [|k keys IH]; intros poss p Hk Hfirst Hc;
    [done|].
  destruct poss as [|c0 poss]; [done|]. simpl.
  destruct p as [|p].
  - simpl in Hk, Hc. inversion Hk; subst k. inversion Hc; subst c0.
    by rewrite bool_decide_eq_true_2.
  - rewrite bool_decide_eq_false_2.
    + apply (IH poss p); [done| |done].
      intros q Hq. apply (Hfirst (S q)). lia.
    + intros ->. apply (Hfirst O); [lia|done].
Qed.

Lemma py_getitem_nat {A} (l : list A) (p : nat) (x : A) :
  l !! p = Some x → py_getitem l (Z.of_nat p) = inr x.
Proof.
  intros Hp. pose proof (lookup_lt_Some _ _ _ Hp) as Hlt.
  unfold py_getitem.
  destruct (Z.ltb_spec (Z.of_nat p) 0) as [?|_]; [lia|].
  destruct (Z.leb_spec 0 (Z.of_nat p)) as [_|?]; [|lia].
  destruct (Z.ltb_spec (Z.of_nat p) (Z.of_nat (length l))) as [_|?]; [|lia].
  simpl. by rewrite Nat2Z.id, Hp.
Qed.

Lemma built_tables_position (haversine : Z * Z → Z * Z → Z)
    (times_1_17 : Z → Z)
    (zs las los : list Z) (a : nat) (z : Z) :
  length las = length zs → length los = length zs →
  zs !! a = Some z → (∀ j, (j < a)%nat → zs !! j ≠ Some z) →
  ∃ p, kept_records zs las los !! p = Some a
       ∧ loc_first (lk_zipcode (built_tables haversine times_1_17 zs las los))
           (lk_position (built_tables haversine times_1_17 zs las los)) z
         = inr (Some (Z.of_nat p)).
Proof.
  intros Hla Hlo Ha Hfirst.
  pose proof (kept_records_first zs las los a z Hla Hlo Ha Hfirst) as Hin.
  apply list_elem_of_lookup in Hin as [p Hp]. exists p. split; [done|].
  cbn [built_tables lk_zipcode lk_position].
  set (keep := kept_records zs las los) in *.
  assert (∀ j, j ∈ keep → (j < length zs)%nat) as Hlt.
  { intros j Hj. exact (kept_records_lt zs las los j Hla Hlo Hj). }
  apply (loc_first_at _ _ z p).
  - rewrite list_lookup_fmap. by rewrite (ndtake_lookup keep zs p a z).
  - intros q Hq Hk. rewrite list_lookup_fmap in Hk.
    destruct (lookup_lt_is_Some_2 keep q) as [j Hj].
    { apply lookup_lt_Some in Hp. lia. }
    destruct (lookup_lt_is_Some_2 zs j) as [y Hy].
    { apply Hlt. by eapply list_elem_of_lookup_2. }
    rewrite (ndtake_lookup keep zs q j y) in Hk by done.
    inversion Hk; subst y.
    apply (Hfirst j); [|done].
    eapply (StronglySorted_lt_lookup keep q p); try done.
    apply first_occurrences_sorted.
  - apply lookup_range_column. by eapply lookup_lt_Some.
Qed.

Lemma built_tables_distance (haversine : Z * Z → Z * Z → Z)
    (times_1_17 : Z → Z)
    (zs las los : list Z) (a b : nat) (z1 z2 : Z) :
  length las = length zs → length los = length zs →
  zs !! a = Some z1 → (∀ j, (j < a)%nat → zs !! j ≠ Some z1) →
  zs !! b = Some z2 → (∀ j, (j < b)%nat → zs !! j ≠ Some z2) →
  stop_distance (built_tables haversine times_1_17 zs las los) z1 z2
  = inr (times_1_17 (haversine (nth a las 0, nth a los 0)
                               (nth b las 0, nth b los 0))).
Proof.
  intros Hla Hlo Ha Hfa Hb Hfb.
  destruct (built_tables_position haversine times_1_17 zs las los a z1) as (p & Hp & Ho);
    [done..|].
  destruct (built_tables_position haversine times_1_17 zs las los b z2) as (q & Hq & Hd);
    [done..|].
  unfold stop_distance. rewrite Ho, Hd. cbn [ebind].
  assert (∀ c, c ∈ lk_position (built_tables haversine times_1_17 zs las los) →
               ∃ j, c = Some j) as Hsome.
  { intros c Hc. apply elem_of_range_column in Hc as (i & -> & _). by eexists. }
  rewrite !as_index_position by done. cbn [ebind].
  cbn [built_tables matrix].
  rewrite (py_getitem_nat _ p
    ((λ j, times_1_17 (haversine (nth a las 0, nth a los 0)
                                 (nth j las 0, nth j los 0)))
       <$> kept_records zs las los)).
  2:{ by rewrite list_lookup_fmap, Hp. }
  cbn [ebind].
  apply py_getitem_nat. by rewrite list_lookup_fmap, Hq.
Qed.

(* --------------------------------------------------------------------- *)
(* Running the set-up                                                    *)
(* --------------------------------------------------------------------- *)

Lemma alloc_subseteq (h : heap) (o : obj) : h ⊆ <[fresh (dom h) := o]> h.
Proof. apply insert_subseteq, not_elem_of_dom, is_fresh. Qed.

Lemma get_frame_at (h : heap) (l : loc) (f : frame) :
  h !! l = Some (ODataFrame f) → get_frame l h = (inr f, h).
Proof. intros Hl. unfold get_frame. by rewrite Hl. Qed.

Lemma df_select_run (h : heap) (l : loc) (f : frame) (names : list string)
    (cols : gmap string (list cell)) :
  h !! l = Some (ODataFrame f) → select_columns f names = inr cols →
  df_select l names h
  = (inr (fresh (dom h)), <[fresh (dom h) := ODataFrame (Frame (index f) cols)]> h).
Proof.
  intros Hl Hsel. unfold df_select.
  rewrite (bind_inr _ _ h h f) by by apply get_frame_at.
  rewrite Hsel. done.
Qed.

Lemma df_drop_duplicates_run (h : heap) (l : loc) (f : frame) :
  h !! l = Some (ODataFrame f) →
  df_drop_duplicates l h
  = (inr (fresh (dom h)),
     <[fresh (dom h) :=
         ODataFrame (Frame (ndtake (first_occurrences [] (rows f) 0) (index f))
                           (ndtake (first_occurrences [] (rows f) 0) <$> columns f))]> h).
Proof.
  intros Hl. unfold df_drop_duplicates.
  by rewrite (bind_inr _ _ h h f) by by apply get_frame_at.
Qed.

Lemma df_setitem_run (h : heap) (l : loc) (F : frame) (name : string)
    (v : list cell) :
  h !! l = Some (ODataFrame F) → length v = length (index F) →
  df_setitem l name v h
  = (inr tt, <[l := ODataFrame (Frame (index F) (<[name := v]> (columns F)))]> h).
Proof.
  intros Hl Hlen. unfold df_setitem.
  rewrite (bind_inr _ _ h h F) by by apply get_frame_at.
  rewrite ensure_valid_index_same by done.
  by rewrite bool_decide_eq_true_2.
Qed.

Lemma df_reset_index_run (h : heap) (l : loc) (f : frame) :
  h !! l = Some (ODataFrame f) → columns f !! "index" = None →
  df_reset_index l h
  = (inr (fresh (dom h)),
     <[fresh (dom h) :=
         ODataFrame (Frame (seq 0 (length (index f)))
           (<["index" := (λ i, Some (Z.of_nat i)) <$> index f]> (columns f)))]> h).
Proof.
  intros Hl Hc. unfold df_reset_index.
  rewrite (bind_inr _ _ h h f) by by apply get_frame_at.
  by rewrite Hc.
Qed.

Lemma df_loc_run (h : heap) (l : loc) (f : frame) (name : string)
    (c : list cell) (label i : nat) (v : cell) :
  h !! l = Some (ODataFrame f) → columns f !! name = Some c →
  label_position (index f) label = Some i → c !! i = Some v →
  df_loc l name label h = (inr v, h).
Proof.
  intros Hl Hc Hp Hv. unfold df_loc.
  rewrite (bind_inr _ _ h h f) by by apply get_frame_at.
  unfold column. rewrite Hc. unfold lift, bind. by rewrite Hp, Hv.
Qed.

Lemma mapM_total {A B} (f : A → M B) (F : A → B) (h : heap) (l : list A) :
  (∀ a, a ∈ l → f a h = (inr (F a), h)) → mapM f l h = (inr (F <$> l), h).
Proof.
  induction l as [|a l IH]; intros Hf; [done|].
  cbn [mapM]. rewrite (bind_inr _ _ h h (F a)) by (apply Hf; by left).
  rewrite (bind_inr _ _ h h (F <$> l)); [done|].
  apply IH. intros b Hb. apply Hf. by right.
Qed.

Lemma rows_triples (idx : list nat) (zs las los : list Z) :
  length las = length zs → length los = length zs →
  length idx = length zs →
  rows (Frame idx
          (<["zipcode" := Some <$> zs]>
          (<["latitude" := Some <$> las]>
          (<["longitude" := Some <$> los]> ∅))))
  = (λ x : Z * Z * Z,
       <["zipcode" := Some x.1.1]>
       (<["latitude" := Some x.1.2]>
       (<["longitude" := Some x.2]> (∅ : row))))
    <$> zip (zip zs las) los.
Proof.
  intros Hla Hlo Hidx. unfold rows. cbn [index columns].
  apply list_eq. intros j.
  change (map ?f ?l) with (f <$> l).
  rewrite !list_lookup_fmap.
  destruct (decide (j < length zs)%nat) as [Hj|Hj].
  - rewrite lookup_seq_lt by lia. cbn.
    destruct (lookup_lt_is_Some_2 zs j) as [z Hz]; [lia|].
    destruct (lookup_lt_is_Some_2 las j) as [la Hla']; [lia|].
    destruct (lookup_lt_is_Some_2 los j) as [lo Hlo']; [lia|].
    rewrite (proj2 (lookup_triples zs las los j (z, la, lo))) by done.
    cbn. f_equal.
    rewrite (omap_insert_Some _ _ _ _ (Some z))
      by (by rewrite list_lookup_fmap, Hz).
    rewrite (omap_insert_Some _ _ _ _ (Some la))
      by (by rewrite list_lookup_fmap, Hla').
    rewrite (omap_insert_Some _ _ _ _ (Some lo))
      by (by rewrite list_lookup_fmap, Hlo').
    by rewrite omap_empty.
  - rewrite lookup_seq_ge by lia.
    rewrite lookup_ge_None_2; [done|]. rewrite length_triples by done. lia.
Qed.

Lemma triple_row_inj :
  Inj (=) (=) (λ x : Z * Z * Z,
    <["zipcode" := Some x.1.1]>
    (<["latitude" := Some x.1.2]>
    (<["longitude" := Some x.2]> (∅ : row)))).
Proof.
  intros [[z la] lo] [[z' la'] lo'] Heq. simpl in Heq.
  pose proof (f_equal (λ m : row, m !! "zipcode") Heq) as H1.
  pose proof (f_equal (λ m : row, m !! "latitude") Heq) as H2.
  pose proof (f_equal (λ m : row, m !! "longitude") Heq) as H3.
  vm_compute in H1, H2, H3. congruence.
Qed.

Section SetUpRun.
Variable haversine : Z * Z → Z * Z → Z.
Variable times_1_17 : Z → Z.
Variables zs las los ws ps : list Z.
Hypothesis Hla : length las = length zs.
Hypothesis Hlo : length los = length zs.
Hypothesis Hws : length ws = length zs.
Hypothesis Hps : length ps = length zs.

Lemma set_up_run (h : heap) :
  ∃ e h', set_up haversine times_1_17 zs las los ws ps h = (inr e, h')
    ∧ env_ok h' e (Some <$> zs) (Some <$> ws) (Some <$> ps)
        (built_tables haversine times_1_17 zs las los)
    ∧ h ⊆ h'
    ∧ frame_at h' (df e) = Some (demand_frame zs las los ws ps).
Proof.
  set (keep := kept_records zs las los).
  assert (∀ j, j ∈ keep → (j < length zs)%nat) as Hlt.
  { intros j Hj. exact (kept_records_lt zs las los j Hla Hlo Hj). }
  assert (NoDup keep) as Hnd.
  { apply StronglySorted_lt_NoDup, first_occurrences_sorted. }
  unfold set_up, demand_table, demand_frame.
  rewrite bool_decide_eq_true_2 by done.
  (* the demand table *)
  set (D := Frame (seq 0 (length zs)) _).
  set (h1 := <[fresh (dom h) := ODataFrame D]> h).
  rewrite (bind_inr _ _ h h1 (fresh (dom h))) by done.
  assert (h1 !! fresh (dom h) = Some (ODataFrame D)) as H1
    by apply lookup_insert_eq.
  (* its three columns, without the duplicates *)
  set (C3 := <["zipcode" := Some <$> zs]>
             (<["latitude" := Some <$> las]>
             (<["longitude" := Some <$> los]> (∅ : gmap string (list cell))))).
  set (h2 := <[fresh (dom h1) := ODataFrame (Frame (seq 0 (length zs)) C3)]> h1).
  rewrite (bind_inr _ _ h1 h2 (fresh (dom h1)))
    by (by apply (df_select_run h1 _ D)).
  assert (h2 !! fresh (dom h1) = Some (ODataFrame (Frame (seq 0 (length zs)) C3)))
    as H2 by apply lookup_insert_eq.
  set (G := Frame keep (ndtake keep <$> C3)).
  set (h3 := <[fresh (dom h2) := ODataFrame G]> h2).
  rewrite (bind_inr _ _ h2 h3 (fresh (dom h2))).
  2:{ rewrite (df_drop_duplicates_run h2 _ _ H2). unfold h3, G. cbn [index columns].
      unfold C3. rewrite rows_triples by (done || by rewrite length_seq).
      rewrite (first_occurrences_fmap _ [] _ 0 triple_row_inj).
      fold keep. by rewrite ndtake_seq. }
  assert (h3 !! fresh (dom h2) = Some (ODataFrame G)) as H3
    by apply lookup_insert_eq.
  (* the position column *)
  unfold df_len at 1.
  rewrite (bind_inr _ _ h3 h3 (length keep)).
  2:{ by rewrite (bind_inr _ _ h3 h3 G) by by apply get_frame_at. }
  set (G' := Frame keep (<["position" := range_column (length keep)]> (columns G))).
  set (h3' := <[fresh (dom h2) := ODataFrame G']> h2).
  rewrite (bind_inr _ _ h3 h3' tt).
  2:{ rewrite (df_setitem_run h3 _ G) by (done || apply length_range_column).
      unfold h3', h3. by rewrite insert_insert_eq. }
  assert (h3' !! fresh (dom h2) = Some (ODataFrame G')) as H3'
    by apply lookup_insert_eq.
  assert (h2 ⊆ h3') as S23 by apply alloc_subseteq.
  assert (columns G !! "zipcode" = Some (ndtake keep (Some <$> zs))) as Gz.
  { unfold G, C3. cbn [columns]. rewrite lookup_fmap.
    by rewrite lookup_insert_eq. }
  assert (columns G !! "latitude" = Some (ndtake keep (Some <$> las))) as Gla.
  { unfold G, C3. cbn [columns]. rewrite lookup_fmap.
    rewrite lookup_insert_ne by done. by rewrite lookup_insert_eq. }
  assert (columns G !! "longitude" = Some (ndtake keep (Some <$> los))) as Glo.
  { unfold G, C3. cbn [columns]. rewrite lookup_fmap.
    do 2 rewrite lookup_insert_ne by done. by rewrite lookup_insert_eq. }
  assert (columns G !! "index" = None) as Gi.
  { unfold G, C3. cbn [columns]. rewrite lookup_fmap.
    do 3 rewrite lookup_insert_ne by done. done. }
  (* the lookup table *)
  set (R := Frame (seq 0 (length keep))
              (<["index" := (λ i, Some (Z.of_nat i)) <$> keep]> (columns G'))).
  set (h4 := <[fresh (dom h3') := ODataFrame R]> h3').
  rewrite (bind_inr _ _ h3' h4 (fresh (dom h3'))).
  2:{ apply (df_reset_index_run h3' _ G' H3').
      unfold G'. cbn [columns]. by rewrite lookup_insert_ne. }
  assert (h4 !! fresh (dom h3') = Some (ODataFrame R)) as H4
    by apply lookup_insert_eq.
  assert (h3' ⊆ h4) as S34 by apply alloc_subseteq.
  set (L := Frame (seq 0 (length keep))
              (<["zipcode" := ndtake keep (Some <$> zs)]>
              (<["position" := range_column (length keep)]>
                 (∅ : gmap string (list cell))))).
  set (h5 := <[fresh (dom h4) := ODataFrame L]> h4).
  rewrite (bind_inr _ _ h4 h5 (fresh (dom h4))).
  2:{ apply (df_select_run h4 _ R _ _ H4).
      unfold select_columns, column, R, G'. cbn [columns].
      rewrite lookup_insert_ne by done. rewrite lookup_insert_ne by done.
      rewrite Gz. cbn [ebind].
      rewrite lookup_insert_ne by done. rewrite lookup_insert_eq. done. }
  assert (h5 !! fresh (dom h4) = Some (ODataFrame L)) as H5
    by apply lookup_insert_eq.
  assert (h4 ⊆ h5) as S45 by apply alloc_subseteq.
  assert (h5 !! fresh (dom h2) = Some (ODataFrame G')) as H53.
  { eapply lookup_weaken; [|exact S45]. eapply lookup_weaken; [|exact S34]. done. }
  (* the distance matrix *)
  rewrite (bind_inr _ _ h5 h5 keep).
  2:{ by rewrite (bind_inr _ _ h5 h5 G') by by apply get_frame_at. }
  set (point := λ i : nat, (nth i las 0, nth i los 0)).
  assert (∀ i, i ∈ keep →
            (do c <- df_loc (fresh (dom h2)) "latitude" i; coordinate c) h5
            = (inr (nth i las 0), h5)) as Hlat.
  { intros i Hi. apply list_elem_of_lookup in Hi as [p Hp].
    rewrite (bind_inr _ _ h5 h5 (Some (nth i las 0))); [done|].
    apply (df_loc_run h5 _ G' _ (ndtake keep (Some <$> las)) i p); [done| | |].
    - unfold G'. cbn [columns]. by rewrite lookup_insert_ne.
    - by apply label_position_lookup.
    - apply (ndtake_lookup keep _ p i).
      + intros j Hj. rewrite length_fmap, Hla. by apply Hlt.
      + done.
      + rewrite list_lookup_fmap, nth_lookup.
        destruct (lookup_lt_is_Some_2 las i) as [x ->]; [|done].
        rewrite Hla. apply Hlt. by eapply list_elem_of_lookup_2. }
  assert (∀ i, i ∈ keep →
            (do c <- df_loc (fresh (dom h2)) "longitude" i; coordinate c) h5
            = (inr (nth i los 0), h5)) as Hlon.
  { intros i Hi. apply list_elem_of_lookup in Hi as [p Hp].
    rewrite (bind_inr _ _ h5 h5 (Some (nth i los 0))); [done|].
    apply (df_loc_run h5 _ G' _ (ndtake keep (Some <$> los)) i p); [done| | |].
    - unfold G'. cbn [columns]. by rewrite lookup_insert_ne.
    - by apply label_position_lookup.
    - apply (ndtake_lookup keep _ p i).
      + intros j Hj. rewrite length_fmap, Hlo. by apply Hlt.
      + done.
      + rewrite list_lookup_fmap, nth_lookup.
        destruct (lookup_lt_is_Some_2 los i) as [x ->]; [|done].
        rewrite Hlo. apply Hlt. by eapply list_elem_of_lookup_2. }
  set (Mx := (λ i, (λ j, times_1_17 (haversine (point i) (point j))) <$> keep)
               <$> keep).
  rewrite (bind_inr _ _ h5 h5 Mx).
  2:{ apply mapM_total. intros i Hi. unfold distance_row.
      rewrite (bind_inr _ _ h5 h5 (nth i las 0)) by by apply Hlat.
      rewrite (bind_inr _ _ h5 h5 (nth i los 0)) by by apply Hlon.
      apply mapM_total. intros j Hj.
      rewrite (bind_inr _ _ h5 h5 (nth j las 0)) by by apply Hlat.
      rewrite (bind_inr _ _ h5 h5 (nth j los 0)) by by apply Hlon.
      done. }
  set (h6 := <[fresh (dom h5) := OList Mx]> h5).
  rewrite (bind_inr _ _ h5 h6 (fresh (dom h5))) by done.
  assert (h5 ⊆ h6) as S56 by apply alloc_subseteq.
  assert (h1 ⊆ h6) as S16.
  { etrans; [apply alloc_subseteq|]. fold h2.
    etrans; [exact S23|]. etrans; [exact S34|]. by etrans. }
  eexists _, h6. split; [reflexivity|]. split; [split|split].
  - assert (columns D !! "zipcode" = Some (Some <$> zs)) as Dz.
    { unfold D. cbn [columns]. by rewrite lookup_insert_eq. }
    assert (columns D !! "weight" = Some (Some <$> ws)) as Dw.
    { unfold D. cbn [columns]. do 3 rewrite lookup_insert_ne by done.
      by rewrite lookup_insert_eq. }
    assert (columns D !! "pallets" = Some (Some <$> ps)) as Dp.
    { unfold D. cbn [columns]. do 4 rewrite lookup_insert_ne by done.
      by rewrite lookup_insert_eq. }
    unfold env_records, frame_at. cbn [df].
    rewrite (lookup_weaken _ _ _ _ H1 S16). cbn [mbind option_bind].
    rewrite Dz. cbn [mbind option_bind]. rewrite Dw. cbn [mbind option_bind].
    rewrite Dp. cbn [mbind option_bind].
    rewrite bool_decide_eq_true_2; [done|].
    unfold D. cbn [index]. rewrite !length_fmap, length_seq. done.
  - assert (columns L !! "zipcode" = Some (ndtake keep (Some <$> zs))) as Lz.
    { unfold L. cbn [columns]. by rewrite lookup_insert_eq. }
    assert (columns L !! "position" = Some (range_column (length keep))) as Lp.
    { unfold L. cbn [columns]. rewrite lookup_insert_ne by done.
      by rewrite lookup_insert_eq. }
    set (dict := <["distance_matrix" := fresh (dom h5)]>
                 (<["zip_lookup" := fresh (dom h4)]> (∅ : gmap string loc))).
    assert (dict !! "zip_lookup" = Some (fresh (dom h4))) as Dl.
    { unfold dict. rewrite lookup_insert_ne by done. by rewrite lookup_insert_eq. }
    assert (dict !! "distance_matrix" = Some (fresh (dom h5))) as Dm.
    { unfold dict. by rewrite lookup_insert_eq. }
    unfold env_tables, frame_at, list_at. cbn [_dict].
    rewrite Dl. cbn [mbind option_bind].
    rewrite (lookup_weaken _ _ _ _ H5 S56). cbn [mbind option_bind].
    rewrite Lz. cbn [mbind option_bind]. rewrite Lp. cbn [mbind option_bind].
    rewrite Dm. cbn [mbind option_bind].
    unfold h6. rewrite lookup_insert_eq.
    cbn [mbind option_bind]. unfold built_tables. fold keep.
    by rewrite ndtake_fmap.
  - etrans; [apply alloc_subseteq|]. exact S16.
  - unfold frame_at. cbn [df]. by rewrite (lookup_weaken _ _ _ _ H1 S16).
Qed.

End SetUpRun.

Lemma set_up_mismatch (haversine : Z * Z → Z * Z → Z) (times_1_17 : Z → Z)
    (zs las los ws ps : list Z) (h : heap) :
  ¬ (length las = length zs ∧ length los = length zs
     ∧ length ws = length zs ∧ length ps = length zs) →
  set_up haversine times_1_17 zs las los ws ps h = (inl ValueError, h).
Proof.
  intros Hlen. unfold set_up, demand_table.
  by rewrite bool_decide_eq_false_2.
Qed.

Lemma score_nonneg `{ArgSort} (individual : list Z) (n : nat)
    (zs ws ps : list cell) (t : tables) (s : Z) :
  matrix_nonneg t = true → int64_range individual ws ps = true →
  score individual n zs ws ps t = inr s → 0 ≤ s.
Proof.
  intros Hm Hrange Hs.
  apply score_value in Hs as (_ & ds & Hl & ->).
  unfold int64_range in Hrange. apply Z.ltb_lt in Hrange.
  pose proof (sum_abs_reindexed n (length individual) ws).
  pose proof (sum_abs_reindexed n (length individual) ps).
  pose proof (capacity_penalty_nonneg individual
                (reindexed n (length individual) ws)
                (reindexed n (length individual) ps)) as Hcap.
  assert (0 ≤ series_sum (result_series ds)) as Hdist.
  { apply series_sum_result_series_nonneg.
    eapply Forall_impl; [by eapply legs_entries|].
    intros x Hx v ->. destruct (Hx v eq_refl) as (mr & Hmr & Hv).
    by eapply (matrix_nonneg_entry t). }
  lia.
Qed.

Lemma built_tables_nonneg (haversine : Z * Z → Z * Z → Z) (times_1_17 : Z → Z)
    (zs las los : list Z) :
  (∀ p q, 0 ≤ times_1_17 (haversine p q)) →
  matrix_nonneg (built_tables haversine times_1_17 zs las los) = true.
Proof.
  intros Hh. unfold matrix_nonneg. cbn [built_tables matrix].
  apply forallb_forall. intros r Hr. apply list_elem_of_In in Hr.
  apply list_elem_of_fmap in Hr as (i & -> & _).
  apply forallb_forall. intros d Hd. apply list_elem_of_In in Hd.
  apply list_elem_of_fmap in Hd as (j & -> & _).
  apply Z.leb_le. apply Hh.
Qed.

Lemma set_up_inv (haversine : Z * Z → Z * Z → Z) (times_1_17 : Z → Z)
    (zs las los ws ps : list Z) (h h' : heap) (e : Environment) :
  set_up haversine times_1_17 zs las los ws ps h = (inr e, h') →
  (length las = length zs ∧ length los = length zs
   ∧ length ws = length zs ∧ length ps = length zs)
  ∧ env_ok h' e (Some <$> zs) (Some <$> ws) (Some <$> ps)
      (built_tables haversine times_1_17 zs las los)
  ∧ h ⊆ h'.
Proof.
  intros Hrun.
  destruct (decide (length las = length zs ∧ length los = length zs
                    ∧ length ws = length zs ∧ length ps = length zs))
    as [Hlen|Hlen].
  - split; [done|]. destruct Hlen as (Hla & Hlo & Hws & Hps).
    destruct (set_up_run haversine times_1_17 zs las los ws ps
                Hla Hlo Hws Hps h) as (e0 & h0 & Hrun0 & Hok & Hsub & _).
    rewrite Hrun in Hrun0. by inversion Hrun0; subst.
  - by rewrite set_up_mismatch in Hrun.
Qed.

(** X4.  The set-up of the use case.  From five arrays of one length it
    builds, beside the objects the heap held, an environment whose
    demand table holds the five arrays as its columns zipcode, latitude,
    longitude, weight and pallets, the rows numbered from 0; whose
    lookup table lists the records that differ in zip code or
    coordinates, each once and in the order of their first occurrence,
    under the positions 0, 1, 2, ...; and whose matrix holds, for every
    two such records, dist*1.17 for their haversine distance dist.
    Arrays of different lengths give ValueError and leave the heap as it
    was. *)
Theorem set_up_builds (haversine : Z * Z → Z * Z → Z) (times_1_17 : Z → Z)
    (zipcode latitude longitude weight pallets : list Z) (h : heap) :
  (length latitude = length zipcode ∧ length longitude = length zipcode
   ∧ length weight = length zipcode ∧ length pallets = length zipcode →
   ∃ e h',
     set_up haversine times_1_17 zipcode latitude longitude weight pallets h
     = (inr e, h')
     ∧ frame_at h' (df e)
       = Some (demand_frame zipcode latitude longitude weight pallets)
     ∧ env_tables h' e
       = Some (built_tables haversine times_1_17 zipcode latitude longitude)
     ∧ ∀ l, l ∈ dom h → h' !! l = h !! l)
  ∧ (¬ (length latitude = length zipcode ∧ length longitude = length zipcode
        ∧ length weight = length zipcode ∧ length pallets = length zipcode) →
     set_up haversine times_1_17 zipcode latitude longitude weight pallets h
     = (inl ValueError, h)).
Proof.
  split.
  - intros (Hla & Hlo & Hws & Hps).
    destruct (set_up_run haversine times_1_17 zipcode latitude longitude
                weight pallets Hla Hlo Hws Hps h)
      as (e & h' & Hrun & [_ Htab] & Hsub & Hframe).
    exists e, h'. split; [done|]. split; [done|]. split; [done|].
    intros l Hl. apply elem_of_dom in Hl as [o Ho].
    rewrite Ho. by eapply lookup_weaken.
  - apply set_up_mismatch.
Qed.

Lemma set_up_builds_witness :
  ∃ e h', SetUpExample.built = (inr e, h')
    ∧ frame_at h' (df e)
      = Some (demand_frame SetUpExample.zipcode SetUpExample.latitude
                SetUpExample.longitude SetUpExample.weight
                SetUpExample.pallets)
    ∧ env_tables h' e
      = Some (built_tables SetUpExample.flat_distance SetUpExample.times_1_17
                SetUpExample.zipcode SetUpExample.latitude
                SetUpExample.longitude)
    ∧ ∀ l, l ∈ dom (∅ : heap) → h' !! l = (∅ : heap) !! l.
Proof.
  apply (proj1 (set_up_builds SetUpExample.flat_distance
                  SetUpExample.times_1_17 SetUpExample.zipcode
                  SetUpExample.latitude SetUpExample.longitude
                  SetUpExample.weight SetUpExample.pallets ∅)).
  repeat split; reflexivity.
Defined.

(** X5.  The evaluator on the environment that the set-up built: for
    every individual with one gene per demand record it returns a score,
    no lookup failing; and the score is not negative when no distance of
    the matrix is and the capacity bounds, the weights and the pallet
    counts add up to less than 2^63. *)
Theorem set_up_fitness_func `{ArgSort} (haversine : Z * Z → Z * Z → Z)
    (times_1_17 : Z → Z)
    (zipcode latitude longitude weight pallets : list Z)
    (individual : list Z) (h h' : heap) (e : Environment) :
  set_up haversine times_1_17 zipcode latitude longitude weight pallets h
  = (inr e, h') →
  length individual = length zipcode →
  ∃ s h'', fitness_func individual e h' = (inr s, h'')
           ∧ ((∀ p q, 0 ≤ times_1_17 (haversine p q)) →
              int64_range individual (Some <$> weight) (Some <$> pallets)
              = true →
              0 ≤ s).
Proof.
  intros Hrun Hlen.
  apply set_up_inv in Hrun as ((Hla & Hlo & Hws & Hps) & Hok & _).
  destruct (fitness_func_run individual e h' _ _ _ _ Hok) as [h'' E].
  rewrite length_fmap in E.
  destruct (score_present individual (length zipcode) (Some <$> zipcode)
              (Some <$> weight) (Some <$> pallets)
              (built_tables haversine times_1_17 zipcode latitude longitude))
    as [s Hs].
  - by apply built_tables_wf.
  - intros z Hz. apply list_elem_of_fmap in Hz as (z' & [= <-] & Hz).
    by apply listed_elem, built_tables_zipcode.
  - by left.
  - exists s, h''. split; [by rewrite E, Hs|].
    intros Hh Hrange. eapply score_nonneg; [|exact Hrange|exact Hs].
    by apply built_tables_nonneg.
Qed.

Lemma set_up_fitness_func_witness :
  ∃ s h'', fitness_func (H:=stable_sorting) [0; 1; 0; 1; 0]
             SetUpExample.environment SetUpExample.built.2 = (inr s, h'')
           ∧ ((∀ p q, 0 ≤ SetUpExample.times_1_17
                            (SetUpExample.flat_distance p q)) →
              int64_range [0; 1; 0; 1; 0] (Some <$> SetUpExample.weight)
                (Some <$> SetUpExample.pallets) = true →
              0 ≤ s).
Proof.
  apply (set_up_fitness_func (H:=stable_sorting) SetUpExample.flat_distance
           SetUpExample.times_1_17
           SetUpExample.zipcode SetUpExample.latitude SetUpExample.longitude
           SetUpExample.weight SetUpExample.pallets [0; 1; 0; 1; 0] ∅).
  - vm_compute. reflexivity.
  - reflexivity.
Defined.

Lemma small_Some (zs : list Z) :
  Forall (λ z, Z.abs z ≤ 2 ^ 53) zs → forallb small (Some <$> zs) = true.
Proof.
  intros Hzs. apply forallb_forall. intros x Hx. apply list_elem_of_In in Hx.
  apply list_elem_of_fmap in Hx as (z & -> & Hz).
  rewrite Forall_forall in Hzs. simpl. apply Z.leb_le. by apply Hzs.
Qed.

(** X6.  The distance that get_distance charges on the environment the
    set-up built, between two stops of one route, for zip codes of
    magnitude at most 2^53: dist*1.17 for the haversine distance dist
    between the first demand record that has the previous stop's zip
    code and the first that has this stop's, whatever the coordinates of
    the stops' own records. *)
Theorem set_up_get_distance (haversine : Z * Z → Z * Z → Z)
    (times_1_17 : Z → Z)
    (zipcode latitude longitude weight pallets : list Z)
    (h h' : heap) (e : Environment) (x : row)
    (a b : nat) (pzip zip route : Z) :
  set_up haversine times_1_17 zipcode latitude longitude weight pallets h
  = (inr e, h') →
  Forall (λ z, Z.abs z ≤ 2 ^ 53) zipcode →
  zipcode !! a = Some pzip → (∀ j, (j < a)%nat → zipcode !! j ≠ Some pzip) →
  zipcode !! b = Some zip → (∀ j, (j < b)%nat → zipcode !! j ≠ Some zip) →
  x !! "zipcode" = Some (Some zip) → x !! "prev_zip" = Some (Some pzip) →
  x !! "chromosomes" = Some (Some route) →
  x !! "prev_chromosomes" = Some (Some route) →
  get_distance e x h'
  = (inr (Some (times_1_17
                  (haversine (nth a latitude 0, nth a longitude 0)
                             (nth b latitude 0, nth b longitude 0)))), h').
Proof.
  intros Hrun Hsmall Ha Hfa Hb Hfb Hz Hpz Hc Hpc.
  apply set_up_inv in Hrun as ((Hla & Hlo & Hws & Hps) & [_ Htab] & _).
  rewrite (get_distance_run e _ h' x _ _ _ _ Htab Hz Hpz Hc Hpc).
  rewrite float_tables_small.
  - unfold row_leg, cell_ne. rewrite Z.eqb_refl. cbn [negb].
    by rewrite (built_tables_distance haversine times_1_17 zipcode latitude
                  longitude a b).
  - cbn [built_tables lk_zipcode]. apply small_Some.
    apply Forall_forall. intros z Hz'. rewrite Forall_forall in Hsmall.
    apply Hsmall. by eapply elem_of_ndtake.
Qed.

Lemma set_up_get_distance_witness :
  get_distance SetUpExample.environment
    (Example.a_row (Some 10) (Some 30) (Some 1) (Some 1)) SetUpExample.built.2
  = (inr (Some (SetUpExample.times_1_17
                  (SetUpExample.flat_distance (300, 600) (100, 400)))),
     SetUpExample.built.2).
Proof.
  apply (set_up_get_distance SetUpExample.flat_distance SetUpExample.times_1_17
           SetUpExample.zipcode
           SetUpExample.latitude SetUpExample.longitude SetUpExample.weight
           SetUpExample.pallets ∅ _ _ _ 3%nat 0%nat 30 10 1).
  - vm_compute. reflexivity.
  - repeat constructor; vm_compute; discriminate.
  - reflexivity.
  - intros [|[|[|j]]] Hj; try discriminate. lia.
  - reflexivity.
  - intros j Hj. lia.
  - vm_compute. reflexivity.
  - vm_compute. reflexivity.
  - vm_compute. reflexivity.
  - vm_compute. reflexivity.
Defined.

Lemma kept_records_length (zs las los : list Z) :
  length las = length zs → length los = length zs →
  (length (kept_records zs las los) ≤ length zs)%nat.
Proof.
  intros Hla Hlo.
  assert (length (seq 0 (length zs)) = length zs) as <- by apply length_seq.
  apply submseteq_length, NoDup_submseteq.
  - apply StronglySorted_lt_NoDup, first_occurrences_sorted.
  - intros j Hj. apply elem_of_seq.
    pose proof (kept_records_lt zs las los j Hla Hlo Hj). lia.
Qed.

(** X7.  The shape of what the set-up built: the lookup table lists
    exactly the zip codes of the demand records, its row number p holds
    the position p, and the matrix is square with one row and one column
    for every row of the lookup table, which has at most as many rows as
    there are demand records. *)
Theorem set_up_shape (haversine : Z * Z → Z * Z → Z) (times_1_17 : Z → Z)
    (zipcode latitude longitude weight pallets : list Z)
    (h h' : heap) (e : Environment) (t : tables) :
  set_up haversine times_1_17 zipcode latitude longitude weight pallets h
  = (inr e, h') →
  env_tables h' e = Some t →
  (∀ z, Some z ∈ lk_zipcode t ↔ z ∈ zipcode)
  ∧ lk_position t = range_column (length (lk_zipcode t))
  ∧ length (matrix t) = length (lk_zipcode t)
  ∧ (∀ r, r ∈ matrix t → length r = length (lk_zipcode t))
  ∧ (length (lk_zipcode t) ≤ length zipcode)%nat.
Proof.
  intros Hrun Ht.
  apply set_up_inv in Hrun as ((Hla & Hlo & Hws & Hps) & [_ Htab] & _).
  rewrite Htab in Ht. inversion Ht; subst t. clear Ht.
  assert (length (lk_zipcode (built_tables haversine times_1_17 zipcode latitude longitude))
          = length (kept_records zipcode latitude longitude)) as Hk.
  { cbn [built_tables lk_zipcode]. rewrite length_fmap, length_ndtake; [done|].
    intros j Hj. exact (kept_records_lt _ _ _ j Hla Hlo Hj). }
  split; [|split; [|split; [|split]]].
  - intros z. split; [|by apply built_tables_zipcode].
    cbn [built_tables lk_zipcode]. intros Hz.
    apply list_elem_of_fmap in Hz as (z' & [= <-] & Hz).
    by eapply elem_of_ndtake.
  - rewrite Hk. done.
  - rewrite Hk. cbn [built_tables matrix]. by rewrite length_fmap.
  - intros r Hr. rewrite Hk. cbn [built_tables matrix] in Hr.
    apply list_elem_of_fmap in Hr as (i & -> & _). by rewrite length_fmap.
  - rewrite Hk. by apply kept_records_length.
Qed.

Lemma set_up_shape_witness :
  (∀ z, Some z ∈ [Some 10; Some 20; Some 30; Some 10]
        ↔ z ∈ SetUpExample.zipcode)
  ∧ [Some 0; Some 1; Some 2; Some 3] = range_column 4
  ∧ length [[0; 234; 468; 468]; [234; 0; 234; 468]; [468; 234; 0; 468];
            [468; 468; 468; 0]] = 4%nat
  ∧ (∀ r, r ∈ [[0; 234; 468; 468]; [234; 0; 234; 468]; [468; 234; 0; 468];
               [468; 468; 468; 0]] → length r = 4%nat)
  ∧ (4 ≤ length SetUpExample.zipcode)%nat.
Proof.
  apply (set_up_shape SetUpExample.flat_distance SetUpExample.times_1_17
           SetUpExample.zipcode
           SetUpExample.latitude SetUpExample.longitude SetUpExample.weight
           SetUpExample.pallets ∅ SetUpExample.built.2 SetUpExample.environment
           (Tables [Some 10; Some 20; Some 30; Some 10]
                   [Some 0; Some 1; Some 2; Some 3]
                   [[0; 234; 468; 468]; [234; 0; 234; 468]; [468; 234; 0; 468];
                    [468; 468; 468; 0]])).
  - vm_compute. reflexivity.
  - vm_compute. reflexivity.
Defined.

(* --------------------------------------------------------------------- *)
(* decode                                                                *)
(* --------------------------------------------------------------------- *)

(** X8.  decode() on a demand table of as many records as the individual
    has genes: it returns a table that was not on the heap before, whose
    column chromosomes reads back as the individual and whose other
    columns read as those of the demand table, gene i beside record i;
    the demand table itself still holds what it held. *)
Theorem decode_round_trip (individual : list Z) (environment : Environment)
    (h : heap) (f : frame) :
  frame_at h (df environment) = Some f →
  length individual = length (index f) →
  ∃ d h', decode individual environment h = (inr d, h')
    ∧ (d ∉ dom h)
    ∧ df_getitem d "chromosomes" h' = (inr (Some <$> individual), h')
    ∧ (∀ name, name ≠ "chromosomes" →
         df_getitem d name h' = (column f name, h'))
    ∧ frame_at h' d
      = Some (Frame (index f) (<["chromosomes" := Some <$> individual]> (columns f)))
    ∧ frame_at h' (df environment) = Some f.
Proof.
  intros Hf Hlen.
  assert (h !! df environment = Some (ODataFrame f)) as Hdf.
  { unfold frame_at in Hf.
    destruct (h !! df environment) as [[?|?]|]; by inversion Hf. }
  set (d := fresh (dom h)).
  assert (d ∉ dom h) as Hfresh by apply is_fresh.
  assert (d ≠ df environment) as Hne.
  { intros Heq. apply Hfresh. rewrite Heq. apply elem_of_dom. by eexists. }
  set (F := Frame (index f) (<["chromosomes" := Some <$> individual]> (columns f))).
  exists d, (<[d := ODataFrame F]> h).
  split; [|split; [done|split; [|split; [|split]]]].
  - unfold decode, df_copy.
    rewrite (bind_inr _ _ h (<[d := ODataFrame f]> h) d).
    2:{ by rewrite (bind_inr _ _ h h f) by by apply get_frame_at. }
    rewrite (bind_inr _ _ _ (<[d := ODataFrame F]> h) tt); [done|].
    rewrite df_setitem_ins by by rewrite length_fmap. done.
  - apply df_getitem_ins. unfold F. cbn [columns]. apply lookup_insert_eq.
  - intros name Hname. unfold df_getitem.
    rewrite (bind_inr _ _ _ _ F) by apply get_frame_ins.
    unfold lift, column, F. cbn [columns]. by rewrite lookup_insert_ne.
  - unfold frame_at. by rewrite lookup_insert_eq.
  - by rewrite frame_at_insert_ne.
Qed.

Lemma decode_round_trip_witness :
  ∃ d h', decode [1; 0; 1; 0] Example.environment Example.heap0 = (inr d, h')
    ∧ (d ∉ dom Example.heap0)
    ∧ df_getitem d "chromosomes" h' = (inr (Some <$> [1; 0; 1; 0]), h')
    ∧ (∀ name, name ≠ "chromosomes" →
         df_getitem d name h' = (column Example.demand_data name, h'))
    ∧ frame_at h' d
      = Some (Frame (index Example.demand_data)
                (<["chromosomes" := Some <$> [1; 0; 1; 0]]>
                   (columns Example.demand_data)))
    ∧ frame_at h' (df Example.environment) = Some Example.demand_data.
Proof.
  apply (decode_round_trip [1; 0; 1; 0] Example.environment Example.heap0
           Example.demand_data).
  - vm_compute. reflexivity.
  - reflexivity.
Defined.

(* --------------------------------------------------------------------- *)
(* The notebook: matrix, demand and callbacks                            *)
(* --------------------------------------------------------------------- *)

Lemma py_getitem_nth {A} (l : list A) (i : Z) (d : A) :
  0 ≤ i < Z.of_nat (length l) → py_getitem l i = inr (nth (Z.to_nat i) l d).
Proof.
  intros Hi. replace i with (Z.of_nat (Z.to_nat i)) at 1 by lia.
  apply py_getitem_nat.
  destruct (lookup_lt_is_Some_2 l (Z.to_nat i)) as [x Hx]; [lia|].
  by rewrite (nth_lookup_Some _ _ d _ Hx).
Qed.

Section NotebookShape.
Variable haversine : cell * cell → cell * cell → cell.
Variables latitude longitude pallets : list cell.
Variable IndexToNode : Z → Z.
Hypothesis Hlat : length latitude = length pallets.
Hypothesis Hlon : length longitude = length pallets.

Lemma length_distances :
  length (Notebook.distances haversine latitude longitude)
  = S (length pallets).
Proof.
  unfold Notebook.distances, Notebook.origins.
  rewrite length_fmap, length_app, length_zip_with. simpl. lia.
Qed.

Lemma length_distances_row (r : list cell) :
  r ∈ Notebook.distances haversine latitude longitude →
  length r = S (length pallets).
Proof.
  unfold Notebook.distances, Notebook.origins. intros Hr.
  apply list_elem_of_fmap in Hr as (p & -> & _).
  rewrite length_fmap, length_app, length_zip_with. simpl. lia.
Qed.

End NotebookShape.

(** X9.  The inputs the notebook hands to the routing model, for a
    shipment table whose columns have one length: the matrix has one row
    for the origin and one for every shipment (the assert of the
    notebook holds), there is one vehicle per shipment and one demand per
    node, the depot's demand is 0, and for node numbers within the
    matrix neither callback raises. *)
Theorem callbacks_in_range (haversine : cell * cell → cell * cell → cell)
    (latitude longitude pallets : list cell) (IndexToNode : Z → Z) :
  length latitude = length pallets → length longitude = length pallets →
  length (Notebook.distances haversine latitude longitude)
  = (length Notebook.origins + length pallets)%nat
  ∧ length (Notebook.vehicles haversine latitude longitude) = length pallets
  ∧ length (Notebook.demand pallets)
    = length (Notebook.distances haversine latitude longitude)
  ∧ (∀ i, IndexToNode i = 0 →
       Notebook.demand_callback pallets IndexToNode i = inr (Some 0))
  ∧ (∀ i j,
       0 ≤ IndexToNode i
         < Z.of_nat (length (Notebook.distances haversine latitude longitude)) →
       0 ≤ IndexToNode j
         < Z.of_nat (length (Notebook.distances haversine latitude longitude)) →
       ∃ d q,
         Notebook.distance_callback haversine latitude longitude IndexToNode i j
         = inr d
         ∧ Notebook.demand_callback pallets IndexToNode i = inr q).
Proof.
  intros Hlat Hlon.
  pose proof (length_distances haversine latitude longitude pallets Hlat Hlon)
    as Hd.
  split; [by rewrite Hd|]. split; [|split; [|split]].
  - unfold Notebook.vehicles. rewrite length_fmap, length_seq, length_drop, Hd. lia.
  - by rewrite Hd.
  - intros i Hi. unfold Notebook.demand_callback. by rewrite Hi.
  - intros i j Hi Hj. rewrite Hd in Hi, Hj.
    unfold Notebook.distance_callback, Notebook.demand_callback. cbv zeta.
    destruct (py_getitem_in_range
                (Notebook.distances haversine latitude longitude)
                (IndexToNode i)) as (r & -> & Hr); [by rewrite Hd|].
    cbn [ebind].
    destruct (py_getitem_in_range r (IndexToNode j)) as (d & -> & _).
    { by rewrite (length_distances_row haversine latitude longitude pallets
                    Hlat Hlon r Hr). }
    destruct (py_getitem_in_range (Notebook.demand pallets) (IndexToNode i))
      as (q & -> & _); [simpl; lia|].
    by exists d, q.
Qed.

Lemma callbacks_in_range_witness :
  ∃ d q,
    Notebook.distance_callback NotebookExample.flat_distance
      NotebookExample.latitude NotebookExample.longitude
      NotebookExample.IndexToNode 2 3 = inr d
    ∧ Notebook.demand_callback NotebookExample.pallets
        NotebookExample.IndexToNode 2 = inr q.
Proof.
  apply (callbacks_in_range NotebookExample.flat_distance
           NotebookExample.latitude NotebookExample.longitude
           NotebookExample.pallets NotebookExample.IndexToNode);
    try reflexivity.
  - vm_compute. split; [discriminate|reflexivity].
  - vm_compute. split; [discriminate|reflexivity].
Defined.

(* --------------------------------------------------------------------- *)
(* The notebook: get_solution                                            *)
(* --------------------------------------------------------------------- *)

Lemma inner_cons_snoc {A} (x y : A) (l : list A) :
  Notebook.inner (x :: l ++ [y]) = l.
Proof.
  unfold Notebook.inner. cbn [length]. rewrite length_app. cbn [length].
  replace (S (length l + 1) - 1)%nat with (S (length l)) by lia.
  cbn [take drop]. rewrite take_app_length. done.
Qed.

Lemma inner_short {A} (l : list A) : (length l ≤ 2)%nat → Notebook.inner l = [].
Proof.
  intros Hl. unfold Notebook.inner.
  destruct l as [|x [|y [|z l]]]; simpl in *; try done. lia.
Qed.

Lemma fmap_seq_S {B} (f : nat → B) (m : nat) :
  f <$> seq 1 m = (λ j, f (S j)) <$> seq 0 m.
Proof. rewrite <- fmap_S_seq. by rewrite <- list_fmap_compose. Qed.

Section GetSolution.
Variable pallets : list cell.
Variable IndexToNode : Z → Z.
Variable IsEnd : Z → bool.
Variable NextVar : Z → Z.
Variable GetArcCostForVehicle : Z → Z → Z → Z.
Hypothesis node_range :
  ∀ i, 0 ≤ IndexToNode i < Z.of_nat (length (Notebook.demand pallets)).

Lemma follow_run (k : nat) :
  ∀ (fuel : nat) (i : Z) (info : Notebook.Info),
    IsEnd (Nat.iter k NextVar i) = true → (k < fuel)%nat →
    ∃ m,
      Notebook.follow pallets IndexToNode IsEnd NextVar GetArcCostForVehicle
        fuel i info
      = Some (inr
          {| Notebook.vehicle := Notebook.vehicle info;
             Notebook.stops :=
               Notebook.stops info
               ++ ((λ j, IndexToNode (Nat.iter j NextVar i)) <$> seq 0 m);
             Notebook.stop_distances :=
               Notebook.stop_distances info
               ++ ((λ j, GetArcCostForVehicle (Nat.iter j NextVar i)
                           (NextVar (Nat.iter j NextVar i))
                           (Notebook.vehicle info)) <$> seq 0 m);
             Notebook.stop_loads :=
               Notebook.stop_loads info
               ++ ((λ j, nth (Z.to_nat (IndexToNode (Nat.iter j NextVar i)))
                           (Notebook.demand pallets) None) <$> seq 0 m) |}).
Proof.
  induction k as [|k IH]; intros fuel i info Hend Hfuel.
  - destruct fuel as [|fuel]; [lia|]. exists O. cbn [Notebook.follow].
    simpl in Hend. rewrite Hend. cbn [seq fmap list_fmap].
    rewrite !app_nil_r. by destruct info.
  - destruct fuel as [|fuel]; [lia|]. cbn [Notebook.follow].
    destruct (IsEnd i) eqn:Hi.
    + exists O. cbn [seq fmap list_fmap]. rewrite !app_nil_r. by destruct info.
    + cbv zeta.
      rewrite (py_getitem_nth (Notebook.demand pallets) (IndexToNode i) None)
        by apply node_range.
      rewrite Nat.iter_succ_r in Hend.
      destruct (IH fuel (NextVar i)
                  {| Notebook.vehicle := Notebook.vehicle info;
                     Notebook.stops := Notebook.stops info ++ [IndexToNode i];
                     Notebook.stop_distances :=
                       Notebook.stop_distances info
                       ++ [GetArcCostForVehicle i (NextVar i)
                             (Notebook.vehicle info)];
                     Notebook.stop_loads :=
                       Notebook.stop_loads info
                       ++ [nth (Z.to_nat (IndexToNode i))
                             (Notebook.demand pallets) None] |} Hend)
        as [m Hm]; [lia|].
      exists (S m). rewrite Hm. cbn [Notebook.vehicle Notebook.stops
        Notebook.stop_distances Notebook.stop_loads].
      do 2 f_equal. cbn [seq]. rewrite !fmap_cons, !fmap_seq_S.
      rewrite <- !app_assoc. cbn [app Nat.iter nat_rect].
      f_equal; f_equal; f_equal; apply list_fmap_ext; intros ? j ?;
        by rewrite <- !Nat.iter_succ_r.
Qed.

End GetSolution.

Section GetSolutionAligned.
Variable pallets : list cell.
Variable IndexToNode : Z → Z.
Variable Start : Z → Z.
Variable IsEnd : Z → bool.
Variable NextVar : Z → Z.
Variable GetArcCostForVehicle : Z → Z → Z → Z.
Hypothesis node_range :
  ∀ i, 0 ≤ IndexToNode i < Z.of_nat (length (Notebook.demand pallets)).

Let aligned (v : Z) (info : Notebook.Info) : Prop :=
  Notebook.vehicle info = v
  ∧ length (Notebook.stop_distances info) = length (Notebook.stops info)
  ∧ length (Notebook.stop_loads info) = length (Notebook.stops info)
  ∧ last (Notebook.stops info) = Some 0
  ∧ ∀ j node, Notebook.inner (Notebook.stops info) !! j = Some node →
      ∃ i load,
        node = IndexToNode (NextVar i)
        ∧ Notebook.inner (Notebook.stop_distances info) !! j
          = Some (GetArcCostForVehicle i (NextVar i) v)
        ∧ py_getitem (Notebook.demand pallets) node = inr load
        ∧ Notebook.inner (Notebook.stop_loads info) !! j = Some load.

Lemma vehicle_info_run (fuel k : nat) (v : Z) :
  IsEnd (Nat.iter k NextVar (Start v)) = true → (k < fuel)%nat →
  ∃ info,
    Notebook.vehicle_info pallets IndexToNode Start IsEnd NextVar
      GetArcCostForVehicle fuel v = Some (inr info)
    ∧ aligned v info.
Proof.
  intros Hend Hfuel. unfold Notebook.vehicle_info.
  destruct (follow_run pallets IndexToNode IsEnd NextVar GetArcCostForVehicle
              node_range k fuel (Start v)
              {| Notebook.vehicle := v; Notebook.stops := [];
                 Notebook.stop_distances := [0]; Notebook.stop_loads := [] |}
              Hend Hfuel) as [m ->].
  eexists. split; [reflexivity|].
  unfold aligned.
  cbn [Notebook.vehicle Notebook.stops Notebook.stop_distances Notebook.stop_loads app].
  split; [done|]. split; [|split; [|split]].
  - cbn [length]. rewrite length_app, !length_fmap, length_seq. simpl. lia.
  - rewrite !length_app, !length_fmap. done.
  - apply last_snoc.
  - destruct m as [|m].
    { intros j node Hj. by rewrite inner_short in Hj by (simpl; lia). }
    set (nodes := λ j, IndexToNode (Nat.iter j NextVar (Start v))).
    set (costs := λ j, GetArcCostForVehicle (Nat.iter j NextVar (Start v))
                         (NextVar (Nat.iter j NextVar (Start v))) v).
    set (loads := λ j, nth (Z.to_nat (IndexToNode (Nat.iter j NextVar (Start v))))
                         (Notebook.demand pallets) None).
    assert (Notebook.inner ((nodes <$> seq 0 (S m)) ++ [0])
            = (λ j, nodes (S j)) <$> seq 0 m) as ->.
    { cbn [seq]. rewrite fmap_cons, fmap_seq_S, <- app_comm_cons.
      apply inner_cons_snoc. }
    assert (Notebook.inner (0 :: (costs <$> seq 0 (S m))) = costs <$> seq 0 m) as ->.
    { rewrite seq_S, fmap_app. apply inner_cons_snoc. }
    assert (Notebook.inner ((loads <$> seq 0 (S m)) ++ [Some 0])
            = (λ j, loads (S j)) <$> seq 0 m) as ->.
    { cbn [seq]. rewrite fmap_cons, fmap_seq_S, <- app_comm_cons.
      apply inner_cons_snoc. }
    intros j node Hj. rewrite list_lookup_fmap in Hj.
    destruct (seq 0 m !! j) as [j'|] eqn:Hseq; [|done].
    apply lookup_seq in Hseq as [-> Hlt]. simpl in Hj. inversion Hj; subst node.
    exists (Nat.iter j NextVar (Start v)), (loads (S j)).
    split; [done|]. split; [|split].
    + by rewrite list_lookup_fmap, lookup_seq_lt.
    + apply py_getitem_nth, node_range.
    + by rewrite list_lookup_fmap, lookup_seq_lt.
Qed.

Lemma solution_of_run (fuel : nat) (vs : list Z) :
  (∀ v, v ∈ vs →
     ∃ k, (k < fuel)%nat ∧ IsEnd (Nat.iter k NextVar (Start v)) = true) →
  ∃ solution,
    Notebook.solution_of pallets IndexToNode Start IsEnd NextVar
      GetArcCostForVehicle fuel vs = Some (inr solution)
    ∧ Forall2 aligned vs solution.
Proof.
  induction vs as [|v vs IH]; intros Hvs.
  - exists []. split; [done|constructor].
  - destruct (Hvs v) as (k & Hk & Hend); [by left|].
    destruct (vehicle_info_run fuel k v Hend Hk) as (info & Hinfo & Hal).
    destruct IH as (solution & Hsol & Hall).
    { intros v' Hv'. apply Hvs. by right. }
    exists (info :: solution). cbn [Notebook.solution_of].
    rewrite Hinfo, Hsol. split; [done|by constructor].
Qed.

End GetSolutionAligned.

(** X10.  get_solution() on a routing model in which every vehicle's
    chain of next indices comes to an end index, the node numbers lying
    within the demand array: it returns one record per vehicle, in the
    order of the vehicles; in each record the lists stops,
    stop_distances and stop_loads have one length and stops ends at the
    depot 0; and the three slices [1:-1] that the notebook writes into
    the shipment table are aligned: at each place stand a stop, the cost
    of the arc that arrives at it, and the demand of that stop. *)
Theorem get_solution_aligned (haversine : cell * cell → cell * cell → cell)
    (latitude longitude pallets : list cell)
    (IndexToNode Start : Z → Z) (IsEnd : Z → bool) (NextVar : Z → Z)
    (GetArcCostForVehicle : Z → Z → Z → Z) (fuel : nat) :
  (∀ i, 0 ≤ IndexToNode i < Z.of_nat (length (Notebook.demand pallets))) →
  (∀ v, (v < length (Notebook.vehicles haversine latitude longitude))%nat →
     ∃ k, (k < fuel)%nat
          ∧ IsEnd (Nat.iter k NextVar (Start (Z.of_nat v))) = true) →
  ∃ solution,
    Notebook.get_solution haversine latitude longitude pallets IndexToNode
      Start IsEnd NextVar GetArcCostForVehicle fuel = Some (inr solution)
    ∧ length solution = length (Notebook.vehicles haversine latitude longitude)
    ∧ ∀ n info, solution !! n = Some info →
        Notebook.vehicle info = Z.of_nat n
        ∧ length (Notebook.stop_distances info) = length (Notebook.stops info)
        ∧ length (Notebook.stop_loads info) = length (Notebook.stops info)
        ∧ last (Notebook.stops info) = Some 0
        ∧ ∀ j node, Notebook.inner (Notebook.stops info) !! j = Some node →
            ∃ i load,
              node = IndexToNode (NextVar i)
              ∧ Notebook.inner (Notebook.stop_distances info) !! j
                = Some (GetArcCostForVehicle i (NextVar i) (Z.of_nat n))
              ∧ py_getitem (Notebook.demand pallets) node = inr load
              ∧ Notebook.inner (Notebook.stop_loads info) !! j = Some load.
Proof.
  intros Hnode Hend. unfold Notebook.get_solution.
  destruct (solution_of_run pallets IndexToNode Start IsEnd NextVar
              GetArcCostForVehicle Hnode fuel
              (Z.of_nat <$> seq 0 (length (Notebook.vehicles haversine latitude
                                             longitude))))
    as (solution & Hsol & Hall).
  { intros v Hv. apply list_elem_of_fmap in Hv as (n & -> & Hn).
    apply elem_of_seq in Hn. apply Hend. lia. }
  exists solution. split; [done|]. split.
  - apply Forall2_length in Hall. by rewrite length_fmap, length_seq in Hall.
  - intros n info Hn.
    destruct (Forall2_lookup_r _ _ _ _ _ Hall Hn) as (v & Hv & Hal).
    rewrite list_lookup_fmap in Hv.
    destruct (seq 0 _ !! n) as [n'|] eqn:Hseq; [|done].
    apply lookup_seq in Hseq as [-> _]. simpl in Hv. inversion Hv; subst v.
    exact Hal.
Qed.

Lemma get_solution_aligned_witness :
  ∃ solution,
    Notebook.get_solution NotebookExample.flat_distance NotebookExample.latitude
      NotebookExample.longitude NotebookExample.pallets
      NotebookExample.IndexToNode NotebookExample.Start NotebookExample.IsEnd
      NotebookExample.NextVar NotebookExample.GetArcCostForVehicle 5
    = Some (inr solution)
    ∧ length solution
      = length (Notebook.vehicles NotebookExample.flat_distance
                  NotebookExample.latitude NotebookExample.longitude)
    ∧ ∀ n info, solution !! n = Some info →
        Notebook.vehicle info = Z.of_nat n
        ∧ length (Notebook.stop_distances info) = length (Notebook.stops info)
        ∧ length (Notebook.stop_loads info) = length (Notebook.stops info)
        ∧ last (Notebook.stops info) = Some 0
        ∧ ∀ j node, Notebook.inner (Notebook.stops info) !! j = Some node →
            ∃ i load,
              node = NotebookExample.IndexToNode (NotebookExample.NextVar i)
              ∧ Notebook.inner (Notebook.stop_distances info) !! j
                = Some (NotebookExample.GetArcCostForVehicle i
                          (NotebookExample.NextVar i) (Z.of_nat n))
              ∧ py_getitem (Notebook.demand NotebookExample.pallets) node
                = inr load
              ∧ Notebook.inner (Notebook.stop_loads info) !! j = Some load.
Proof.
  apply (get_solution_aligned NotebookExample.flat_distance
           NotebookExample.latitude NotebookExample.longitude
           NotebookExample.pallets NotebookExample.IndexToNode
           NotebookExample.Start NotebookExample.IsEnd NotebookExample.NextVar
           NotebookExample.GetArcCostForVehicle 5).
  - intros i. unfold NotebookExample.IndexToNode. simpl.
    destruct (i =? 2); [lia|]. destruct (i =? 3); lia.
  - intros [|[|v]] Hv.
    + exists 3%nat. split; [lia|reflexivity].
    + exists 1%nat. split; [lia|reflexivity].
    + exfalso. vm_compute in Hv. lia.
Defined.

(* --------------------------------------------------------------------- *)
(* A demand table without records                                        *)
(* --------------------------------------------------------------------- *)

Lemma legs_no_zip_None (t : tables) (cs pcs zs pzs : list cell) :
  Forall (λ c, c = None) zs →
  ∃ ds, legs t cs pcs zs pzs = inr ds ∧ Forall (λ c, c = None) ds.
Proof.
  revert pcs zs pzs. induction cs as [|c cs IH]; intros pcs zs pzs Hzs;
    [by exists []|].
  destruct pcs as [|pc pcs]; [by exists []|].
  destruct zs as [|z zs]; [by exists []|].
  destruct pzs as [|pz pzs]; [by exists []|].
  apply Forall_cons in Hzs as [-> Hzs].
  destruct (IH pcs zs pzs Hzs) as (ds & Hds & Hnone).
  exists (None :: ds). cbn [legs row_leg ebind]. rewrite Hds.
  split; [done|by constructor].
Qed.

Lemma group_rows_nil (g : Z) (k : list cell) : group_rows g k [] = [].
Proof. by destruct k. Qed.

(** On a float64 column the capacity component is the exact sum. *)
Lemma abs_deviation_sum_float (bound : Z) (cs v : list cell) :
  is_float v = true →
  abs_deviation_sum bound (is_float v, groupby_sum cs v)
  = Float64 (exact_abs_deviation_sum bound (exact_groupby_sum cs v)).
Proof.
  intros Hv. unfold abs_deviation_sum, groupby_sum, exact_abs_deviation_sum,
    exact_groupby_sum. cbn [fst snd]. by rewrite Hv.
Qed.

Lemma score_empty_table `{ArgSort} (individual : list Z) (t : tables) :
  score individual 0 [] [] [] t
  = inr (45025 * Z.of_nat (length (remove_dups individual))).
Proof.
  unfold score. rewrite bool_decide_eq_true_2.
  2:{ destruct individual; [by left|right; simpl; lia]. }
  cbv zeta.
  destruct (legs_no_zip_None (float_tables t)
    (to_float (ndtake (nargsort (Some <$> individual)) (Some <$> individual)))
    (shift (ndtake (nargsort (Some <$> individual)) (Some <$> individual)))
    (to_float (ndtake (nargsort (Some <$> individual))
       (reindexed 0 (length individual) [])))
    (shift (ndtake (nargsort (Some <$> individual))
       (reindexed 0 (length individual) [])))) as (ds & -> & Hnone).
  { apply to_float_all_None, Forall_ndtake, Forall_reindexed; [done|constructor]. }
  cbn [ebind]. f_equal. rewrite scalar_add_float.
  rewrite (result_series_all_None ds Hnone).
  destruct individual as [|r rs]; [vm_compute; reflexivity|].
  assert (is_float (reindexed 0 (length (r :: rs)) []) = true) as Hfloat.
  { unfold reindexed. rewrite bool_decide_eq_true_2 by (simpl; lia). done. }
  rewrite !abs_deviation_sum_float by done.
  rewrite !exact_abs_deviation_sum_routes by done.
  assert (∀ bound : Z, 0 ≤ bound →
            sum_Z (map (λ r', Z.abs (bound - series_sum
                                      (group_rows r' (Some <$> r :: rs) [])))
                       (remove_dups (r :: rs)))
            = bound * Z.of_nat (length (remove_dups (r :: rs)))) as Hpen.
  { intros bound Hb. rewrite <- sum_Z_map_const. f_equal. apply map_ext.
    intros r'. rewrite group_rows_nil. unfold series_sum. simpl. lia. }
  rewrite (Hpen max_weight), (Hpen max_pallets) by done.
  unfold max_weight, max_pallets. cbn [scalar_add as_float64]. lia.
Qed.

(** X11.  On a demand table without records the evaluator raises nothing,
    whatever the length of the individual: the table takes its rows from
    the individual, every route sums to no weight and no pallets, and
    the score is 45025 for each distinct route id. *)
Theorem fitness_func_without_records `{ArgSort}
    (individual : list Z) (environment : Environment) (h : heap)
    (ws ps : list cell) (t : tables) :
  env_ok h environment [] ws ps t →
  ∃ h', fitness_func individual environment h
        = (inr (45025 * Z.of_nat (length (remove_dups individual))), h').
Proof.
  intros Hok.
  destruct (env_ok_lengths _ _ _ _ _ _ Hok) as [Hws Hps].
  destruct ws; [|done]. destruct ps; [|done].
  destruct (fitness_func_run individual environment h _ _ _ _ Hok) as [h' E].
  exists h'. rewrite E. cbn [length]. by rewrite score_empty_table.
Qed.

Lemma fitness_func_without_records_witness :
  ∃ h', fitness_func (H:=stable_sorting) [3; 8; 3] Example.environment
          Example.empty_heap
        = (inr (45025 * Z.of_nat (length (remove_dups [3; 8; 3]))), h').
Proof.
  apply (fitness_func_without_records (H:=stable_sorting) [3; 8; 3]
           Example.environment Example.empty_heap [] [] Example.tables0).
  split; vm_compute; reflexivity.
Defined.
